(** * mc: a memcached binary-protocol client -- the connection layer

    A shallow embedding of [server_conn.go] (the optimised connection code)
    and of the earlier [backupMsg]/[restoreMsg] pair it replaced:

    - the tiered body-buffer pools ([getBodyBuffer], [putBodyBuffer]);
    - the wire codec and the exchange ([send], [recv], [sendRecv],
      [sendRecvStats], [connect], [auth]);
    - the request snapshot ([backupMsg], [restoreMsg]) over an explicit store
      of backing arrays, so that capacity reuse and aliasing are visible.

    Unsigned machine integers are [Z] with the wrap-around written out, [int]
    is 64 bits wide, byte slices carry their backing array, offset and
    length, Go strings are [string].  The peer of a connection is a finite
    transcript, the bytes it delivers before the stream ends or a read times
    out: a peer that never stops sending is not modelled, and nothing below
    says that the loop of [sendRecvStats], which has no bound of its own,
    ends against one. *)

From Stdlib Require Import ZArith Lia.
From Stdlib Require Import Strings.Byte.
From stdpp Require Import base list strings gmap.

Local Open Scope Z_scope.

(** ** Outcomes of a Go call

    A call either returns (possibly with a non-nil [error] inside its result)
    or panics. *)

Inductive result (A : Type) : Type :=
  | Ret (a : A)
  | Panic (why : string).
Arguments Ret {A} a.
Arguments Panic {A} why.

(** Sequencing: a panic ends the call.  With these instances
    [x ← r; k] runs [k] on the value [r] returned. *)
#[global] Instance result_ret : MRet result := fun A a => Ret a.
#[global] Instance result_bind : MBind result := fun A B k r =>
  match r with
  | Ret a => k a
  | Panic w => Panic w
  end.

(** ** Machine integers *)

Definition uint8 (z : Z) : Z := z mod 2 ^ 8.
Definition uint16 (z : Z) : Z := z mod 2 ^ 16.
Definition uint32 (z : Z) : Z := z mod 2 ^ 32.
Definition uint64 (z : Z) : Z := z mod 2 ^ 64.

(** The conversion [int(z)] where [int] has [bits] bits: the value wraps
    around into the signed range. *)
Definition to_int_on (bits z : Z) : Z :=
  (z + 2 ^ (bits - 1)) mod 2 ^ bits - 2 ^ (bits - 1).

(** [int] is 64 bits wide here, as on the 64-bit platforms, and a [uint32]
    keeps its value.  (With a 32-bit [int] a [uint32] from 2^31 on turns
    negative and [getBodyBuffer] slices with a negative bound; the code is
    modelled as built for a 64-bit platform.) *)
Definition int_bits : Z := 64.

Definition to_int (z : Z) : Z := to_int_on int_bits z.

(** ** Bytes and big-endian integers *)

Definition Z_of_byte (b : byte) : Z := Z.of_N (Byte.to_N b).

(** [uint8(z)] as a byte: the low eight bits of [z]. *)
Definition byte_of_Z (z : Z) : byte :=
  match Byte.of_N (Z.to_N (z mod 256)) with
  | Some b => b
  | None => x00
  end.

(** [binary.BigEndian.PutUintN]: the [n] low bytes of [v], most significant
    first. *)
Fixpoint be_bytes (n : nat) (v : Z) : list byte :=
  match n with
  | O => []
  | S k => byte_of_Z (v / 256 ^ Z.of_nat k) :: be_bytes k v
  end.

Fixpoint be_value_acc (acc : Z) (bs : list byte) : Z :=
  match bs with
  | [] => acc
  | b :: r => be_value_acc (acc * 256 + Z_of_byte b) r
  end.

(** The big-endian value of exactly the bytes [bs]. *)
Definition be_value (bs : list byte) : Z := be_value_acc 0 bs.

Definition PutUint16 (v : Z) : list byte := be_bytes 2 v.
Definition PutUint32 (v : Z) : list byte := be_bytes 4 v.
Definition PutUint64 (v : Z) : list byte := be_bytes 8 v.

(** ** Byte slices

    A [[]byte]: backing array, offset of the first element, length.  The
    capacity is what is left of the array after the offset. *)

Record bytebuf : Type := mkBuf {
  buf_arr : list byte;
  buf_off : nat;
  buf_len : nat
}.

Definition cap (b : bytebuf) : Z := Z.of_nat (length (buf_arr b) - buf_off b).
Definition len (b : bytebuf) : Z := Z.of_nat (buf_len b).
Definition buf_bytes (b : bytebuf) : list byte :=
  take (buf_len b) (drop (buf_off b) (buf_arr b)).

(** [make([]byte, n)] *)
Definition make_bytes (n : Z) : bytebuf :=
  mkBuf (replicate (Z.to_nat n) x00) 0 (Z.to_nat n).

(** [b[lo:hi]]; Go panics unless [0 <= lo <= hi <= cap(b)]. *)
Definition sub (b : bytebuf) (lo hi : Z) : result bytebuf :=
  if (0 <=? lo) && (lo <=? hi) && (hi <=? cap b)
  then Ret (mkBuf (buf_arr b) (buf_off b + Z.to_nat lo) (Z.to_nat (hi - lo)))
  else Panic "slice bounds out of range".

(** [b[:hi]] and [b[lo:]] *)
Definition slice_to (b : bytebuf) (hi : Z) : result bytebuf := sub b 0 hi.
Definition slice_from (b : bytebuf) (lo : Z) : result bytebuf := sub b lo (len b).

(** [b[i]]; Go panics unless [0 <= i < len(b)]. *)
Definition index (b : bytebuf) (i : Z) : result byte :=
  if (0 <=? i) && (i <? len b)
  then match buf_arr b !! (buf_off b + Z.to_nat i)%nat with
       | Some x => Ret x
       | None => Panic "index out of range"
       end
  else Panic "index out of range".

(** [binary.BigEndian.UintN(b)]: panics when [b] has fewer than [n] bytes,
    reads the first [n] otherwise. *)
Definition Uint (n : nat) (b : bytebuf) : result Z :=
  if Z.of_nat n <=? len b
  then Ret (be_value (take n (buf_bytes b)))
  else Panic "index out of range".

(** [string(b)] and [[]byte(s)] *)
Definition string_of (b : bytebuf) : string := String.string_of_list_byte (buf_bytes b).
Definition bytes_of (s : string) : list byte := String.list_byte_of_string s.

(** ** The body-buffer pools *)

(** A [sync.Pool] of byte slices, seen from one goroutine: [Put] pushes, [Get]
    pops the most recent item and calls [New] when the pool is empty.  The
    runtime may also drop pooled items at any time; every pool state reachable
    that way is a sub-list of the one modelled here and satisfies the same
    invariant [pools_ok] below. *)
Abbreviation pool := (list bytebuf).

Definition pool_get (new_size : Z) (p : pool) : bytebuf * pool :=
  match p with
  | b :: p' => (b, p')
  | [] => (make_bytes new_size, [])
  end.

Definition pool_put (b : bytebuf) (p : pool) : pool := b :: p.

Record pools : Type := mkPools {
  smallBodyPool : pool;
  mediumBodyPool : pool;
  largeBodyPool : pool
}.

Definition no_pools : pools := mkPools [] [] [].

Definition getBodyBuffer (size : Z) (P : pools) : result (bytebuf * pools) :=
  if size <=? 256 then
    let '(b, p) := pool_get 256 (smallBodyPool P) in
    b' ← slice_to b size;
    Ret (b', mkPools p (mediumBodyPool P) (largeBodyPool P))
  else if size <=? 4096 then
    let '(b, p) := pool_get 4096 (mediumBodyPool P) in
    b' ← slice_to b size;
    Ret (b', mkPools (smallBodyPool P) p (largeBodyPool P))
  else if size <=? 65536 then
    let '(b, p) := pool_get 65536 (largeBodyPool P) in
    b' ← slice_to b size;
    Ret (b', mkPools (smallBodyPool P) (mediumBodyPool P) p)
  else Ret (make_bytes size, P).

(** [buf[:c]] with [c = cap(buf)]: always in bounds. *)
Definition full (b : bytebuf) : bytebuf :=
  mkBuf (buf_arr b) (buf_off b) (length (buf_arr b) - buf_off b).

Definition putBodyBuffer (b : bytebuf) (P : pools) : pools :=
  let c := cap b in
  if c =? 256 then
    mkPools (pool_put (full b) (smallBodyPool P)) (mediumBodyPool P) (largeBodyPool P)
  else if c =? 4096 then
    mkPools (smallBodyPool P) (pool_put (full b) (mediumBodyPool P)) (largeBodyPool P)
  else if c =? 65536 then
    mkPools (smallBodyPool P) (mediumBodyPool P) (pool_put (full b) (largeBodyPool P))
  else P.

(** Every pooled buffer has exactly the capacity of its class. *)
Definition pool_ok (c : Z) (p : pool) : Prop := Forall (fun b => cap b = c) p.

Definition pools_ok (P : pools) : Prop :=
  pool_ok 256 (smallBodyPool P) ∧ pool_ok 4096 (mediumBodyPool P) ∧
  pool_ok 65536 (largeBodyPool P).

(** ** Errors and protocol constants *)

(** [Error{Status, Message, WrappedError}]; every [error] of the package is
    an [*Error], [nil] is [None]. *)
Record Error : Type := mkError {
  Status : Z;
  Message : string;
  WrappedError : option string
}.

(** What the connection code uses from the rest of the package (the
    protocol tables and the error constructors are declared outside
    [server_conn.go]): the request magic byte, two opcodes, three status
    codes, [newError], which turns a response status into an [error], and
    [wrapError], which wraps an I/O error under a status. *)
Class Protocol : Type := {
  magicSend : Z;
  opAuthList : Z;
  opAuthStart : Z;
  StatusNetworkError : Z;
  StatusUnknownCommand : Z;
  StatusAuthUnknown : Z;
  newError : Z → option Error;
  wrapError : Z → string → Error
}.

(** [wrapError] keeps the status it is given. *)
Definition wrapError_keeps_status `{Protocol} : Prop :=
  ∀ s e, Status (wrapError s e) = s.

(** Status 0 is success. *)
Definition newError_ok `{Protocol} : Prop := newError 0 = None.

(** ** Values of type [interface{}] and their slices *)

Definition loc : Type := nat.

(** The dynamic values that occur in extras lists: unsigned integers (request
    extras), pointers to unsigned integer variables (response destinations),
    the nil pointers of these four pointer types (a nil [*uint32] is
    [NilPU32]: an interface value that holds a type and no variable), the nil
    interface, and values of any other type. *)
Inductive iface : Type :=
  | INil
  | U8 (v : Z) | U16 (v : Z) | U32 (v : Z) | U64 (v : Z)
  | PU8 (l : loc) | PU16 (l : loc) | PU32 (l : loc) | PU64 (l : loc)
  | NilPU8 | NilPU16 | NilPU32 | NilPU64
  | Other (ty : string).

(** Backing arrays of [[]interface{}] slices, by address. *)
Abbreviation store := (list (list iface)).

(** A slice header: backing array ([None] for the nil slice), offset, length
    and capacity. *)
Record slice : Type := mkSlice {
  sl_arr : option nat;
  sl_off : nat;
  sl_len : nat;
  sl_cap : nat
}.

Definition nil_slice : slice := mkSlice None 0 0 0.

Definition array_at (σ : store) (a : nat) : list iface := default [] (σ !! a).

(** The elements of a slice. *)
Definition elems (σ : store) (s : slice) : list iface :=
  match sl_arr s with
  | Some a => take (sl_len s) (drop (sl_off s) (array_at σ a))
  | None => []
  end.

(** A slice header that the runtime can have produced. *)
Definition wf_slice (σ : store) (s : slice) : Prop :=
  (sl_len s ≤ sl_cap s)%nat ∧
  match sl_arr s with
  | Some a => (a < length σ)%nat ∧ (sl_off s + sl_cap s ≤ length (array_at σ a))%nat
  | None => sl_cap s = 0%nat
  end.

(** [s[:n]] *)
Definition reslice (s : slice) (n : nat) : result slice :=
  if (n <=? sl_cap s)%nat
  then Ret (mkSlice (sl_arr s) (sl_off s) n (sl_cap s))
  else Panic "slice bounds out of range".

(** [make([]interface{}, n)]: a fresh array of [n] nil interfaces. *)
Definition make_slice (σ : store) (n : nat) : store * slice :=
  (σ ++ [replicate n INil], mkSlice (Some (length σ)) 0 n n).

(** [copy(dst, src)]: the first [min(len(dst), len(src))] elements of [src]
    are read, then written over the beginning of [dst] (overlap is handled as
    by memmove). *)
Definition copy_slice (σ : store) (dst src : slice) : store :=
  let n := Nat.min (sl_len dst) (sl_len src) in
  let vs := take n (elems σ src) in
  match sl_arr dst with
  | Some a => <[a := list_inserts (sl_off dst) vs (array_at σ a)]> σ
  | None => σ
  end.

(** [append(s, v)]: in place when the capacity allows it, into a fresh larger
    array otherwise.  [grow] is the runtime's growth policy (old capacity to
    new capacity); the new array always has room for the new element. *)
Definition append_slice (grow : nat → nat) (σ : store) (s : slice) (v : iface)
  : store * slice :=
  match sl_arr s with
  | Some a =>
    if (sl_len s <? sl_cap s)%nat then
      (<[a := <[(sl_off s + sl_len s)%nat := v]> (array_at σ a)]> σ,
       mkSlice (Some a) (sl_off s) (S (sl_len s)) (sl_cap s))
    else
      let c := Nat.max (S (sl_len s)) (grow (sl_cap s)) in
      (σ ++ [elems σ s ++ v :: replicate (c - S (sl_len s)) INil],
       mkSlice (Some (length σ)) 0 (S (sl_len s)) c)
  | None =>
    let c := Nat.max 1 (grow 0%nat) in
    (σ ++ [v :: replicate (c - 1) INil], mkSlice (Some (length σ)) 0 1 c)
  end.

(** ** Messages *)

Record header : Type := mkHeader {
  Magic : Z;
  Op : Z;
  KeyLen : Z;
  ExtraLen : Z;
  DataType : Z;
  ResvOrStatus : Z;
  BodyLen : Z;
  Opaque : Z;
  CAS : Z
}.

Definition zero_header : header := mkHeader 0 0 0 0 0 0 0 0 0.

Record msg : Type := mkMsg {
  hdr : header;
  iextras : slice;
  oextras : slice;
  key : string;
  val : string
}.

Definition zero_msg : msg := mkMsg zero_header nil_slice nil_slice "" "".

(** ** The transport

    What the connection code sees of a [net.Conn]: the bytes the peer delivers
    before the stream ends or the deadline passes (a finite transcript: a
    peer that never stops sending is not modelled), the bytes written so far,
    whether writes fail, and whether the connection is a [*net.TCPConn]. *)
Record netConn : Type := mkNetConn {
  incoming : list byte;
  outgoing : list byte;
  write_error : option string;
  isTCP : bool
}.

Definition conn_Write (p : list byte) (c : netConn) : option string * netConn :=
  match write_error c with
  | Some e => (Some e, c)
  | None => (None, mkNetConn (incoming c) (outgoing c ++ p) None (isTCP c))
  end.

(** [io.ReadFull] of [n] bytes: all of them, or an error with what there
    was. *)
Definition ReadFull (n : nat) (c : netConn) : option string * list byte * netConn :=
  if (n <=? length (incoming c))%nat then
    (None, take n (incoming c),
     mkNetConn (drop n (incoming c)) (outgoing c) (write_error c) (isTCP c))
  else
    (Some (if (length (incoming c) =? 0)%nat then "EOF" else "unexpected EOF"),
     incoming c, mkNetConn [] (outgoing c) (write_error c) (isTCP c)).

(** The writing half of the [bufio.ReadWriter]: the bytes not yet flushed and
    the sticky error.  The buffer holds 4096 bytes; a write that does not fit
    is written through together with what was pending. *)
Record bufrw : Type := mkBufrw {
  pending : list byte;
  werr : option string
}.

Definition new_bufrw : bufrw := mkBufrw [] None.

Definition bufio_flush_all (bs : list byte) (c : netConn) : option string * netConn * bufrw :=
  match conn_Write bs c with
  | (Some e, c') => (Some e, c', mkBufrw bs (Some e))
  | (None, c') => (None, c', mkBufrw [] None)
  end.

Definition bufio_Write (p : list byte) (c : netConn) (w : bufrw)
  : option string * netConn * bufrw :=
  match werr w with
  | Some e => (Some e, c, w)
  | None =>
    if (length (pending w ++ p) <=? 4096)%nat
    then (None, c, mkBufrw (pending w ++ p) None)
    else bufio_flush_all (pending w ++ p) c
  end.

Definition bufio_Flush (c : netConn) (w : bufrw) : option string * netConn * bufrw :=
  match werr w with
  | Some e => (Some e, c, w)
  | None =>
    match pending w with
    | [] => (None, c, w)
    | bs => bufio_flush_all bs c
    end
  end.

(** ** The connection *)

(** [serverConn], without the address and the configuration (they only feed
    the dialler and the deadlines).  [closes] counts the calls of
    [conn.Close()], so that a teardown stays observable after [conn] is
    nil. *)
Record serverConn : Type := mkServerConn {
  scheme : string;
  username : string;
  password : string;
  conn : option netConn;
  rw : option bufrw;
  opq : Z;
  sc_backupMsg : msg;
  hdrBuf : list byte;
  closes : nat
}.

Definition newServerConn (scheme username password : string) : serverConn :=
  mkServerConn scheme username password None None 0 zero_msg (replicate 24 x00) 0.

Definition set_io (sc : serverConn) (c : netConn) (w : bufrw) : serverConn :=
  mkServerConn (scheme sc) (username sc) (password sc) (Some c) (Some w)
    (opq sc) (sc_backupMsg sc) (hdrBuf sc) (closes sc).

Definition set_conn (sc : serverConn) (c : netConn) : serverConn :=
  mkServerConn (scheme sc) (username sc) (password sc) (Some c) (rw sc)
    (opq sc) (sc_backupMsg sc) (hdrBuf sc) (closes sc).

Definition set_rw (sc : serverConn) (w : bufrw) : serverConn :=
  mkServerConn (scheme sc) (username sc) (password sc) (conn sc) (Some w)
    (opq sc) (sc_backupMsg sc) (hdrBuf sc) (closes sc).

Definition set_hdrBuf (sc : serverConn) (b : list byte) : serverConn :=
  mkServerConn (scheme sc) (username sc) (password sc) (conn sc) (rw sc)
    (opq sc) (sc_backupMsg sc) b (closes sc).

Definition set_opq (sc : serverConn) (o : Z) : serverConn :=
  mkServerConn (scheme sc) (username sc) (password sc) (conn sc) (rw sc)
    o (sc_backupMsg sc) (hdrBuf sc) (closes sc).

Definition set_backupMsg (sc : serverConn) (b : msg) : serverConn :=
  mkServerConn (scheme sc) (username sc) (password sc) (conn sc) (rw sc)
    (opq sc) b (hdrBuf sc) (closes sc).

(** [if sc.conn != nil { sc.conn.Close(); sc.conn = nil; sc.rw = nil }] *)
Definition close_conn (sc : serverConn) : serverConn :=
  match conn sc with
  | Some _ =>
    mkServerConn (scheme sc) (username sc) (password sc) None None
      (opq sc) (sc_backupMsg sc) (hdrBuf sc) (S (closes sc))
  | None => sc
  end.

(** The memory the exchange works on: the backing arrays of the extras
    slices, the unsigned integer variables the response destinations point
    to, and the buffer pools. *)
Record world : Type := mkWorld {
  arrays : store;
  dests : gmap loc Z;
  arena : pools
}.

Definition set_dests (W : world) (d : gmap loc Z) : world :=
  mkWorld (arrays W) d (arena W).
Definition set_arena (W : world) (P : pools) : world :=
  mkWorld (arrays W) (dests W) P.
Definition set_arrays (W : world) (σ : store) : world :=
  mkWorld σ (dests W) (arena W).

(** ** Wire codec: send *)

Section Exchange.
Context `{Protocol}.

Definition net_error (e : string) : option Error :=
  Some (wrapError StatusNetworkError e).

(** [sizeOfExtras]: the accumulator [l] is a [uint8] and wraps. *)
Fixpoint sizeOfExtras_from (l : Z) (extras : list iface) : result Z :=
  match extras with
  | [] => Ret l
  | e :: rest =>
    match e with
    | U8 _ => sizeOfExtras_from (uint8 (l + 1)) rest
    | U16 _ => sizeOfExtras_from (uint8 (l + 2)) rest
    | U32 _ => sizeOfExtras_from (uint8 (l + 4)) rest
    | U64 _ => sizeOfExtras_from (uint8 (l + 8)) rest
    | _ => Panic "mc: unknown extra type"
    end
  end.

Definition sizeOfExtras (extras : list iface) : result Z :=
  sizeOfExtras_from 0 extras.

(** The 24 bytes [send] stores in [sc.hdrBuf]. *)
Definition encode_header (h : header) : list byte :=
  [byte_of_Z (Magic h); byte_of_Z (Op h)] ++ PutUint16 (KeyLen h) ++
  [byte_of_Z (ExtraLen h); byte_of_Z (DataType h)] ++
  PutUint16 (ResvOrStatus h) ++ PutUint32 (BodyLen h) ++
  PutUint32 (Opaque h) ++ PutUint64 (CAS h).

(** A write step of [send]: after an error nothing more is written. *)
Definition wstep : Type := netConn → bufrw → result (option string * netConn * bufrw).

Definition and_then (r : option string * netConn * bufrw) (k : wstep)
  : result (option string * netConn * bufrw) :=
  match r with
  | (Some e, c, w) => Ret (Some e, c, w)
  | (None, c, w) => k c w
  end.

(** The loop of [send] over [m.iextras]. *)
Fixpoint write_extras (extras : list iface) : wstep := fun c w =>
  match extras with
  | [] => Ret (None, c, w)
  | e :: rest =>
    r ← match e with
        | U8 v => Ret (bufio_Write [byte_of_Z v] c w)
        | U16 v => Ret (bufio_Write (PutUint16 v) c w)
        | U32 v => Ret (bufio_Write (PutUint32 v) c w)
        | U64 v => Ret (bufio_Write (PutUint64 v) c w)
        | _ => Panic "mc: unknown extra type"
        end;
    and_then r (write_extras rest)
  end.

Definition write_string (s : string) : wstep := fun c w =>
  if (0 <? String.length s)%nat
  then Ret (bufio_Write (bytes_of s) c w)
  else Ret (None, c, w).

Definition set_hdr (m : msg) (h : header) : msg :=
  mkMsg h (iextras m) (oextras m) (key m) (val m).

Definition set_key_val (m : msg) (k v : string) : msg :=
  mkMsg (hdr m) (iextras m) (oextras m) k v.

(** The header [send] computes for [m] on a connection whose counter is
    [o], given the extras length [el]. *)
Definition send_header (m : msg) (el o : Z) : header :=
  let keylen := uint16 (Z.of_nat (String.length (key m))) in
  mkHeader magicSend (Op (hdr m)) keylen el (DataType (hdr m))
    (ResvOrStatus (hdr m))
    (uint32 (uint32 (uint32 el + uint32 keylen)
             + uint32 (Z.of_nat (String.length (val m)))))
    o (CAS (hdr m)).

Definition send (W : world) (sc : serverConn) (m : msg)
  : result (option Error * serverConn * msg) :=
  let extras := elems (arrays W) (iextras m) in
  el ← sizeOfExtras extras;
  let m := set_hdr m (send_header m el (opq sc)) in
  let sc := set_opq sc (uint32 (opq sc + 1)) in
  let sc := set_hdrBuf sc (encode_header (hdr m)) in
  match conn sc, rw sc with
  | None, _ => Panic "nil pointer dereference"
  | Some _, None => Panic "nil pointer dereference"
  | Some c, Some w =>
    r ← and_then (bufio_Write (hdrBuf sc) c w) (fun c w =>
        r ← write_extras extras c w;
        and_then r (fun c w =>
        r ← write_string (key m) c w;
        and_then r (fun c w =>
        r ← write_string (val m) c w;
        and_then r (fun c w => Ret (bufio_Flush c w)))));
    match r with
    | (Some e, c, w) => Ret (net_error e, set_io sc c w, m)
    | (None, c, w) => Ret (None, set_io sc c w, m)
    end
  end.

(** ** Wire codec: recv *)

(** The [n]-byte big-endian field at offset [o] of the header buffer. *)
Definition field (o n : nat) (b : list byte) : Z := be_value (take n (drop o b)).

Definition parse_header (b : list byte) : header :=
  mkHeader (field 0 1 b) (field 1 1 b) (field 2 2 b) (field 4 1 b)
    (field 5 1 b) (field 6 2 b) (field 8 4 b) (field 12 4 b) (field 16 8 b).

(** [*ptr = binary.BigEndian.UintN(extrasBuf[offset:])] *)
Definition read_dest (n : nat) (extrasBuf : bytebuf) (offset : Z) (l : loc)
  (d : gmap loc Z) : result (gmap loc Z) :=
  b ← slice_from extrasBuf offset;
  v ← Uint n b;
  Ret (<[l := v]> d).

(** The same assignment through a nil pointer: the right-hand side is
    evaluated, the store panics. *)
Definition read_nil (n : nat) (extrasBuf : bytebuf) (offset : Z)
  : result (option string * gmap loc Z) :=
  b ← slice_from extrasBuf offset;
  _ ← Uint n b;
  Panic "invalid memory address or nil pointer dereference".

(** The loop of [recv] over [m.oextras]: the error, if any, and the
    destinations as written so far.  The type switch goes by the dynamic
    type, so a nil pointer of one of the four types takes the case of its
    type: the length check first, then the assignment through it. *)
Fixpoint read_extras (extrasBuf : bytebuf) (offset : Z) (oex : list iface)
  (d : gmap loc Z) : result (option string * gmap loc Z) :=
  match oex with
  | [] => Ret (None, d)
  | e :: rest =>
    match e with
    | PU8 l =>
      if len extrasBuf <? offset + 1 then Ret (Some "unexpected EOF", d)
      else x ← index extrasBuf offset;
           read_extras extrasBuf (offset + 1) rest (<[l := Z_of_byte x]> d)
    | PU16 l =>
      if len extrasBuf <? offset + 2 then Ret (Some "unexpected EOF", d)
      else d' ← read_dest 2 extrasBuf offset l d;
           read_extras extrasBuf (offset + 2) rest d'
    | PU32 l =>
      if len extrasBuf <? offset + 4 then Ret (Some "unexpected EOF", d)
      else d' ← read_dest 4 extrasBuf offset l d;
           read_extras extrasBuf (offset + 4) rest d'
    | PU64 l =>
      if len extrasBuf <? offset + 8 then Ret (Some "unexpected EOF", d)
      else d' ← read_dest 8 extrasBuf offset l d;
           read_extras extrasBuf (offset + 8) rest d'
    | NilPU8 =>
      if len extrasBuf <? offset + 1 then Ret (Some "unexpected EOF", d)
      else _ ← index extrasBuf offset;
           Panic "invalid memory address or nil pointer dereference"
    | NilPU16 =>
      if len extrasBuf <? offset + 2 then Ret (Some "unexpected EOF", d)
      else read_nil 2 extrasBuf offset
    | NilPU32 =>
      if len extrasBuf <? offset + 4 then Ret (Some "unexpected EOF", d)
      else read_nil 4 extrasBuf offset
    | NilPU64 =>
      if len extrasBuf <? offset + 8 then Ret (Some "unexpected EOF", d)
      else read_nil 8 extrasBuf offset
    | _ => Ret (Some "mc: unknown extra type in response", d)
    end
  end.

(** "Read Extras": the error, the rest of the body and the destinations. *)
Definition decode_extras (h : header) (oex : list iface) (buf : bytebuf)
  (d : gmap loc Z) : result (option string * bytebuf * gmap loc Z) :=
  if (ResvOrStatus h =? 0) && (0 <? ExtraLen h) then
    if len buf <? ExtraLen h then Ret (Some "unexpected EOF", buf, d)
    else
      extrasBuf ← slice_to buf (ExtraLen h);
      buf' ← slice_from buf (ExtraLen h);
      '(err, d') ← read_extras extrasBuf 0 oex d;
      Ret (err, buf', d')
  else Ret (None, buf, d).

(** What [recv] does with the body once it has been read. *)
Definition decode_body (oex : list iface) (body : bytebuf) (m : msg)
  (d : gmap loc Z) : result (option Error * gmap loc Z * msg) :=
  let h := hdr m in
  '(err, buf, d) ← decode_extras h oex body d;
  match err with
  | Some e => Ret (net_error e, d, m)
  | None =>
    if len buf <? KeyLen h then Ret (net_error "unexpected EOF", d, m)
    else
      k ← slice_to buf (KeyLen h);
      v ← slice_from buf (KeyLen h);
      Ret (newError (ResvOrStatus h), d, set_key_val m (string_of k) (string_of v))
  end.

(** [io.ReadFull(sc.rw, body)]: the bytes read land in the backing array. *)
Definition fill (body : bytebuf) (got : list byte) : bytebuf :=
  mkBuf (list_inserts (buf_off body) got (buf_arr body)) (buf_off body) (buf_len body).

Definition recv (W : world) (sc : serverConn) (m : msg)
  : result (option Error * world * serverConn * msg) :=
  match conn sc, rw sc with
  | None, _ => Panic "nil pointer dereference"
  | Some _, None => Panic "nil pointer dereference"
  | Some c, Some _ =>
    let '(err, got, c) := ReadFull 24 c in
    (* the bytes read overwrite the beginning of the 24-byte array *)
    let sc := set_conn (set_hdrBuf sc (take 24 (got ++ drop (length got) (hdrBuf sc)))) c in
    match err with
    | Some e => Ret (net_error e, W, sc, m)
    | None =>
      let m := set_hdr m (parse_header (hdrBuf sc)) in
      '(body, P) ← getBodyBuffer (to_int (BodyLen (hdr m))) (arena W);
      (* defer putBodyBuffer(body) *)
      let '(err, got, c) := ReadFull (buf_len body) c in
      let body := fill body got in
      let sc := set_conn sc c in
      match err with
      | Some e => Ret (net_error e, set_arena W (putBodyBuffer body P), sc, m)
      | None =>
        '(err, d, m) ← decode_body (elems (arrays W) (oextras m)) body m (dests W);
        Ret (err, set_arena (set_dests W d) (putBodyBuffer body P), sc, m)
      end
    end
  end.

(** ** The exchange *)

Definition resetConn (err : Error) (sc : serverConn) : serverConn :=
  if Status err =? StatusNetworkError then close_conn sc else sc.

Definition sendRecv (W : world) (sc : serverConn) (m : msg)
  : result (option Error * world * serverConn * msg) :=
  '(err, sc, m) ← send W sc m;
  match err with
  | Some e => Ret (Some e, W, resetConn e sc, m)
  | None =>
    '(err, W, sc, m) ← recv W sc m;
    match err with
    | Some e => Ret (Some e, W, resetConn e sc, m)
    | None => Ret (None, W, sc, m)
    end
  end.

(** The [for] loop of [sendRecvStats].  The loop of the source has no
    bound: it goes on for as long as the peer sends entries.  [None]: more
    than [fuel] rounds. *)
Fixpoint recv_stats (fuel : nat) (W : world) (sc : serverConn) (m : msg)
  (stats : gmap string string)
  : option (result (gmap string string * option Error * world * serverConn * msg)) :=
  match fuel with
  | O => None
  | S fuel =>
    match recv W sc m with
    | Panic w => Some (Panic w)
    | Ret (err, W, sc, m) =>
      match err with
      | Some e => Some (Ret (stats, Some e, W, resetConn e sc, m))
      | None =>
        if KeyLen (hdr m) =? 0 then Some (Ret (stats, None, W, sc, m))
        else recv_stats fuel W sc m (<[key m := val m]> stats)
      end
    end
  end.

(** The rounds the loop is given.  The transport of this model is a finite
    transcript, the bytes the peer delivers before the stream ends or a read
    times out, and every round that goes on takes a header off it: on a
    transcript of this length the loop needs no more rounds than this.  The
    number is the model's, not the code's: a peer that keeps sending entries
    within every deadline keeps the loop of the source running, and no such
    peer is a value of [netConn]. *)
Definition stats_fuel (sc : serverConn) : nat :=
  match conn sc with
  | Some c => S (length (incoming c))
  | None => 1
  end.

(** [sendRecvStats]; the map is [None] (nil) when [send] failed. *)
Definition sendRecvStats (W : world) (sc : serverConn) (m : msg)
  : option (result (option (gmap string string) * option Error * world * serverConn * msg)) :=
  match send W sc m with
  | Panic w => Some (Panic w)
  | Ret (Some e, sc, m) => Some (Ret (None, Some e, W, resetConn e sc, m))
  | Ret (None, sc, m) =>
    match recv_stats (stats_fuel sc) W sc m ∅ with
    | None => None
    | Some (Panic w) => Some (Panic w)
    | Some (Ret (stats, err, W, sc, m)) => Some (Ret (Some stats, err, W, sc, m))
    end
  end.

(** ** Connecting and authenticating *)

Definition authList (W : world) (sc : serverConn)
  : result (string * option Error * world * serverConn) :=
  let m := set_hdr zero_msg (mkHeader 0 opAuthList 0 0 0 0 0 0 0) in
  '(err, W, sc, m) ← sendRecv W sc m;
  Ret (val m, err, W, sc).

Definition authPlain (W : world) (sc : serverConn)
  : result (option Error * world * serverConn) :=
  let m := mkMsg (mkHeader 0 opAuthStart 0 0 0 0 0 0 0) nil_slice nil_slice
             "PLAIN"
             (String Ascii.zero (username sc +:+ String Ascii.zero (password sc))) in
  '(err, W, sc, _) ← sendRecv W sc m;
  Ret (err, W, sc).

(** [strings.Contains(s, sub)] *)
Fixpoint contains (sub s : string) : bool :=
  String.prefix sub s ||
  match s with
  | EmptyString => false
  | String _ s' => contains sub s'
  end.

Definition auth (W : world) (sc : serverConn)
  : result (option Error * world * serverConn) :=
  if (String.length (username sc) =? 0)%nat && (String.length (password sc) =? 0)%nat
  then Ret (None, W, sc)
  else
    '(s, err, W, sc) ← authList W sc;
    match err with
    | Some e => Ret (Some e, W, sc)
    | None =>
      if contains "PLAIN" s then authPlain W sc
      else Ret (Some (mkError StatusAuthUnknown ("mc: unknown auth types " +:+ s) None),
                W, sc)
    end.

(** What [net.DialTimeout] answers. *)
Inductive dialed : Type :=
  | DialError (e : string)
  | Dialed (c : netConn).

Definition connect (d : dialed) (W : world) (sc : serverConn)
  : result (option Error * world * serverConn) :=
  match d with
  | DialError e => Ret (net_error e, W, sc)
  | Dialed c =>
    let sc := set_conn sc c in
    if String.eqb (scheme sc) "tcp" && negb (isTCP c) then
      Ret (Some (mkError StatusNetworkError "Cannot convert into TCP connection" None),
           W, sc)
    else
      let sc := set_rw sc new_bufrw in
      '(err, W, sc) ← auth W sc;
      match err with
      | Some e =>
        if negb (Status e =? StatusUnknownCommand)
        then Ret (Some e, W, close_conn sc)
        else Ret (None, W, sc)
      | None => Ret (None, W, sc)
      end
  end.

Definition perform (d : dialed) (W : world) (sc : serverConn) (m : msg)
  : result (option Error * world * serverConn * msg) :=
  match conn sc with
  | None =>
    '(err, W, sc) ← connect d W sc;
    match err with
    | Some e => Ret (Some e, W, sc, m)
    | None => sendRecv W sc m
    end
  | Some _ => sendRecv W sc m
  end.

Definition performStats (d : dialed) (W : world) (sc : serverConn) (m : msg)
  : option (result (option (gmap string string) * option Error * world * serverConn * msg)) :=
  match conn sc with
  | None =>
    match connect d W sc with
    | Panic w => Some (Panic w)
    | Ret (Some e, W, sc) => Some (Ret (None, Some e, W, sc, m))
    | Ret (None, W, sc) => sendRecvStats W sc m
    end
  | Some _ => sendRecvStats W sc m
  end.

End Exchange.

(** ** Request snapshot: [backupMsg] and [restoreMsg]

    Both take two distinct [*msg]; the message written to is returned with
    the new store.  The slices of the two messages may share backing
    arrays. *)

(** [if cap(dst) >= n { dst = dst[:n] } else { dst = make([]interface{}, n) }] *)
Definition resize (σ : store) (dst : slice) (n : nat) : result (store * slice) :=
  if (n <=? sl_cap dst)%nat then s ← reslice dst n; Ret (σ, s)
  else Ret (make_slice σ n).

Definition backupMsg (σ : store) (m backupMsg : msg) : result (store * msg) :=
  let k := key m in
  let v := val m in
  let h := hdr m in
  '(σ, bi) ← resize σ (iextras backupMsg) (sl_len (iextras m));
  let σ := copy_slice σ bi (iextras m) in
  '(σ, bo) ← resize σ (oextras backupMsg) (sl_len (oextras m));
  let σ := copy_slice σ bo (oextras m) in
  Ret (σ, mkMsg h bi bo k v).

Definition restoreMsg (σ : store) (m backupMsg : msg) : result (store * msg) :=
  let k := key backupMsg in
  let v := val backupMsg in
  let h := hdr backupMsg in
  '(σ, mi) ← resize σ (iextras m) (sl_len (iextras backupMsg));
  let σ := copy_slice σ mi (iextras backupMsg) in
  '(σ, mo) ← resize σ (oextras m) (sl_len (oextras backupMsg));
  let σ := copy_slice σ mo (oextras backupMsg) in
  Ret (σ, mkMsg h mi mo k v).

(** [sc.backup(m)] and [sc.restore(m)] *)
Definition backup (W : world) (sc : serverConn) (m : msg) : result (world * serverConn) :=
  '(σ, b) ← backupMsg (arrays W) m (sc_backupMsg sc);
  Ret (set_arrays W σ, set_backupMsg sc b).

Definition restore (W : world) (sc : serverConn) (m : msg) : result (world * msg) :=
  '(σ, m') ← restoreMsg (arrays W) m (sc_backupMsg sc);
  Ret (set_arrays W σ, m').

(** The pair as it was before the optimisation: the header is copied field
    by field, and each extras slice is reset to nil and rebuilt with
    [append]. *)
Module Original.
Section Grow.
Variable grow : nat → nat.

(** [for _, v := range src { dst = append(dst, v) }], from index [i], with
    [n] elements to go. *)
Fixpoint append_range (σ : store) (src : slice) (i n : nat) (dst : slice)
  : store * slice :=
  match n with
  | O => (σ, dst)
  | S n' =>
    let v := default INil (elems σ src !! i) in
    let '(σ', dst') := append_slice grow σ dst v in
    append_range σ' src (S i) n' dst'
  end.

Definition backupMsg (σ : store) (m backupMsg : msg) : store * msg :=
  let k := key m in
  let v := val m in
  let h := mkHeader (Magic (hdr m)) (Op (hdr m)) (KeyLen (hdr m))
             (ExtraLen (hdr m)) (DataType (hdr m)) (ResvOrStatus (hdr m))
             (BodyLen (hdr m)) (Opaque (hdr m)) (CAS (hdr m)) in
  let '(σ, bi) := append_range σ (iextras m) 0 (sl_len (iextras m)) nil_slice in
  let '(σ, bo) := append_range σ (oextras m) 0 (sl_len (oextras m)) nil_slice in
  (σ, mkMsg h bi bo k v).

Definition restoreMsg (σ : store) (m backupMsg : msg) : store * msg :=
  let k := key backupMsg in
  let v := val backupMsg in
  let h := mkHeader (Magic (hdr backupMsg)) (Op (hdr backupMsg))
             (KeyLen (hdr backupMsg)) (ExtraLen (hdr backupMsg))
             (DataType (hdr backupMsg)) (ResvOrStatus (hdr backupMsg))
             (BodyLen (hdr backupMsg)) (Opaque (hdr backupMsg))
             (CAS (hdr backupMsg)) in
  let '(σ, mi) :=
    append_range σ (iextras backupMsg) 0 (sl_len (iextras backupMsg)) nil_slice in
  let '(σ, mo) :=
    append_range σ (oextras backupMsg) 0 (sl_len (oextras backupMsg)) nil_slice in
  (σ, mkMsg h mi mo k v).

End Grow.
End Original.

(** ** Vocabulary of the statements *)

(** The request extras [send] accepts, their widths and wire bytes. *)
Definition supported (e : iface) : bool :=
  match e with
  | U8 _ | U16 _ | U32 _ | U64 _ => true
  | _ => false
  end.

Definition extra_width (e : iface) : Z :=
  match e with
  | U8 _ | PU8 _ | NilPU8 => 1
  | U16 _ | PU16 _ | NilPU16 => 2
  | U32 _ | PU32 _ | NilPU32 => 4
  | U64 _ | PU64 _ | NilPU64 => 8
  | _ => 0
  end.

Definition extras_width (extras : list iface) : Z :=
  foldr (fun e acc => extra_width e + acc) 0 extras.

Definition extra_value (e : iface) : Z :=
  match e with
  | U8 v | U16 v | U32 v | U64 v => v
  | _ => 0
  end.

(** The value fits the unsigned type that carries it. *)
Definition in_range (e : iface) : Prop :=
  0 <= extra_value e < 256 ^ extra_width e.

Definition enc_extra (e : iface) : list byte :=
  match e with
  | U8 v => [byte_of_Z v]
  | U16 v => PutUint16 v
  | U32 v => PutUint32 v
  | U64 v => PutUint64 v
  | _ => []
  end.

Definition enc_extras (extras : list iface) : list byte :=
  concat (map enc_extra extras).

(** The response destination for a request extra: a pointer of the same
    width. *)
Definition dest_for (e : iface) (l : loc) : iface :=
  match e with
  | U8 _ => PU8 l
  | U16 _ => PU16 l
  | U32 _ => PU32 l
  | U64 _ => PU64 l
  | other => other
  end.

Definition is_dest (e : iface) : bool :=
  match e with
  | PU8 _ | PU16 _ | PU32 _ | PU64 _ => true
  | _ => false
  end.

(** A connection that is up and takes writes. *)
Definition healthy (c : netConn) (w : bufrw) : Prop :=
  write_error c = None ∧ werr w = None.

(** [wrote p c w c' w']: on a healthy connection the bytes [p] were appended
    to the stream (written or pending) and nothing else changed. *)
Definition wrote (p : list byte) (c : netConn) (w : bufrw) (c' : netConn) (w' : bufrw) : Prop :=
  healthy c' w' ∧ incoming c' = incoming c ∧ isTCP c' = isTCP c ∧
  outgoing c' ++ pending w' = (outgoing c ++ pending w) ++ p.

(** The slice lies within its backing array. *)
Definition wf_buf (b : bytebuf) : Prop :=
  (buf_off b + buf_len b ≤ length (buf_arr b))%nat.

(** A nil pointer of one of the four destination types. *)
Definition is_nil_dest (e : iface) : bool :=
  match e with
  | NilPU8 | NilPU16 | NilPU32 | NilPU64 => true
  | _ => false
  end.

(** No destination of the list is a nil pointer. *)
Definition no_nil_dests (oex : list iface) : Prop :=
  forallb (fun e => negb (is_nil_dest e)) oex = true.

Definition dest_loc (e : iface) : option loc :=
  match e with
  | PU8 l | PU16 l | PU32 l | PU64 l => Some l
  | _ => None
  end.

(** The destinations after all of [oex] were filled from the bytes [bs]. *)
Fixpoint dests_after (bs : list byte) (oex : list iface) (d : gmap loc Z) : gmap loc Z :=
  match oex with
  | [] => d
  | e :: rest =>
    let w := Z.to_nat (extra_width e) in
    match dest_loc e with
    | Some l => dests_after (drop w bs) rest (<[l := be_value (take w bs)]> d)
    | None => d
    end
  end.

(** The connection after a frame was consumed. *)
Definition consumed (sc : serverConn) (c : netConn) (hb rest : list byte) : serverConn :=
  set_conn (set_hdrBuf sc hb) (mkNetConn rest (outgoing c) (write_error c) (isTCP c)).

Section Frame.
Context `{Protocol}.

(** The frame [send] puts on the wire for [m]. *)
Definition frame (m : msg) (extras : list iface) (o : Z) : list byte :=
  encode_header (send_header m (uint8 (extras_width extras)) o) ++
  enc_extras extras ++ bytes_of (key m) ++ bytes_of (val m).

End Frame.

(** A response as the server frames it: 24 header bytes, then extras, key
    and value. *)
Record response : Type := mkResponse {
  r_magic : Z;
  r_op : Z;
  r_status : Z;
  r_opaque : Z;
  r_cas : Z;
  r_extras : list byte;
  r_key : string;
  r_val : string
}.

Definition r_body (r : response) : list byte :=
  r_extras r ++ bytes_of (r_key r) ++ bytes_of (r_val r).

Definition r_header (r : response) : header :=
  mkHeader (r_magic r) (r_op r) (Z.of_nat (String.length (r_key r)))
    (Z.of_nat (length (r_extras r))) 0 (r_status r)
    (Z.of_nat (length (r_body r))) (r_opaque r) (r_cas r).

Definition r_frame (r : response) : list byte :=
  encode_header (r_header r) ++ r_body r.

Definition frames (rs : list response) : list byte := concat (r_frame <$> rs).

(** The lengths fit their header fields. *)
Definition r_fits (r : response) : Prop :=
  0 <= r_status r < 2 ^ 16 ∧
  Z.of_nat (String.length (r_key r)) < 2 ^ 16 ∧
  Z.of_nat (length (r_extras r)) < 2 ^ 8 ∧
  Z.of_nat (length (r_body r)) < 2 ^ 32.

(** The destinations [oex] can take the extras of the response: there are
    none to take, or the destinations are pointers to unsigned integers whose
    widths fit in the extras segment. *)
Definition accepts (oex : list iface) (r : response) : Prop :=
  r_extras r = [] ∨
  (forallb is_dest oex = true ∧ extras_width oex <= Z.of_nat (length (r_extras r))).

(** A successful response that [recv] decodes into [oex]. *)
Definition stat_ok (oex : list iface) (r : response) : Prop :=
  r_fits r ∧ r_status r = 0 ∧ accepts oex r.

(** The map [sendRecvStats] builds from the responses [rs], in order. *)
Definition stats_of (rs : list response) : gmap string string :=
  foldl (fun s r => <[r_key r := r_val r]> s) ∅ rs.

(** The protocol tables of the memcached binary protocol, as an instance to
    run the exchange on concrete inputs: statuses the table knows are
    reported as they are, any other as an unknown error. *)
Definition known_status (s : Z) : bool :=
  existsb (Z.eqb s) [1; 2; 3; 4; 5; 6; 32; 33; 129; 130].

Definition memcached : Protocol := {|
  magicSend := 128;
  opAuthList := 32;
  opAuthStart := 33;
  StatusNetworkError := 65527;
  StatusUnknownCommand := 129;
  StatusAuthUnknown := 65535;
  newError s :=
    if s =? 0 then None
    else if known_status s then Some (mkError s "mc: server error" None)
    else Some (mkError 65535 "mc: unknown error from server" None);
  wrapError s e := mkError s e (Some e)
|}.

(** A body of [n] bytes under the header [h] is too short for the
    destinations [oex] or for the key: with status 0 and extras announced,
    the body or the extras segment is shorter than the widths the
    destinations need together, or shorter than the extras segment itself;
    or fewer than [KeyLen] bytes follow the extras segment. *)
Definition truncated (h : header) (oex : list iface) (n : Z) : Prop :=
  (ResvOrStatus h = 0 ∧ 0 < ExtraLen h ∧
   (n < extras_width oex ∨ ExtraLen h < extras_width oex ∨ n < ExtraLen h)) ∨
  n - (if (ResvOrStatus h =? 0) && (0 <? ExtraLen h) then ExtraLen h else 0)
    < KeyLen h.

(** Two slices that share no backing array. *)
Definition sep (s t : slice) : Prop :=
  ∀ a, sl_arr s = Some a → sl_arr t ≠ Some a.

(** The snapshot slot [b] is the connection's own: its slices are well
    formed and share no backing array with each other or with the message.
    ([backupMsg] is the only writer of the slot, and the arrays it gives the
    slot come from [make].) *)
Definition slot_private (σ : store) (m b : msg) : Prop :=
  wf_slice σ (iextras b) ∧ wf_slice σ (oextras b) ∧
  sep (iextras b) (oextras b) ∧
  sep (iextras b) (iextras m) ∧ sep (iextras b) (oextras m) ∧
  sep (oextras b) (iextras m) ∧ sep (oextras b) (oextras m).

(** A message whose slice headers the runtime can have produced. *)
Definition wf_msg (σ : store) (m : msg) : Prop :=
  wf_slice σ (iextras m) ∧ wf_slice σ (oextras m).

(** What a receive does to a message: header, key and value are replaced,
    the two extras slices stay. *)
Definition received (m : msg) (h : header) (k v : string) : msg :=
  mkMsg h (iextras m) (oextras m) k v.


(** Two messages, each in its store, hold the same header, key, value and
    extras contents. *)
Definition same_contents (σ1 : store) (x : msg) (σ2 : store) (y : msg) : Prop :=
  hdr x = hdr y ∧ key x = key y ∧ val x = val y ∧
  elems σ1 (iextras x) = elems σ2 (iextras y) ∧
  elems σ1 (oextras x) = elems σ2 (oextras y).

(** A slice whose array was allocated after the store [σ0] was taken. *)
Definition newer (σ0 : store) (s : slice) : Prop :=
  ∀ a, sl_arr s = Some a → (length σ0 ≤ a)%nat.

(** ** Sample inputs

    Concrete connections and messages on which the statements are run. *)

(** A connection that is up, with [bs] still to be received. *)
Definition conn_with (bs : list byte) : netConn := mkNetConn bs [] None true.

Definition sc_with (bs : list byte) : serverConn :=
  mkServerConn "tcp" "" "" (Some (conn_with bs)) (Some new_bufrw) 0 zero_msg
    (replicate 24 x00) 0.

(** A connection whose peer has gone away: writes fail. *)
Definition sc_broken : serverConn :=
  mkServerConn "tcp" "" "" (Some (mkNetConn [] [] (Some "broken pipe") true))
    (Some new_bufrw) 0 zero_msg (replicate 24 x00) 0.

(** [set] with flags and expiry, and the destinations of a reply of the same
    shape: arrays 0 and 1 of the store. *)
Definition set_world : world :=
  mkWorld [[U32 3735928559; U32 3600]; [PU32 0%nat; PU32 1%nat]] ∅ no_pools.

Definition set_msg : msg :=
  mkMsg (mkHeader 0 1 0 0 0 0 0 0 0) (mkSlice (Some 0%nat) 0 2 2)
    (mkSlice (Some 1%nat) 0 2 2) "foo" "bar".

(** Thirty-two 64-bit extras: 256 bytes, one more than the extras length
    field can say. *)
Definition wide_world : world :=
  mkWorld [replicate 32 (U64 1); PU64 <$> seq 0 32] ∅ no_pools.

Definition wide_msg : msg :=
  mkMsg (mkHeader 0 1 0 0 0 0 0 0 0) (mkSlice (Some 0%nat) 0 32 32)
    (mkSlice (Some 1%nat) 0 32 32) "k" "v".

(** A request that still carries the status of an earlier response. *)
Definition stale_world : world :=
  mkWorld [[U8 7]; [PU8 0%nat]] ∅ no_pools.

Definition stale_msg : msg :=
  mkMsg (mkHeader 0 1 0 0 0 1 0 0 0) (mkSlice (Some 0%nat) 0 1 1)
    (mkSlice (Some 1%nat) 0 1 1) "k" "v".

(** An extras list with a string in it. *)
Definition odd_world : world :=
  mkWorld [[U8 1; Other "string"]] ∅ no_pools.

Definition odd_msg : msg :=
  mkMsg zero_header (mkSlice (Some 0%nat) 0 2 2) nil_slice "k" "v".

(** The bytes on the wire after a call of [send]. *)
Definition sent_by (r : result (option Error * serverConn * msg)) : list byte :=
  match r with
  | Ret (_, sc, _) =>
    match conn sc with
    | Some c => outgoing c
    | None => []
    end
  | Panic _ => []
  end.

(** A response header that announces four bytes of extras and a key of three
    bytes, followed by a body of two bytes only. *)
Definition short_header : list byte :=
  encode_header (mkHeader 129 0 3 4 0 0 2 0 0).

Definition short_frame : list byte := short_header ++ [x01; x02].

(** A "key not found" response: status 1 and an empty body. *)
Definition not_found : response := mkResponse 129 0 1 0 0 [] "" "".

(** Three statistics and the terminating response. *)
Definition stat_pid : response := mkResponse 129 16 0 0 0 [] "pid" "4242".
Definition stat_uptime : response := mkResponse 129 16 0 0 0 [] "uptime" "17".
Definition stat_end : response := mkResponse 129 16 0 0 0 [] "" "".

(** A connection with credentials, freshly dialled, and three answers to
    its first authentication request: unknown command (status 0x81), an
    authentication error (status 0x20), and a mechanism list without
    PLAIN. *)
Definition sc_user : serverConn := newServerConn "tcp" "user" "secret".

Definition no_auth : response := mkResponse 129 32 129 0 0 [] "" "".
Definition auth_denied : response := mkResponse 129 32 32 0 0 [] "" "".
Definition auth_cram : response := mkResponse 129 32 0 0 0 [] "" "CRAM-MD5".

Definition stat_msg : msg :=
  mkMsg (mkHeader 0 16 0 0 0 0 0 0 0) nil_slice nil_slice "" "".

(** A request whose snapshot slot has one array behind both of its slices,
    and a slot to restore from into a message built the same way. *)
Definition shared_store : store := [[U8 1]; [PU8 0%nat]; [INil]].

Definition plain_msg : msg :=
  mkMsg (mkHeader 128 1 0 0 0 0 0 7 0) (mkSlice (Some 0%nat) 0 1 1)
    (mkSlice (Some 1%nat) 0 1 1) "k" "v".

Definition shared_msg : msg :=
  mkMsg zero_header (mkSlice (Some 2%nat) 0 1 1) (mkSlice (Some 2%nat) 0 1 1) "" "".


Definition double (c : nat) : nat := (2 * c)%nat.

(** ** Closing down: [quit] *)

Section Quit.
Context `{Protocol}.

(** [quit]: the result of [sendRecv] is dropped; the connection, if it is
    still there afterwards, is closed. *)
Definition quit (W : world) (sc : serverConn) (m : msg)
  : result (world * serverConn * msg) :=
  match conn sc with
  | Some _ =>
    '(_, W, sc, m) ← sendRecv W sc m;
    Ret (W, close_conn sc, m)
  | None => Ret (W, sc, m)
  end.

End Quit.

(** ** Vocabulary of the further statements *)

(** What a write step of [send] does on a connection that rejects writes
    with the error [e]: it fails with that error, or it leaves a buffer
    that still holds what it held. *)
Definition broken_step (e : string) (k : wstep) : Prop :=
  ∀ c w, write_error c = Some e → werr w = None → pending w ≠ [] →
    (∃ w', k c w = Ret (Some e, c, w')) ∨
    (∃ w', k c w = Ret (None, c, w') ∧ werr w' = None ∧ pending w' ≠ []).

(** A step that always fails there. *)
Definition failing_step (e : string) (k : wstep) : Prop :=
  ∀ c w, write_error c = Some e → werr w = None → pending w ≠ [] →
    ∃ w', k c w = Ret (Some e, c, w').

(** Every field of the header fits its wire width. *)
Definition header_in_range (h : header) : Prop :=
  0 <= Magic h < 2 ^ 8 ∧ 0 <= Op h < 2 ^ 8 ∧ 0 <= KeyLen h < 2 ^ 16 ∧
  0 <= ExtraLen h < 2 ^ 8 ∧ 0 <= DataType h < 2 ^ 8 ∧
  0 <= ResvOrStatus h < 2 ^ 16 ∧ 0 <= BodyLen h < 2 ^ 32 ∧
  0 <= Opaque h < 2 ^ 32 ∧ 0 <= CAS h < 2 ^ 64.

(** The states of the connection: up ([conn] and [rw] both set), or down
    (both nil). *)
Definition connected (sc : serverConn) : Prop :=
  is_Some (conn sc) ∧ is_Some (rw sc).

Definition disconnected (sc : serverConn) : Prop :=
  conn sc = None ∧ rw sc = None.

Definition consistent (sc : serverConn) : Prop :=
  disconnected sc ∨ connected sc.

(** The configuration of the connection is that of [sc]. *)
Definition same_config (sc sc' : serverConn) : Prop :=
  scheme sc' = scheme sc ∧ username sc' = username sc ∧ password sc' = password sc.

(** A call left the connection up with nothing closed, or tore it down,
    closing the socket once. *)
Definition up_or_torn (sc sc' : serverConn) : Prop :=
  (connected sc' ∧ closes sc' = closes sc) ∨
  (disconnected sc' ∧ closes sc' = S (closes sc)).

(** The dialler answers the scheme: under ["tcp"] a connection it hands out
    is a [*net.TCPConn]. *)
Definition dials_tcp (sc : serverConn) (d : dialed) : Prop :=
  match d with
  | DialError _ => True
  | Dialed c => String.eqb (scheme sc) "tcp" && negb (isTCP c) = false
  end.

(** The header [recv] leaves in the message after the response [r]. *)
Definition r_parsed (r : response) : header :=
  mkHeader (uint8 (r_magic r)) (uint8 (r_op r))
    (Z.of_nat (String.length (r_key r))) (Z.of_nat (length (r_extras r)))
    0 (r_status r) (Z.of_nat (length (r_body r))) (uint32 (r_opaque r))
    (uint64 (r_cas r)).

(** The variables the destinations [oex] point to. *)
Definition dest_locs (oex : list iface) : list loc := omap dest_loc oex.

(** The number of buffers in each pool. *)
Definition pooled (P : pools) : nat * nat * nat :=
  (length (smallBodyPool P), length (mediumBodyPool P), length (largeBodyPool P)).

(** One pool before and after a call that takes a buffer and gives it
    back: nothing is lost, and at most the buffer [New] made is gained. *)
Definition kept (before after : nat) : Prop :=
  (before ≤ after ∧ after ≤ Nat.max 1 before)%nat.

Section Requests.
Context `{Protocol}.

(** The two requests of the authentication exchange. *)
Definition auth_list_msg : msg :=
  mkMsg (mkHeader 0 opAuthList 0 0 0 0 0 0 0) nil_slice nil_slice "" "".

Definition auth_plain_msg (user pass : string) : msg :=
  mkMsg (mkHeader 0 opAuthStart 0 0 0 0 0 0 0) nil_slice nil_slice "PLAIN"
    (String Ascii.zero (user +:+ String Ascii.zero pass)).

End Requests.

(** ** Further sample inputs *)

(** A response to a [get]: flags in the extras, the value, a CAS. *)
Definition got_world : world :=
  mkWorld [[]; [PU32 0%nat]] ∅ no_pools.

Definition got_msg : msg :=
  mkMsg (mkHeader 0 0 0 0 0 0 0 0 0) nil_slice (mkSlice (Some 1%nat) 0 1 1) "foo" "".

Definition got_response : response :=
  mkResponse 129 0 0 123 999 [xca; xfe; xba; xbe] "foo" "world".

(** The same request with a nil [*uint32] before the destination, and a
    response that carries the flags and nothing else. *)
Definition nil_world : world :=
  mkWorld [[]; [NilPU32; PU32 0%nat]] ∅ no_pools.

Definition nil_msg : msg :=
  mkMsg (mkHeader 0 0 0 0 0 0 0 0 0) nil_slice (mkSlice (Some 1%nat) 0 2 2) "foo" "".

Definition flags_only : response :=
  mkResponse 129 0 0 0 0 [xca; xfe; xba; xbe] "" "".

(** A connection that is not a TCP connection. *)
Definition unix_conn : netConn := mkNetConn [] [] None false.

(** A server that offers PLAIN and accepts the credentials. *)
Definition auth_mechs : response := mkResponse 129 32 0 0 0 [] "" "CRAM-MD5 PLAIN".
Definition auth_done : response := mkResponse 129 33 0 1 0 [] "" "Authenticated".

(** A stored value. *)
Definition stored : response := mkResponse 129 1 0 0 77 [] "" "".

(** A write step leaves the receiving side of the connection alone. *)
Definition keeps_incoming (k : wstep) : Prop :=
  ∀ c w e c' w', k c w = Ret (e, c', w') → incoming c' = incoming c.

(** The sockets the connection holds (one when [conn] is set), and the
    sockets a call of [perform] or [performStats] obtains from the dialler
    (one when the connection is down and the dial succeeds). *)
Definition held (sc : serverConn) : nat :=
  match conn sc with
  | Some _ => 1
  | None => 0
  end.

Definition dialled (sc : serverConn) (d : dialed) : nat :=
  match conn sc, d with
  | None, Dialed _ => 1
  | _, _ => 0
  end.

(** * Proofs *)

(** ** Bytes and big-endian integers *)

Lemma Z_of_byte_range b : 0 <= Z_of_byte b < 256.
Proof.
  unfold Z_of_byte. pose proof (Byte.to_N_bounded b) as Hb.
  split; lia.
Qed.

Lemma Z_of_byte_of_Z z : Z_of_byte (byte_of_Z z) = z mod 256.
Proof.
  unfold Z_of_byte, byte_of_Z.
  assert (0 <= z mod 256 < 256) as Hr by (apply Z.mod_pos_bound; lia).
  destruct (Byte.of_N (Z.to_N (z mod 256))) as [b|] eqn:E.
  - apply Byte.to_of_N in E. rewrite E. lia.
  - apply Byte.of_N_None_iff in E. lia.
Qed.

Lemma byte_of_Z_of_byte b : byte_of_Z (Z_of_byte b) = b.
Proof.
  unfold byte_of_Z. pose proof (Z_of_byte_range b) as Hr.
  rewrite Z.mod_small by lia. unfold Z_of_byte. rewrite N2Z.id.
  by rewrite Byte.of_to_N.
Qed.

Lemma uint_small k z : 0 <= z < 2 ^ k → z mod 2 ^ k = z.
Proof. apply Z.mod_small. Qed.

Lemma length_be_bytes n v : length (be_bytes n v) = n.
Proof. induction n; simpl; congruence. Qed.

Lemma be_value_acc_app acc l1 l2 :
  be_value_acc acc (l1 ++ l2) = be_value_acc (be_value_acc acc l1) l2.
Proof. revert acc. induction l1; intros; simpl; auto. Qed.

Lemma be_value_acc_be_bytes n v acc :
  be_value_acc acc (be_bytes n v) = acc * 256 ^ Z.of_nat n + v mod 256 ^ Z.of_nat n.
Proof.
  revert acc. induction n as [|k IH]; intros acc.
  - simpl. rewrite Z.mod_1_r. lia.
  - cbn [be_bytes be_value_acc]. rewrite IH, Z_of_byte_of_Z.
    replace (Z.of_nat (S k)) with (Z.of_nat k + 1) by lia.
    rewrite Z.pow_add_r by lia. change (256 ^ 1) with 256.
    assert (0 < 256 ^ Z.of_nat k) as Hp by (apply Z.pow_pos_nonneg; lia).
    rewrite (Z.rem_mul_r v (256 ^ Z.of_nat k) 256) by lia.
    lia.
Qed.

(** Decoding what was encoded gives the value back, modulo the width. *)
Lemma be_value_be_bytes n v : be_value (be_bytes n v) = v mod 256 ^ Z.of_nat n.
Proof. unfold be_value. rewrite be_value_acc_be_bytes. lia. Qed.

Lemma be_value_single b : be_value [b] = Z_of_byte b.
Proof. reflexivity. Qed.

(** ** Strings on the wire *)

Lemma bytes_of_String a s :
  bytes_of (String a s) = Ascii.byte_of_ascii a :: bytes_of s.
Proof. reflexivity. Qed.

Lemma length_bytes_of s : length (bytes_of s) = String.length s.
Proof.
  induction s as [|a s IH]; [done|].
  rewrite bytes_of_String. simpl. by rewrite IH.
Qed.

Lemma string_of_bytes_of s : String.string_of_list_byte (bytes_of s) = s.
Proof. apply String.string_of_list_byte_of_string. Qed.

(** ** Byte slices *)

Lemma length_buf_bytes b :
  len b <= cap b → length (buf_bytes b) = buf_len b.
Proof.
  unfold len, cap, buf_bytes. intros Hl.
  rewrite length_take, length_drop. lia.
Qed.

Lemma cap_make_bytes n : 0 <= n → cap (make_bytes n) = n.
Proof. intros Hn. unfold cap, make_bytes; simpl. rewrite length_replicate. lia. Qed.

Lemma len_make_bytes n : 0 <= n → len (make_bytes n) = n.
Proof. intros Hn. unfold len, make_bytes; simpl. lia. Qed.

Lemma cap_full b : cap (full b) = cap b.
Proof. reflexivity. Qed.

Lemma sub_ok b lo hi :
  0 <= lo → lo <= hi → hi <= cap b →
  sub b lo hi = Ret (mkBuf (buf_arr b) (buf_off b + Z.to_nat lo) (Z.to_nat (hi - lo))).
Proof.
  intros H0 H1 H2. unfold sub.
  destruct (Z.leb_spec 0 lo); [|lia]. destruct (Z.leb_spec lo hi); [|lia].
  destruct (Z.leb_spec hi (cap b)); [|lia]. done.
Qed.

Lemma slice_to_ok b n :
  0 <= n → n <= cap b →
  slice_to b n = Ret (mkBuf (buf_arr b) (buf_off b + 0) (Z.to_nat n)).
Proof.
  intros H0 H1. unfold slice_to. rewrite sub_ok by lia.
  by rewrite Z.sub_0_r.
Qed.

(** ** The buffer arena *)

Lemma pool_get_cap c p b p' :
  0 <= c → pool_ok c p → pool_get c p = (b, p') → cap b = c ∧ pool_ok c p'.
Proof.
  intros Hc Hp. destruct p as [|b0 p0]; simpl; intros [= <- <-].
  - split; [by apply cap_make_bytes | constructor].
  - by inversion Hp.
Qed.

Lemma pools_ok_empty : pools_ok no_pools.
Proof. repeat split; constructor. Qed.

(** Acquiring from valid pools returns a buffer of the requested length and
    leaves valid pools. *)
Ltac pool_class E :=
  apply pool_get_cap in E as [? ?]; [|lia|done];
  rewrite slice_to_ok by lia; simpl; eexists _, _; split; [done|];
  unfold len, cap in *; simpl; repeat split; try done; lia.

Lemma getBodyBuffer_ok P s :
  pools_ok P → 0 <= s →
  ∃ b P', getBodyBuffer s P = Ret (b, P') ∧ len b = s ∧ len b <= cap b ∧ pools_ok P'.
Proof.
  intros (Hs & Hm & Hl) H0. unfold getBodyBuffer.
  destruct (Z.leb_spec s 256).
  { destruct (pool_get 256 (smallBodyPool P)) as [b p] eqn:E. pool_class E. }
  destruct (Z.leb_spec s 4096).
  { destruct (pool_get 4096 (mediumBodyPool P)) as [b p] eqn:E. pool_class E. }
  destruct (Z.leb_spec s 65536).
  { destruct (pool_get 65536 (largeBodyPool P)) as [b p] eqn:E. pool_class E. }
  eexists _, _. split; [done|].
  rewrite len_make_bytes, cap_make_bytes by lia. repeat split; try done; lia.
Qed.

(** Releasing keeps the pools valid, whatever the buffer. *)
Lemma putBodyBuffer_ok P b : pools_ok P → pools_ok (putBodyBuffer b P).
Proof.
  intros (Hs & Hm & Hl). unfold putBodyBuffer.
  destruct (Z.eqb_spec (cap b) 256);
    [repeat split; simpl; try done; constructor; done|].
  destruct (Z.eqb_spec (cap b) 4096);
    [repeat split; simpl; try done; constructor; done|].
  destruct (Z.eqb_spec (cap b) 65536);
    [repeat split; simpl; try done; constructor; done|].
  done.
Qed.

(** A released buffer whose capacity is a class size is the next one its
    class hands out. *)
Lemma getBodyBuffer_reuse P b s lo hi :
  (lo, hi) ∈ [(-1, 256); (256, 4096); (4096, 65536)] →
  cap b = hi → 0 <= s → lo < s → s <= hi →
  ∃ b', getBodyBuffer s (putBodyBuffer b P) = Ret (b', P) ∧
        buf_arr b' = buf_arr b ∧ len b' = s.
Proof.
  intros Hc Hb H0 Hlo Hhi.
  assert (slice_to (full b) s = Ret (mkBuf (buf_arr b) (buf_off b + 0) (Z.to_nat s)))
    as Hs by (rewrite slice_to_ok; [done | done | rewrite cap_full; lia]).
  destruct P as [ps pm pl].
  unfold getBodyBuffer, putBodyBuffer. rewrite Hb.
  set_unfold. destruct Hc as [[= -> ->]|[[= -> ->]|[[= -> ->]|[]]]];
    cbn [Z.eqb Pos.eqb smallBodyPool mediumBodyPool largeBodyPool pool_put pool_get].
  - destruct (Z.leb_spec s 256); [|lia].
    rewrite Hs. simpl. eexists; repeat split.
    unfold len; simpl; lia.
  - destruct (Z.leb_spec s 256); [lia|]. destruct (Z.leb_spec s 4096); [|lia].
    rewrite Hs. simpl. eexists; repeat split.
    unfold len; simpl; lia.
  - destruct (Z.leb_spec s 256); [lia|]. destruct (Z.leb_spec s 4096); [lia|].
    destruct (Z.leb_spec s 65536); [|lia].
    rewrite Hs. simpl. eexists; repeat split.
    unfold len; simpl; lia.
Qed.

(** ** C9 *)

(** C9. For every requested size [s] (a length, so [0 <= s]) and every state
    of the pools that [getBodyBuffer] and [putBodyBuffer] can have produced:
    acquire returns a buffer of length [s]; after releasing that buffer a
    second acquire of [s] again returns a buffer of length [s], hence never a
    smaller one; a buffer whose capacity is exactly 256, 4096 or 65536 is put
    at the head of the matching pool and is the buffer the next acquire of
    that class returns; a request above 65536 bytes is a fresh allocation
    that leaves the pools alone, and releasing a buffer of such a capacity
    changes nothing. *)
Theorem arena_acquire_release (P : pools) :
  pools_ok P →
  (∀ s, 0 <= s →
     ∃ b P1, getBodyBuffer s P = Ret (b, P1) ∧ len b = s ∧ pools_ok P1 ∧
       ∃ b2 P2, getBodyBuffer s (putBodyBuffer b P1) = Ret (b2, P2) ∧
                len b2 = s ∧ s <= cap b2 ∧ pools_ok P2) ∧
  (∀ b, cap b = 256 →
     putBodyBuffer b P =
       mkPools (full b :: smallBodyPool P) (mediumBodyPool P) (largeBodyPool P) ∧
     ∀ s, 0 <= s <= 256 →
       ∃ b', getBodyBuffer s (putBodyBuffer b P) = Ret (b', P) ∧
             buf_arr b' = buf_arr b ∧ len b' = s) ∧
  (∀ b, cap b = 4096 →
     putBodyBuffer b P =
       mkPools (smallBodyPool P) (full b :: mediumBodyPool P) (largeBodyPool P) ∧
     ∀ s, 256 < s <= 4096 →
       ∃ b', getBodyBuffer s (putBodyBuffer b P) = Ret (b', P) ∧
             buf_arr b' = buf_arr b ∧ len b' = s) ∧
  (∀ b, cap b = 65536 →
     putBodyBuffer b P =
       mkPools (smallBodyPool P) (mediumBodyPool P) (full b :: largeBodyPool P) ∧
     ∀ s, 4096 < s <= 65536 →
       ∃ b', getBodyBuffer s (putBodyBuffer b P) = Ret (b', P) ∧
             buf_arr b' = buf_arr b ∧ len b' = s) ∧
  (∀ s, 65536 < s → getBodyBuffer s P = Ret (make_bytes s, P)) ∧
  (∀ b, 65536 < cap b → putBodyBuffer b P = P).
Proof.
  intros HP. repeat apply conj.
  - intros s Hs.
    destruct (getBodyBuffer_ok P s HP Hs) as (b & P1 & Hg & Hl & Hc & HP1).
    exists b, P1. split_and!; try done.
    destruct (getBodyBuffer_ok (putBodyBuffer b P1) s) as (b2 & P2 & Hg2 & Hl2 & Hc2 & HP2);
      [by apply putBodyBuffer_ok|done|].
    exists b2, P2. split_and!; try done. lia.
  - intros b Hb. split.
    + unfold putBodyBuffer. by rewrite Hb.
    + intros s [Hs0 Hs1]. apply (getBodyBuffer_reuse P b s (-1) 256); [set_solver|lia..].
  - intros b Hb. split.
    + unfold putBodyBuffer. by rewrite Hb.
    + intros s [Hs0 Hs1]. apply (getBodyBuffer_reuse P b s 256 4096); [set_solver|lia..].
  - intros b Hb. split.
    + unfold putBodyBuffer. by rewrite Hb.
    + intros s [Hs0 Hs1]. apply (getBodyBuffer_reuse P b s 4096 65536); [set_solver|lia..].
  - intros s Hs. unfold getBodyBuffer.
    destruct (Z.leb_spec s 256); [lia|]. destruct (Z.leb_spec s 4096); [lia|].
    destruct (Z.leb_spec s 65536); [lia|]. done.
  - intros b Hb. unfold putBodyBuffer.
    destruct (Z.eqb_spec (cap b) 256); [lia|].
    destruct (Z.eqb_spec (cap b) 4096); [lia|].
    destruct (Z.eqb_spec (cap b) 65536); [lia|]. done.
Qed.

Lemma arena_acquire_release_witness :
  pools_ok no_pools ∧
  ∃ b P1, getBodyBuffer 100 no_pools = Ret (b, P1) ∧ len b = 100 ∧ pools_ok P1 ∧
    ∃ b2 P2, getBodyBuffer 100 (putBodyBuffer b P1) = Ret (b2, P2) ∧
             len b2 = 100 ∧ 100 <= cap b2 ∧ pools_ok P2.
Proof.
  split; [exact pools_ok_empty|].
  apply (arena_acquire_release no_pools pools_ok_empty); lia.
Defined.

(** ** The writer *)

Lemma wrote_nil c w : healthy c w → wrote [] c w c w.
Proof. intros Hh. repeat split; try apply Hh. by rewrite app_nil_r. Qed.

Lemma wrote_trans p q c w c1 w1 c2 w2 :
  wrote p c w c1 w1 → wrote q c1 w1 c2 w2 → wrote (p ++ q) c w c2 w2.
Proof.
  intros (_ & Hi1 & Ht1 & Ho1) (Hh & Hi2 & Ht2 & Ho2).
  repeat split; try apply Hh; try congruence.
  rewrite Ho2, Ho1. by rewrite app_assoc.
Qed.

Lemma bufio_flush_all_ok bs c :
  write_error c = None →
  ∃ c', bufio_flush_all bs c = (None, c', new_bufrw) ∧ write_error c' = None ∧
        incoming c' = incoming c ∧ isTCP c' = isTCP c ∧ outgoing c' = outgoing c ++ bs.
Proof.
  intros Hw. unfold bufio_flush_all, conn_Write. rewrite Hw.
  eexists. by split_and!.
Qed.

Lemma bufio_Write_ok p c w :
  healthy c w → ∃ c' w', bufio_Write p c w = (None, c', w') ∧ wrote p c w c' w'.
Proof.
  intros [Hc Hw]. unfold bufio_Write. rewrite Hw.
  destruct (length (pending w ++ p) <=? 4096)%nat.
  - eexists _, _. split; [done|]. repeat split; simpl; try done.
    by rewrite !app_assoc.
  - destruct (bufio_flush_all_ok (pending w ++ p) c Hc) as (c' & -> & Hc' & Hi & Ht & Ho).
    eexists _, _. split; [done|]. repeat split; simpl; try done.
    rewrite Ho. by rewrite app_nil_r, !app_assoc.
Qed.

Lemma bufio_Flush_ok c w :
  healthy c w →
  ∃ c', bufio_Flush c w = (None, c', new_bufrw) ∧ write_error c' = None ∧
        incoming c' = incoming c ∧ isTCP c' = isTCP c ∧
        outgoing c' = outgoing c ++ pending w.
Proof.
  intros [Hc Hw]. unfold bufio_Flush. rewrite Hw.
  destruct (pending w) as [|b bs] eqn:Hp.
  - exists c. destruct w as [pw ew]; simpl in *; subst.
    split_and!; try done. by rewrite app_nil_r.
  - by apply bufio_flush_all_ok.
Qed.

(** ** [send] *)

Section SendFacts.
Context `{Protocol}.

Lemma uint8_idem_add l k : uint8 (uint8 l + k) = uint8 (l + k).
Proof. unfold uint8. by rewrite Zplus_mod_idemp_l. Qed.

Lemma sizeOfExtras_from_supported extras l :
  forallb supported extras = true →
  sizeOfExtras_from (uint8 l) extras = Ret (uint8 (l + extras_width extras)).
Proof.
  revert l. induction extras as [|e r IH]; intros l Hs.
  - simpl. by rewrite Z.add_0_r.
  - simpl in Hs. apply andb_prop in Hs as [He Hr].
    destruct e; try discriminate; cbn [sizeOfExtras_from extras_width foldr extra_width];
      rewrite uint8_idem_add, IH by done; f_equal; f_equal; unfold extras_width; lia.
Qed.

Lemma sizeOfExtras_supported extras :
  forallb supported extras = true →
  sizeOfExtras extras = Ret (uint8 (extras_width extras)).
Proof.
  intros Hs. unfold sizeOfExtras. change 0 with (uint8 0) at 1.
  by rewrite sizeOfExtras_from_supported.
Qed.

(** One unsupported element makes [sizeOfExtras] panic. *)
Lemma sizeOfExtras_from_unsupported extras l :
  forallb supported extras = false →
  sizeOfExtras_from l extras = Panic "mc: unknown extra type".
Proof.
  revert l. induction extras as [|e r IH]; intros l Hs; [discriminate|].
  simpl in Hs. destruct e; simpl in *; try done; by apply IH.
Qed.

Lemma extras_width_nonneg extras : 0 <= extras_width extras.
Proof.
  induction extras as [|e r IH]; simpl; [lia|].
  unfold extras_width in *. destruct e; simpl; lia.
Qed.

Lemma length_enc_extras extras :
  forallb supported extras = true →
  Z.of_nat (length (enc_extras extras)) = extras_width extras.
Proof.
  induction extras as [|e r IH]; intros Hs; [done|].
  simpl in Hs. apply andb_prop in Hs as [He Hr].
  unfold enc_extras, extras_width in *. cbn [map concat foldr].
  rewrite length_app, Nat2Z.inj_add, IH by done.
  destruct e; try discriminate; reflexivity.
Qed.

Lemma write_extras_ok extras c w :
  forallb supported extras = true → healthy c w →
  ∃ c' w', write_extras extras c w = Ret (None, c', w') ∧
           wrote (enc_extras extras) c w c' w'.
Proof.
  revert c w. induction extras as [|e r IH]; intros c w Hs Hh.
  - exists c, w. split; [done|]. by apply wrote_nil.
  - simpl in Hs. apply andb_prop in Hs as [He Hr].
    assert (∃ c1 w1, bufio_Write (enc_extra e) c w = (None, c1, w1) ∧
                     wrote (enc_extra e) c w c1 w1) as (c1 & w1 & Hw & Hw1)
      by (by apply bufio_Write_ok).
    destruct (IH c1 w1 Hr (proj1 Hw1)) as (c2 & w2 & Hx & Hw2).
    exists c2, w2. split.
    + destruct e; try discriminate; cbn [write_extras enc_extra] in *;
        cbn [mbind result_bind]; rewrite Hw; cbn [and_then]; exact Hx.
    + unfold enc_extras. cbn [map concat]. by eapply wrote_trans.
Qed.

Lemma write_string_ok s c w :
  healthy c w →
  ∃ c' w', write_string s c w = Ret (None, c', w') ∧ wrote (bytes_of s) c w c' w'.
Proof.
  intros Hh. unfold write_string. destruct s as [|a s].
  - exists c, w. split; [done|]. by apply wrote_nil.
  - cbn [String.length Nat.ltb Nat.leb].
    destruct (bufio_Write_ok (bytes_of (String a s)) c w Hh) as (c' & w' & -> & Hw).
    by exists c', w'.
Qed.

(** On a healthy connection [send] of supported extras succeeds and the
    frame, after whatever was pending, is on the wire. *)
Lemma send_ok W sc m c w :
  let extras := elems (arrays W) (iextras m) in
  conn sc = Some c → rw sc = Some w → healthy c w →
  forallb supported extras = true →
  ∃ c',
    send W sc m =
      Ret (None,
           set_io (set_hdrBuf (set_opq sc (uint32 (opq sc + 1)))
                     (encode_header (send_header m (uint8 (extras_width extras)) (opq sc))))
                  c' new_bufrw,
           set_hdr m (send_header m (uint8 (extras_width extras)) (opq sc))) ∧
    write_error c' = None ∧ incoming c' = incoming c ∧ isTCP c' = isTCP c ∧
    outgoing c' = (outgoing c ++ pending w) ++ frame m extras (opq sc).
Proof.
  intros extras Hc Hw Hh Hs. unfold send. fold extras.
  rewrite sizeOfExtras_supported by done. cbn [mbind result_bind].
  set (h := send_header m (uint8 (extras_width extras)) (opq sc)).
  cbn [conn rw set_hdrBuf set_opq hdrBuf hdr set_hdr key val]. rewrite Hc, Hw.
  destruct (bufio_Write_ok (encode_header h) c w Hh) as (c1 & w1 & -> & H1).
  cbn [and_then].
  destruct (write_extras_ok extras c1 w1 Hs (proj1 H1)) as (c2 & w2 & -> & H2).
  cbn [mbind result_bind and_then].
  destruct (write_string_ok (key m) c2 w2 (proj1 H2)) as (c3 & w3 & -> & H3).
  cbn [mbind result_bind and_then].
  destruct (write_string_ok (val m) c3 w3 (proj1 H3)) as (c4 & w4 & -> & H4).
  cbn [mbind result_bind and_then].
  destruct (bufio_Flush_ok c4 w4 (proj1 H4)) as (c5 & -> & He & Hi & Ht & Ho).
  exists c5. split; [done|].
  pose proof (wrote_trans _ _ _ _ _ _ _ _ H1 (wrote_trans _ _ _ _ _ _ _ _ H2
                (wrote_trans _ _ _ _ _ _ _ _ H3 H4))) as (_ & Hi' & Ht' & Ho').
  split_and!; try congruence.
  rewrite Ho, Ho'. done.
Qed.

End SendFacts.

(** ** Slicing in bounds *)

Lemma wf_buf_len_cap b : wf_buf b → len b <= cap b.
Proof. unfold wf_buf, len, cap. lia. Qed.

Lemma length_buf_bytes_wf b : wf_buf b → Z.of_nat (length (buf_bytes b)) = len b.
Proof. intros Hw. rewrite length_buf_bytes by (by apply wf_buf_len_cap). done. Qed.

Lemma sub_spec b lo hi :
  wf_buf b → 0 <= lo → lo <= hi → hi <= len b →
  ∃ b', sub b lo hi = Ret b' ∧ wf_buf b' ∧ len b' = hi - lo ∧
        buf_bytes b' = take (Z.to_nat (hi - lo)) (drop (Z.to_nat lo) (buf_bytes b)).
Proof.
  intros Hw H0 H1 H2. pose proof (wf_buf_len_cap b Hw) as Hb.
  unfold wf_buf in Hw. rewrite sub_ok by lia. eexists. split; [done|].
  unfold wf_buf, len, cap, buf_bytes in *; simpl. split_and!; [lia|lia|].
  rewrite skipn_firstn_comm, take_take, drop_drop. f_equal. lia.
Qed.

Lemma slice_to_spec b n :
  wf_buf b → 0 <= n → n <= len b →
  ∃ b', slice_to b n = Ret b' ∧ wf_buf b' ∧ len b' = n ∧
        buf_bytes b' = take (Z.to_nat n) (buf_bytes b).
Proof.
  intros Hw H0 H1. destruct (sub_spec b 0 n Hw ltac:(lia) H0 H1) as (b' & Hs & Hw' & Hl & Hb).
  exists b'. split_and!; try done; [lia|].
  rewrite Hb. by rewrite Z.sub_0_r.
Qed.

Lemma slice_from_spec b n :
  wf_buf b → 0 <= n → n <= len b →
  ∃ b', slice_from b n = Ret b' ∧ wf_buf b' ∧ len b' = len b - n ∧
        buf_bytes b' = drop (Z.to_nat n) (buf_bytes b).
Proof.
  intros Hw H0 H1.
  destruct (sub_spec b n (len b) Hw H0 H1 ltac:(lia)) as (b' & Hs & Hw' & Hl & Hb).
  exists b'. split_and!; try done.
  rewrite Hb. apply take_ge. rewrite length_drop.
  pose proof (length_buf_bytes_wf b Hw). lia.
Qed.

Lemma index_spec b i :
  wf_buf b → 0 <= i → i < len b →
  ∃ x, index b i = Ret x ∧ take 1 (drop (Z.to_nat i) (buf_bytes b)) = [x].
Proof.
  intros Hw H0 H1. unfold wf_buf in Hw.
  unfold index. destruct (Z.leb_spec 0 i); [|lia]. destruct (Z.ltb_spec i (len b)); [|lia].
  simpl. unfold len in *.
  destruct (lookup_lt_is_Some_2 (buf_arr b) (buf_off b + Z.to_nat i)%nat) as [x Hx]; [lia|].
  rewrite Hx. exists x. split; [done|].
  unfold buf_bytes. rewrite skipn_firstn_comm, take_take, drop_drop.
  replace (1 `min` (buf_len b - Z.to_nat i))%nat with 1%nat by lia.
  rewrite (drop_S _ x _ Hx). done.
Qed.

Lemma read_dest_spec n eb off l d :
  wf_buf eb → 0 <= off → off + Z.of_nat n <= len eb →
  read_dest n eb off l d =
    Ret (<[l := be_value (take n (drop (Z.to_nat off) (buf_bytes eb)))]> d).
Proof.
  intros Hw H0 H1. unfold read_dest.
  destruct (slice_from_spec eb off Hw H0 ltac:(lia)) as (b & -> & Hwb & Hl & Hb).
  cbn [mbind result_bind]. unfold Uint.
  destruct (Z.leb_spec (Z.of_nat n) (len b)); [|lia].
  cbn [mbind result_bind]. by rewrite Hb.
Qed.

(** ** The extras of a response *)

Lemma extras_width_cons e r : extras_width (e :: r) = extra_width e + extras_width r.
Proof. reflexivity. Qed.

Lemma no_nil_dests_cons e r :
  no_nil_dests (e :: r) ↔ is_nil_dest e = false ∧ no_nil_dests r.
Proof.
  unfold no_nil_dests. cbn [forallb]. rewrite andb_true_iff, negb_true_iff. done.
Qed.

(** Pointers to variables are no nil pointers. *)
Lemma is_dest_no_nil oex : forallb is_dest oex = true → no_nil_dests oex.
Proof.
  induction oex as [|e r IH]; [done|]. cbn [forallb].
  intros [He Hr]%andb_prop. apply no_nil_dests_cons. split; [|by apply IH].
  by destruct e.
Qed.

(** The loop over destinations none of which is a nil pointer never panics:
    it fills them all when they are pointers to unsigned integers whose
    widths fit in what is left of the extras segment, and returns an error
    otherwise. *)
Lemma read_extras_spec eb oex : ∀ off d,
  no_nil_dests oex → wf_buf eb → 0 <= off → off <= len eb →
  if forallb is_dest oex && (off + extras_width oex <=? len eb)
  then read_extras eb off oex d =
         Ret (None, dests_after (drop (Z.to_nat off) (buf_bytes eb)) oex d)
  else ∃ x d', read_extras eb off oex d = Ret (Some x, d').
Proof.
  induction oex as [|e r IH]; intros off d Hn Hw H0 H1.
  - cbn [forallb andb]. unfold extras_width; simpl.
    destruct (Z.leb_spec (off + 0) (len eb)); [done|lia].
  - apply no_nil_dests_cons in Hn as [Hne Hnr].
    rewrite extras_width_cons. pose proof (extras_width_nonneg r) as Hr.
    assert (∀ n l,
      extra_width e = Z.of_nat n → dest_loc e = Some l → is_dest e = true →
      (∀ d0, off + Z.of_nat n <= len eb →
         read_extras eb off (e :: r) d0 =
         read_extras eb (off + Z.of_nat n) r
           (<[l := be_value (take n (drop (Z.to_nat off) (buf_bytes eb)))]> d0)) →
      (len eb < off + Z.of_nat n →
         ∃ x, read_extras eb off (e :: r) d = Ret (Some x, d)) →
      if forallb is_dest (e :: r) && (off + (extra_width e + extras_width r) <=? len eb)
      then read_extras eb off (e :: r) d =
             Ret (None, dests_after (drop (Z.to_nat off) (buf_bytes eb)) (e :: r) d)
      else ∃ x d', read_extras eb off (e :: r) d = Ret (Some x, d')) as Hcase.
    { intros n l Hn Hl Hd Hstep Hshort. cbn [forallb]. rewrite Hd. cbn [andb].
      destruct (Z.leb_spec (off + Z.of_nat n) (len eb)) as [Hfit|Hfit].
      - specialize (IH (off + Z.of_nat n)
                      (<[l := be_value (take n (drop (Z.to_nat off) (buf_bytes eb)))]> d)
                      Hnr Hw ltac:(lia) Hfit).
        rewrite Hstep by done.
        replace (off + (extra_width e + extras_width r))
          with (off + Z.of_nat n + extras_width r) by lia.
        destruct (forallb is_dest r && (off + Z.of_nat n + extras_width r <=? len eb)).
        + rewrite IH. cbn [dests_after]. rewrite Hl, Hn, Nat2Z.id, drop_drop.
          by replace (Z.to_nat (off + Z.of_nat n)) with (Z.to_nat off + n)%nat by lia.
        + exact IH.
      - destruct (Hshort ltac:(lia)) as [x Hx].
        destruct (forallb is_dest r); cbn [andb]; [|by eauto].
        destruct (Z.leb_spec (off + (extra_width e + extras_width r)) (len eb)); [lia|].
        by eauto. }
    destruct e; try discriminate Hne;
      try (cbn [forallb is_dest andb read_extras]; by eauto).
    + apply (Hcase 1%nat l); try done.
      * intros d0 Hfit. cbn [read_extras].
        destruct (Z.ltb_spec (len eb) (off + 1)); [lia|].
        destruct (index_spec eb off Hw H0 ltac:(lia)) as (x & -> & Hx).
        cbn [mbind result_bind]. rewrite Hx. by rewrite be_value_single.
      * intros Hs. cbn [read_extras].
        destruct (Z.ltb_spec (len eb) (off + 1)); [by eauto|lia].
    + apply (Hcase 2%nat l); try done.
      * intros d0 Hfit. cbn [read_extras].
        destruct (Z.ltb_spec (len eb) (off + 2)); [lia|].
        rewrite read_dest_spec by (done || lia). done.
      * intros Hs. cbn [read_extras].
        destruct (Z.ltb_spec (len eb) (off + 2)); [by eauto|lia].
    + apply (Hcase 4%nat l); try done.
      * intros d0 Hfit. cbn [read_extras].
        destruct (Z.ltb_spec (len eb) (off + 4)); [lia|].
        rewrite read_dest_spec by (done || lia). done.
      * intros Hs. cbn [read_extras].
        destruct (Z.ltb_spec (len eb) (off + 4)); [by eauto|lia].
    + apply (Hcase 8%nat l); try done.
      * intros d0 Hfit. cbn [read_extras].
        destruct (Z.ltb_spec (len eb) (off + 8)); [lia|].
        rewrite read_dest_spec by (done || lia). done.
      * intros Hs. cbn [read_extras].
        destruct (Z.ltb_spec (len eb) (off + 8)); [by eauto|lia].
Qed.

(** A nil pointer among the destinations: once the pointers before it are
    filled and the extras segment has room for it, the loop writes through
    it. *)
Lemma read_nil_spec n eb off :
  wf_buf eb → 0 <= off → off + Z.of_nat n <= len eb →
  read_nil n eb off = Panic "invalid memory address or nil pointer dereference".
Proof.
  intros Hw H0 H1. unfold read_nil.
  destruct (slice_from_spec eb off Hw H0 ltac:(lia)) as (b & -> & Hwb & Hl & Hb).
  cbn [mbind result_bind]. unfold Uint.
  destruct (Z.leb_spec (Z.of_nat n) (len b)); [|lia]. done.
Qed.

Lemma read_extras_nil eb pre e post : ∀ off d,
  forallb is_dest pre = true → is_nil_dest e = true →
  wf_buf eb → 0 <= off → off + extras_width pre + extra_width e <= len eb →
  read_extras eb off (pre ++ e :: post) d =
    Panic "invalid memory address or nil pointer dereference".
Proof.
  induction pre as [|p pre IH]; intros off d Hp He Hw H0 H1.
  - cbn [app]. change (extras_width []) with 0 in H1.
    destruct e; try discriminate He; cbn [read_extras extra_width] in *.
    + destruct (Z.ltb_spec (len eb) (off + 1)); [lia|].
      by destruct (index_spec eb off Hw H0 ltac:(lia)) as (x & -> & _).
    + destruct (Z.ltb_spec (len eb) (off + 2)); [lia|].
      apply (read_nil_spec 2); [done|done|lia].
    + destruct (Z.ltb_spec (len eb) (off + 4)); [lia|].
      apply (read_nil_spec 4); [done|done|lia].
    + destruct (Z.ltb_spec (len eb) (off + 8)); [lia|].
      apply (read_nil_spec 8); [done|done|lia].
  - cbn [forallb] in Hp. apply andb_prop in Hp as [Hp1 Hp2].
    rewrite extras_width_cons in H1. pose proof (extras_width_nonneg pre) as Hn.
    assert (0 <= extra_width e) as Hn' by (by destruct e).
    cbn [app].
    destruct p; try discriminate Hp1; cbn [read_extras extra_width] in *.
    + destruct (Z.ltb_spec (len eb) (off + 1)); [lia|].
      destruct (index_spec eb off Hw H0 ltac:(lia)) as (x & -> & _).
      cbn [mbind result_bind]. apply IH; try done; lia.
    + destruct (Z.ltb_spec (len eb) (off + 2)); [lia|].
      rewrite (read_dest_spec 2) by (done || lia).
      cbn [mbind result_bind]. apply IH; try done; lia.
    + destruct (Z.ltb_spec (len eb) (off + 4)); [lia|].
      rewrite (read_dest_spec 4) by (done || lia).
      cbn [mbind result_bind]. apply IH; try done; lia.
    + destruct (Z.ltb_spec (len eb) (off + 8)); [lia|].
      rewrite (read_dest_spec 8) by (done || lia).
      cbn [mbind result_bind]. apply IH; try done; lia.
Qed.

(** ** Reading the body into a pooled buffer *)

Lemma drop_list_inserts {A} (k : list A) : ∀ off l,
  (off + length k ≤ length l)%nat →
  drop off (list_inserts off k l) = k ++ drop (off + length k) l.
Proof.
  induction off as [|o IH]; intros l Hl.
  - simpl. rewrite <- (take_drop (length k) l) at 1.
    apply list_inserts_0_r. rewrite length_take. lia.
  - destruct l as [|x l]; simpl in Hl; [lia|].
    rewrite list_inserts_cons. simpl. apply IH. lia.
Qed.

Lemma buf_bytes_fill body got :
  wf_buf body → length got = buf_len body →
  wf_buf (fill body got) ∧ buf_bytes (fill body got) = got ∧
  len (fill body got) = len body ∧ cap (fill body got) = cap body.
Proof.
  unfold wf_buf, fill, buf_bytes, len, cap. simpl. intros Hw Hg.
  rewrite length_inserts. split_and!; try done.
  rewrite drop_list_inserts by lia. rewrite <- Hg. by rewrite take_app_length.
Qed.

Lemma pool_get_wf c p b p' :
  0 < c → pool_ok c p → pool_get c p = (b, p') →
  (buf_off b < length (buf_arr b))%nat.
Proof.
  intros Hc Hp Hg. apply pool_get_cap in Hg as [Hb _]; [|lia|done].
  unfold cap in Hb. lia.
Qed.

Lemma getBodyBuffer_wf P s b P' :
  pools_ok P → 0 <= s → getBodyBuffer s P = Ret (b, P') → wf_buf b.
Proof.
  intros HP Hs Hg.
  destruct (getBodyBuffer_ok P s HP Hs) as (b0 & P0 & Hg0 & Hl & Hc & _).
  rewrite Hg0 in Hg. injection Hg as <- <-.
  unfold wf_buf. unfold len, cap in *.
  destruct (decide (buf_len b0 = 0%nat)) as [Hz|Hz]; [|lia].
  destruct HP as (H1 & H2 & H3). unfold getBodyBuffer in Hg0.
  repeat match type of Hg0 with
  | context [pool_get ?c ?p] =>
      let E := fresh "E" in
      destruct (pool_get c p) as [? ?] eqn:E;
      apply pool_get_wf in E; [|lia|done]
  | context [if ?x then _ else _] => destruct x
  end;
  unfold slice_to, sub in Hg0;
  repeat match type of Hg0 with
  | context [if ?x then _ else _] => destruct x
  end; simpl in Hg0; try discriminate; injection Hg0 as <- _; simpl in *; lia.
Qed.

Lemma ReadFull_ok n c pre rest :
  incoming c = pre ++ rest → length pre = n →
  ReadFull n c =
    (None, pre, mkNetConn rest (outgoing c) (write_error c) (isTCP c)).
Proof.
  intros Hi Hn. unfold ReadFull. rewrite Hi, length_app.
  destruct (Nat.leb_spec n (length pre + length rest)); [|lia].
  subst n. by rewrite take_app_length, drop_app_length.
Qed.

Lemma ReadFull_short n c :
  (length (incoming c) < n)%nat →
  ∃ x, ReadFull n c =
         (Some x, incoming c, mkNetConn [] (outgoing c) (write_error c) (isTCP c)).
Proof.
  intros Hn. unfold ReadFull.
  destruct (Nat.leb_spec n (length (incoming c))); [lia|]. by eexists.
Qed.

(** ** Decoding the header *)

Lemma length_encode_header h : length (encode_header h) = 24%nat.
Proof. reflexivity. Qed.

Lemma parse_encode_header h :
  parse_header (encode_header h) =
    mkHeader (uint8 (Magic h)) (uint8 (Op h)) (uint16 (KeyLen h))
      (uint8 (ExtraLen h)) (uint8 (DataType h)) (uint16 (ResvOrStatus h))
      (uint32 (BodyLen h)) (uint32 (Opaque h)) (uint64 (CAS h)).
Proof.
  unfold parse_header, encode_header, field, PutUint16, PutUint32, PutUint64.
  cbn [app be_bytes firstn skipn].
  f_equal;
    first [ apply Z_of_byte_of_Z
          | exact (be_value_be_bytes 2 _)
          | exact (be_value_be_bytes 4 _)
          | exact (be_value_be_bytes 8 _) ].
Qed.

Lemma be_value_acc_nonneg bs acc : 0 <= acc → 0 <= be_value_acc acc bs.
Proof.
  revert acc. induction bs as [|b r IH]; intros acc Ha; simpl; [done|].
  apply IH. pose proof (Z_of_byte_range b). lia.
Qed.

Lemma be_value_acc_lin bs : ∀ acc,
  be_value_acc acc bs = acc * 256 ^ Z.of_nat (length bs) + be_value bs.
Proof.
  unfold be_value. induction bs as [|b r IH]; intros acc.
  - simpl. lia.
  - cbn [be_value_acc length]. rewrite (IH (acc * 256 + Z_of_byte b)).
    rewrite (IH (0 * 256 + Z_of_byte b)).
    replace (Z.of_nat (S (length r))) with (Z.of_nat (length r) + 1) by lia.
    rewrite Z.pow_add_r by lia. lia.
Qed.

Lemma be_value_cons b r :
  be_value (b :: r) = Z_of_byte b * 256 ^ Z.of_nat (length r) + be_value r.
Proof.
  unfold be_value at 1. cbn [be_value_acc]. rewrite be_value_acc_lin. lia.
Qed.

Lemma be_value_bound bs : 0 <= be_value bs < 256 ^ Z.of_nat (length bs).
Proof.
  induction bs as [|b r IH].
  - by vm_compute.
  - rewrite be_value_cons. cbn [length].
    replace (Z.of_nat (S (length r))) with (Z.of_nat (length r) + 1) by lia.
    rewrite Z.pow_add_r by lia. pose proof (Z_of_byte_range b). nia.
Qed.

Lemma field_nonneg o n b : 0 <= field o n b.
Proof. unfold field, be_value. by apply be_value_acc_nonneg. Qed.

Lemma field_bound o n b : 0 <= field o n b < 256 ^ Z.of_nat n.
Proof.
  unfold field. pose proof (be_value_bound (take n (drop o b))) as Hb.
  split; [lia|]. eapply Z.lt_le_trans; [apply Hb|].
  apply Z.pow_le_mono_r; [lia|]. rewrite length_take. lia.
Qed.

(** A [uint32] keeps its value when converted to an [int] of 64 bits.  As
    an [int] of 32 bits it is negative from 2^31 on, and [getBodyBuffer]
    panics on it. *)
Lemma to_int_uint32 z : 0 <= z < 2 ^ 32 → to_int z = z.
Proof. intros Hz. unfold to_int, to_int_on, int_bits. rewrite Z.mod_small; lia. Qed.

Lemma getBodyBuffer_int32 z P :
  2 ^ 31 <= z < 2 ^ 32 →
  to_int_on 32 z = z - 2 ^ 32 ∧
  getBodyBuffer (to_int_on 32 z) P = Panic "slice bounds out of range".
Proof.
  intros Hz. assert (to_int_on 32 z = z - 2 ^ 32) as ->.
  { unfold to_int_on. replace (z + 2 ^ (32 - 1)) with (z - 2 ^ 31 + 1 * 2 ^ 32) by lia.
    rewrite Z_mod_plus_full, Z.mod_small; lia. }
  split; [done|]. unfold getBodyBuffer.
  destruct (Z.leb_spec (z - 2 ^ 32) 256); [|lia].
  destruct (pool_get 256 (smallBodyPool P)) as [b p].
  unfold slice_to, sub. destruct (Z.leb_spec 0 (z - 2 ^ 32)); [lia|]. done.
Qed.

Lemma to_int_BodyLen b : to_int (BodyLen (parse_header b)) = BodyLen (parse_header b).
Proof. apply to_int_uint32. cbn [parse_header BodyLen]. apply (field_bound 8 4). Qed.

(** ** Decoding the body *)

Section RecvFacts.
Context `{Protocol}.

Lemma decode_extras_skip h oex buf d :
  ResvOrStatus h ≠ 0 ∨ ExtraLen h <= 0 →
  decode_extras h oex buf d = Ret (None, buf, d).
Proof.
  intros Hc. unfold decode_extras.
  destruct (Z.eqb_spec (ResvOrStatus h) 0); [|done].
  destruct (Z.ltb_spec 0 (ExtraLen h)); [|done]. lia.
Qed.

Lemma decode_extras_short h oex buf d :
  ResvOrStatus h = 0 → 0 < ExtraLen h → len buf < ExtraLen h →
  decode_extras h oex buf d = Ret (Some "unexpected EOF", buf, d).
Proof.
  intros Hs He Hl. unfold decode_extras. rewrite Hs.
  destruct (Z.ltb_spec 0 (ExtraLen h)); [|lia].
  destruct (Z.ltb_spec (len buf) (ExtraLen h)); [done|lia].
Qed.

Lemma decode_extras_run h oex buf d :
  no_nil_dests oex → wf_buf buf → ResvOrStatus h = 0 → 0 < ExtraLen h → ExtraLen h <= len buf →
  if forallb is_dest oex && (extras_width oex <=? ExtraLen h)
  then ∃ buf', decode_extras h oex buf d =
                 Ret (None, buf',
                      dests_after (take (Z.to_nat (ExtraLen h)) (buf_bytes buf)) oex d) ∧
               wf_buf buf' ∧ len buf' = len buf - ExtraLen h ∧
               buf_bytes buf' = drop (Z.to_nat (ExtraLen h)) (buf_bytes buf)
  else ∃ x buf' d', decode_extras h oex buf d = Ret (Some x, buf', d').
Proof.
  intros Hn Hw Hs He Hl. unfold decode_extras. rewrite Hs.
  destruct (Z.ltb_spec 0 (ExtraLen h)); [|lia].
  destruct (Z.ltb_spec (len buf) (ExtraLen h)); [lia|]. cbn [Z.eqb andb].
  destruct (slice_to_spec buf (ExtraLen h) Hw ltac:(lia) Hl) as (eb & -> & Hwe & Hle & Hbe).
  destruct (slice_from_spec buf (ExtraLen h) Hw ltac:(lia) Hl) as (b' & -> & Hwb & Hlb & Hbb).
  cbn [mbind result_bind].
  pose proof (read_extras_spec eb oex 0 d Hn Hwe ltac:(lia) ltac:(lia)) as Hr.
  rewrite Hle, Z.add_0_l in Hr.
  destruct (forallb is_dest oex && (extras_width oex <=? ExtraLen h)).
  - rewrite Hr. cbn [mbind result_bind]. exists b'. split_and!; try done.
    by rewrite Hbe.
  - destruct Hr as (x & d' & ->). cbn [mbind result_bind]. by eauto.
Qed.

(** Whatever the header says, the extras step over destinations none of
    which is a nil pointer returns, with a buffer that is still within
    bounds. *)
Lemma decode_extras_total h oex buf d :
  no_nil_dests oex → wf_buf buf →
  ∃ err buf' d', decode_extras h oex buf d = Ret (err, buf', d') ∧
                 (err = None → wf_buf buf' ∧ len buf' <= len buf).
Proof.
  intros Hnn Hw.
  destruct (decide (ResvOrStatus h = 0 ∧ 0 < ExtraLen h)) as [[Hs He]|Hn].
  - destruct (Z.lt_ge_cases (len buf) (ExtraLen h)) as [Hl|Hl].
    + rewrite decode_extras_short by done. eexists _, _, _. split; [done|]. done.
    + pose proof (decode_extras_run h oex buf d Hnn Hw Hs He Hl) as Hr.
      destruct (forallb is_dest oex && _).
      * destruct Hr as (b' & -> & Hwb & Hlb & _). eexists _, _, _. split; [done|].
        intros _. split; [done|lia].
      * destruct Hr as (x & b' & d' & ->). eexists _, _, _. split; [done|]. done.
  - rewrite decode_extras_skip by lia. eexists _, _, _. split; [done|].
    intros _. split; [done|lia].
Qed.

(** The key and value step. *)
Lemma decode_body_tail oex body m d buf d' :
  decode_extras (hdr m) oex body d = Ret (None, buf, d') → wf_buf buf →
  0 <= KeyLen (hdr m) →
  decode_body oex body m d =
    if len buf <? KeyLen (hdr m) then Ret (net_error "unexpected EOF", d', m)
    else Ret (newError (ResvOrStatus (hdr m)), d',
              set_key_val m
                (String.string_of_list_byte (take (Z.to_nat (KeyLen (hdr m))) (buf_bytes buf)))
                (String.string_of_list_byte (drop (Z.to_nat (KeyLen (hdr m))) (buf_bytes buf)))).
Proof.
  intros He Hw Hk. unfold decode_body. rewrite He. cbn [mbind result_bind].
  destruct (Z.ltb_spec (len buf) (KeyLen (hdr m))); [done|].
  destruct (slice_to_spec buf (KeyLen (hdr m)) Hw Hk ltac:(lia)) as (kb & -> & _ & _ & Hkb).
  destruct (slice_from_spec buf (KeyLen (hdr m)) Hw Hk ltac:(lia)) as (vb & -> & _ & _ & Hvb).
  cbn [mbind result_bind]. unfold string_of. by rewrite Hkb, Hvb.
Qed.

Lemma decode_body_error oex body m d x buf d' :
  decode_extras (hdr m) oex body d = Ret (Some x, buf, d') →
  decode_body oex body m d = Ret (net_error x, d', m).
Proof. intros He. unfold decode_body. by rewrite He. Qed.

(** Decoding into destinations none of which is a nil pointer never
    panics. *)
Lemma decode_body_total oex body m d :
  no_nil_dests oex → wf_buf body → 0 <= KeyLen (hdr m) →
  ∃ err d' m', decode_body oex body m d = Ret (err, d', m').
Proof.
  intros Hnn Hw Hk.
  destruct (decode_extras_total (hdr m) oex body d Hnn Hw) as ([x|] & buf & d' & He & Hb).
  - rewrite (decode_body_error _ _ _ _ _ _ _ He). by eauto.
  - destruct (Hb eq_refl) as [Hwb _].
    rewrite (decode_body_tail _ _ _ _ _ _ He Hwb Hk).
    destruct (len buf <? KeyLen (hdr m)); by eauto.
Qed.

(** ** [recv] *)

(** When a whole frame is there, [recv] reads the header and the body it
    announces, decodes the body and releases the buffer. *)
Lemma recv_frame W sc m c w hb body rest :
  conn sc = Some c → rw sc = Some w → pools_ok (arena W) →
  incoming c = hb ++ body ++ rest → length hb = 24%nat →
  BodyLen (parse_header hb) = Z.of_nat (length body) →
  ∃ buf P',
    wf_buf buf ∧ buf_bytes buf = body ∧ len buf = Z.of_nat (length body) ∧
    pools_ok P' ∧
    recv W sc m =
      ('(err, d, m') ← decode_body (elems (arrays W) (oextras m)) buf
                         (set_hdr m (parse_header hb)) (dests W);
       Ret (err, set_arena (set_dests W d) P', consumed sc c hb rest, m')).
Proof.
  intros Hc Hw HP Hi Hh Hb. unfold recv. rewrite Hc, Hw.
  rewrite (ReadFull_ok 24 c hb (body ++ rest) Hi Hh).
  cbn [hdrBuf set_conn set_hdrBuf hdr set_hdr].
  rewrite take_app_length' by done. rewrite to_int_BodyLen, Hb.
  destruct (getBodyBuffer_ok (arena W) (Z.of_nat (length body)) HP ltac:(lia))
    as (b & P1 & Hg & Hl & Hcap & HP1).
  pose proof (getBodyBuffer_wf _ (Z.of_nat (length body)) _ _ HP ltac:(lia) Hg) as Hwb.
  rewrite Hg. cbn [mbind result_bind].
  assert (buf_len b = length body) as Hbl by (unfold len in Hl; lia).
  rewrite (ReadFull_ok (buf_len b) _ body rest); [|done|done].
  cbn [outgoing write_error isTCP].
  destruct (buf_bytes_fill b body Hwb (eq_sym Hbl)) as (Hwf & Hbf & Hlf & Hcf).
  exists (fill b body), (putBodyBuffer (fill b body) P1).
  split_and!; try done; try congruence; by apply putBodyBuffer_ok.
Qed.

End RecvFacts.

(** ** Filling the destinations from encoded extras *)

Lemma supported_width_pos e : supported e = true → 1 <= extra_width e <= 8.
Proof. destruct e; simpl; try discriminate; lia. Qed.

Lemma extras_width_zero extras :
  forallb supported extras = true → extras_width extras = 0 → extras = [].
Proof.
  destruct extras as [|e r]; [done|]. cbn [forallb]. intros Hs Hw.
  apply andb_prop in Hs as [He _]. apply supported_width_pos in He.
  rewrite extras_width_cons in Hw. pose proof (extras_width_nonneg r). lia.
Qed.

Lemma length_enc_extra e :
  supported e = true → length (enc_extra e) = Z.to_nat (extra_width e).
Proof. destruct e; try discriminate; reflexivity. Qed.

Lemma be_value_enc_extra e :
  supported e = true → in_range e → be_value (enc_extra e) = extra_value e.
Proof.
  unfold in_range.
  destruct e; try discriminate; intros _ Hr; simpl in Hr;
    cbn [enc_extra extra_value]; unfold PutUint16, PutUint32, PutUint64;
    first [ rewrite be_value_be_bytes | rewrite be_value_single, Z_of_byte_of_Z ];
    apply Z.mod_small; simpl; lia.
Qed.

Lemma extras_width_dest_for extras locs :
  forallb supported extras = true → length locs = length extras →
  extras_width (zip_with dest_for extras locs) = extras_width extras ∧
  forallb is_dest (zip_with dest_for extras locs) = true.
Proof.
  revert locs. induction extras as [|e r IH]; intros [|l ls] Hs Hl; try done.
  simpl in Hs. apply andb_prop in Hs as [He Hr]. simpl in Hl.
  destruct (IH ls Hr ltac:(lia)) as [IH1 IH2].
  cbn [zip_with forallb]. rewrite !extras_width_cons, IH1, IH2.
  destruct e; try discriminate; done.
Qed.

(** Every destination receives the value of the extra at its position;
    other variables are left alone. *)
Lemma dests_after_enc_extras extras : ∀ locs rest d,
  forallb supported extras = true → Forall in_range extras →
  length locs = length extras → NoDup locs →
  let d' := dests_after (enc_extras extras ++ rest) (zip_with dest_for extras locs) d in
  (∀ i e l, extras !! i = Some e → locs !! i = Some l →
            d' !! l = Some (extra_value e)) ∧
  (∀ l, l ∉ locs → d' !! l = d !! l).
Proof.
  induction extras as [|e r IH]; intros locs rest d Hs Hr Hl Hn d'.
  { split; [intros i e l Hi; by rewrite lookup_nil in Hi | done]. }
  destruct locs as [|l0 ls]; [done|].
  simpl in Hs. apply andb_prop in Hs as [He Hsr].
  apply Forall_cons in Hr as [Hre Hrr]. apply NoDup_cons in Hn as [Hl0 Hn].
  simpl in Hl.
  assert (d' = dests_after (enc_extras r ++ rest) (zip_with dest_for r ls)
                 (<[l0 := extra_value e]> d)) as ->.
  { subst d'. cbn [zip_with dests_after].
    assert (dest_loc (dest_for e l0) = Some l0) as -> by (by destruct e).
    assert (extra_width (dest_for e l0) = extra_width e) as -> by (by destruct e).
    unfold enc_extras. cbn [map concat]. rewrite <- app_assoc.
    rewrite <- (length_enc_extra e He).
    by rewrite take_app_length, drop_app_length, be_value_enc_extra. }
  destruct (IH ls rest (<[l0 := extra_value e]> d) Hsr Hrr ltac:(lia) Hn) as [IH1 IH2].
  split.
  - intros [|i] e' l Hi Hli; simpl in Hi, Hli.
    + injection Hi as <-. injection Hli as <-.
      rewrite IH2 by done. apply lookup_insert_eq.
    + by apply (IH1 i).
  - intros l Hnl. apply not_elem_of_cons in Hnl as [Hne Hnl].
    rewrite IH2 by done. by apply lookup_insert_ne.
Qed.

(** ** C1: round trip *)

Section RoundTrip.
Context `{Protocol}.

(** C1 (as amended). For every message whose key is at most 250 bytes,
    whose value is at most 1 MB, whose extras are 8/16/32/64-bit unsigned
    values of at most 255 bytes in total, and whose status/reserved field is
    zero unless it has no extras: [send] on a healthy connection succeeds,
    and [recv], fed the bytes that [send] wrote and given destinations of the
    same widths in the same order, returns the key, the value and every
    extras value unchanged. *)
Theorem send_recv_roundtrip W sc m c w :
  let extras := elems (arrays W) (iextras m) in
  conn sc = Some c → rw sc = Some w → healthy c w →
  forallb supported extras = true → Forall in_range extras →
  extras_width extras <= 255 →
  ResvOrStatus (hdr m) = 0 ∨ extras = [] →
  Z.of_nat (String.length (key m)) <= 250 →
  Z.of_nat (String.length (val m)) <= 1048576 →
  ∃ sc' m' c' written,
    send W sc m = Ret (None, sc', m') ∧ conn sc' = Some c' ∧
    outgoing c' = (outgoing c ++ pending w) ++ written ∧
    ∀ W' rsc rm rc rbw locs rest,
      conn rsc = Some rc → rw rsc = Some rbw → pools_ok (arena W') →
      elems (arrays W') (oextras rm) = zip_with dest_for extras locs →
      length locs = length extras → NoDup locs →
      incoming rc = written ++ rest →
      ∃ W'' rsc' rm' rc',
        recv W' rsc rm =
          Ret (newError (uint16 (ResvOrStatus (hdr m))), W'', rsc', rm') ∧
        key rm' = key m ∧ val rm' = val m ∧
        (∀ i e l, extras !! i = Some e → locs !! i = Some l →
                  dests W'' !! l = Some (extra_value e)) ∧
        conn rsc' = Some rc' ∧ incoming rc' = rest.
Proof.
  intros extras Hc Hw Hh Hs Hr Hwd Hst Hk Hv.
  destruct (send_ok W sc m c w Hc Hw Hh Hs) as (c' & Hsend & _ & _ & _ & Hout).
  fold extras in Hsend, Hout.
  pose proof (extras_width_nonneg extras) as Hw0.
  set (el := uint8 (extras_width extras)) in *.
  assert (el = extras_width extras) as Hel by (apply uint_small; lia).
  set (h := send_header m el (opq sc)) in *.
  set (body := enc_extras extras ++ bytes_of (key m) ++ bytes_of (val m)).
  eexists _, _, c', (encode_header h ++ body). split; [exact Hsend|].
  split; [done|]. split; [exact Hout|].
  intros W' rsc rm rc rbw locs rest Hrc Hrw HP Hox Hll Hnd Hin.
  rewrite <- app_assoc in Hin.
  assert (Z.of_nat (length body) =
          extras_width extras + Z.of_nat (String.length (key m))
          + Z.of_nat (String.length (val m))) as Hlb.
  { unfold body. rewrite !length_app, !length_bytes_of, !Nat2Z.inj_add.
    rewrite length_enc_extras by done. lia. }
  assert (KeyLen (parse_header (encode_header h)) = Z.of_nat (String.length (key m))) as HK.
  { rewrite parse_encode_header. cbn [KeyLen h send_header]. unfold uint16.
    rewrite Zmod_mod. apply uint_small. lia. }
  assert (ExtraLen (parse_header (encode_header h)) = extras_width extras) as HE.
  { rewrite parse_encode_header. cbn [ExtraLen h send_header]. fold el.
    rewrite Hel. apply uint_small. lia. }
  assert (BodyLen (parse_header (encode_header h)) = Z.of_nat (length body)) as HB.
  { rewrite parse_encode_header. cbn [BodyLen h send_header]. rewrite Hel, Hlb.
    unfold uint32, uint16. rewrite Zmod_mod.
    rewrite (uint_small 16 (Z.of_nat (String.length (key m)))) by lia.
    rewrite (uint_small 32 (extras_width extras)) by lia.
    rewrite (uint_small 32 (Z.of_nat (String.length (key m)))) by lia.
    rewrite (uint_small 32 (Z.of_nat (String.length (val m)))) by lia.
    rewrite (uint_small 32 (extras_width extras + Z.of_nat (String.length (key m)))) by lia.
    apply uint_small. lia. }
  assert (ResvOrStatus (parse_header (encode_header h)) = uint16 (ResvOrStatus (hdr m))) as HS
    by (by rewrite parse_encode_header).
  destruct (recv_frame W' rsc rm rc rbw (encode_header h) body rest Hrc Hrw HP Hin
              (length_encode_header h) HB) as (buf & P' & Hwb & Hbb & Hlen & HP' & Hrecv).
  set (h' := parse_header (encode_header h)) in *.
  rewrite Hox in Hrecv.
  destruct (extras_width_dest_for extras locs Hs Hll) as [Hwo Hdo].
  (* the extras step *)
  assert (∃ buf' d',
    decode_extras h' (zip_with dest_for extras locs) buf (dests W') = Ret (None, buf', d') ∧
    wf_buf buf' ∧ buf_bytes buf' = bytes_of (key m) ++ bytes_of (val m) ∧
    (∀ i e l, extras !! i = Some e → locs !! i = Some l → d' !! l = Some (extra_value e)))
    as (buf' & d' & Hde & Hwb' & Hbb' & Hd').
  { destruct (decide (extras = [])) as [Hnil|Hnn].
    - exists buf, (dests W'). rewrite decode_extras_skip.
      + split_and!; try done.
        * rewrite Hbb. unfold body. by rewrite Hnil.
        * intros i e l Hi. rewrite Hnil in Hi. by rewrite lookup_nil in Hi.
      + right. rewrite HE, Hnil. done.
    - destruct Hst as [Hz|Hz]; [|done].
      assert (0 < extras_width extras) as Hpos.
      { destruct (decide (extras_width extras = 0)) as [Hz0|]; [|lia].
        by apply extras_width_zero in Hz0. }
      pose proof (decode_extras_run h' (zip_with dest_for extras locs) buf (dests W')
        (is_dest_no_nil _ Hdo) Hwb) as Hrun.
      rewrite HS, Hz, HE, Hwo, Hdo in Hrun.
      destruct (Z.leb_spec (extras_width extras) (extras_width extras)); [|lia].
      destruct Hrun as (buf' & Hde & Hwb' & _ & Hbb'); [done|done|lia|].
      rewrite Hbb in Hde, Hbb'.
      assert (Z.to_nat (extras_width extras) = length (enc_extras extras)) as Hn
        by (rewrite <- length_enc_extras by done; lia).
      rewrite Hn in Hde, Hbb'. unfold body in Hde, Hbb'.
      rewrite take_app_length in Hde. rewrite drop_app_length in Hbb'.
      eexists _, _. split; [exact Hde|]. split_and!; try done.
      rewrite <- (app_nil_r (enc_extras extras)).
      by apply dests_after_enc_extras. }
  assert (0 <= KeyLen (hdr (set_hdr rm h'))) as Hk0 by (cbn [hdr set_hdr]; lia).
  rewrite (decode_body_tail _ buf (set_hdr rm h') _ _ _ Hde Hwb' Hk0) in Hrecv.
  cbn [hdr set_hdr] in Hrecv. rewrite HK, HS in Hrecv.
  rewrite <- (length_buf_bytes_wf buf' Hwb'), Hbb' in Hrecv.
  rewrite length_app, !length_bytes_of in Hrecv.
  destruct (Z.ltb_spec (Z.of_nat (String.length (key m) + String.length (val m)))
              (Z.of_nat (String.length (key m)))); [lia|].
  rewrite Nat2Z.id in Hrecv. rewrite <- (length_bytes_of (key m)) in Hrecv.
  rewrite take_app_length, drop_app_length, !string_of_bytes_of in Hrecv.
  cbn [mbind result_bind] in Hrecv.
  eexists _, _, _, _. split; [exact Hrecv|]. by split_and!.
Qed.

End RoundTrip.

(** The round trip of the [set] request of the tests: flags 0xdeadbeef,
    expiry 3600, key ["foo"], value ["bar"], read back into two 32-bit
    variables. *)
Lemma send_recv_roundtrip_witness :
  ∃ sc' m' c' written,
    @send memcached set_world (sc_with []) set_msg = Ret (None, sc', m') ∧
    conn sc' = Some c' ∧ outgoing c' = written ∧
    ∃ W'' rsc' rm',
      @recv memcached set_world (sc_with written) set_msg = Ret (None, W'', rsc', rm') ∧
      key rm' = "foo" ∧ val rm' = "bar" ∧
      dests W'' !! 0%nat = Some 3735928559 ∧ dests W'' !! 1%nat = Some 3600.
Proof.
  destruct (@send_recv_roundtrip memcached set_world (sc_with []) set_msg
              (conn_with []) new_bufrw)
    as (sc' & m' & c' & written & Hsend & Hc & Hout & Hrecv).
  - reflexivity.
  - reflexivity.
  - split; reflexivity.
  - reflexivity.
  - repeat constructor; vm_compute; congruence.
  - vm_compute; congruence.
  - left; reflexivity.
  - vm_compute; congruence.
  - vm_compute; congruence.
  - exists sc', m', c', written. split; [exact Hsend|]. split; [exact Hc|].
    split; [exact Hout|].
    destruct (Hrecv set_world (sc_with written) set_msg (conn_with written) new_bufrw
                [0; 1]%nat [])
      as (W'' & rsc' & rm' & rc' & Hr & Hk & Hv & Hd & _).
    + reflexivity.
    + reflexivity.
    + exact pools_ok_empty.
    + reflexivity.
    + reflexivity.
    + apply NoDup_cons. split; [|apply NoDup_singleton].
      intros Hin. apply list_elem_of_singleton in Hin. discriminate.
    + simpl. by rewrite app_nil_r.
    + exists W'', rsc', rm'. split; [exact Hr|].
      split; [exact Hk|]. split; [exact Hv|].
      split; [exact (Hd 0%nat _ _ eq_refl eq_refl) | exact (Hd 1%nat _ _ eq_refl eq_refl)].
Defined.

(** The two ways a round trip goes wrong.  Thirty-two 64-bit extras are 256
    bytes: the extras length wraps to 0, the body length says 2, and [recv]
    takes the first two extras bytes for key and value.  A request whose
    status/reserved field is 1 is decoded without its extras: the extras
    byte becomes the key and the destination is never written. *)
Lemma roundtrip_counterexample :
  (Forall in_range (elems (arrays wide_world) (iextras wide_msg)) ∧
   forallb supported (elems (arrays wide_world) (iextras wide_msg)) = true ∧
   ∃ sc' m' c' W'' rsc' rm',
     @send memcached wide_world (sc_with []) wide_msg = Ret (None, sc', m') ∧
     conn sc' = Some c' ∧
     @recv memcached wide_world (sc_with (outgoing c')) wide_msg =
       Ret (None, W'', rsc', rm') ∧
     key rm' ≠ key wide_msg ∧ val rm' ≠ val wide_msg ∧
     dests W'' !! 0%nat ≠ Some 1) ∧
  (Forall in_range (elems (arrays stale_world) (iextras stale_msg)) ∧
   forallb supported (elems (arrays stale_world) (iextras stale_msg)) = true ∧
   ∃ sc' m' c' e W'' rsc' rm',
     @send memcached stale_world (sc_with []) stale_msg = Ret (None, sc', m') ∧
     conn sc' = Some c' ∧
     @recv memcached stale_world (sc_with (outgoing c')) stale_msg =
       Ret (Some e, W'', rsc', rm') ∧
     key rm' ≠ key stale_msg ∧ val rm' ≠ val stale_msg ∧
     dests W'' !! 0%nat ≠ Some 7).
Proof.
  split.
  - split; [apply Forall_forall; intros e He; vm_compute in He;
            apply list_elem_of_In in He; repeat (destruct He as [<-|He]; [by vm_compute|]);
            destruct He|].
    split; [reflexivity|].
    eexists _, _, _, _, _, _.
    split; [vm_compute; reflexivity|]. split; [reflexivity|].
    split; [vm_compute; reflexivity|].
    split_and!; vm_compute; congruence.
  - split; [repeat constructor; by vm_compute|].
    split; [reflexivity|].
    eexists _, _, _, _, _, _, _.
    split; [vm_compute; reflexivity|]. split; [reflexivity|].
    split; [vm_compute; reflexivity|].
    split_and!; vm_compute; congruence.
Qed.

(** ** C2: unsupported extras *)

Section Unsupported.
Context `{Protocol}.

(** C2 (as amended). For every message with an extras element that is not
    an 8/16/32/64-bit unsigned integer, [send] does not return: it panics
    with "mc: unknown extra type" in [sizeOfExtras], before anything is
    written, so the caller is handed no error value. *)
Theorem send_unsupported_panics W sc m :
  forallb supported (elems (arrays W) (iextras m)) = false →
  send W sc m = Panic "mc: unknown extra type".
Proof.
  intros Hu. unfold send, sizeOfExtras.
  by rewrite sizeOfExtras_from_unsupported.
Qed.

End Unsupported.

Lemma send_unsupported_panics_witness :
  forallb supported (elems (arrays odd_world) (iextras odd_msg)) = false ∧
  @send memcached odd_world (sc_with []) odd_msg = Panic "mc: unknown extra type".
Proof.
  split; [reflexivity|].
  apply (@send_unsupported_panics memcached odd_world (sc_with []) odd_msg).
  reflexivity.
Defined.

(** A message with a string among its extras: no error comes back from
    [send], whatever its status. *)
Lemma send_unsupported_counterexample :
  Other "string" ∈ elems (arrays odd_world) (iextras odd_msg) ∧
  ¬ ∃ e sc' m', @send memcached odd_world (sc_with []) odd_msg = Ret (Some e, sc', m').
Proof.
  split; [vm_compute; set_solver|].
  intros (e & sc' & m' & Hs). vm_compute in Hs. discriminate.
Qed.

(** ** C3: the body length *)

Section BodyLength.
Context `{Protocol}.

(** [send] returns as soon as the connection is there and the extras are
    supported; the message then carries the header it computed, and the
    header buffer its encoding. *)
Lemma send_returns W sc m c w :
  let extras := elems (arrays W) (iextras m) in
  conn sc = Some c → rw sc = Some w → forallb supported extras = true →
  ∃ err c' w',
    send W sc m =
      Ret (err,
           set_io (set_hdrBuf (set_opq sc (uint32 (opq sc + 1)))
                     (encode_header (send_header m (uint8 (extras_width extras)) (opq sc))))
                  c' w',
           set_hdr m (send_header m (uint8 (extras_width extras)) (opq sc))) ∧
    (err = None ∨ ∃ x, err = net_error x).
Proof.
  intros extras Hc Hw Hs. unfold send. fold extras.
  rewrite sizeOfExtras_supported by done. cbn [mbind result_bind].
  cbn [conn rw set_hdrBuf set_opq hdrBuf hdr set_hdr key val]. rewrite Hc, Hw.
  assert (∀ c w, ∃ r, write_extras extras c w = Ret r) as Hx.
  { clear -Hs. induction extras as [|e r IH]; intros c w; [by eexists|].
    simpl in Hs. apply andb_prop in Hs as [He Hr].
    destruct e; try discriminate; cbn [write_extras mbind result_bind];
      match goal with |- context [and_then ?r _] =>
        destruct r as [[[x|] c1] w1]; cbn [and_then]; [by eexists|by apply IH] end. }
  assert (∀ s c w, ∃ r, write_string s c w = Ret r) as Hstr.
  { intros s c0 w0. unfold write_string. destruct (0 <? String.length s)%nat; by eexists. }
  destruct (bufio_Write (encode_header _) c w) as [[[x|] c1] w1]; cbn [and_then mbind result_bind].
  { eexists _, _, _. split; [done|]. right. by eexists. }
  destruct (Hx c1 w1) as [[[[x|] c2] w2] ->]; cbn [and_then mbind result_bind].
  { eexists _, _, _. split; [done|]. right. by eexists. }
  destruct (Hstr (key m) c2 w2) as [[[[x|] c3] w3] ->]; cbn [and_then mbind result_bind].
  { eexists _, _, _. split; [done|]. right. by eexists. }
  destruct (Hstr (val m) c3 w3) as [[[[x|] c4] w4] ->]; cbn [and_then mbind result_bind].
  { eexists _, _, _. split; [done|]. right. by eexists. }
  destruct (bufio_Flush c4 w4) as [[[x|] c5] w5].
  { eexists _, _, _. split; [done|]. right. by eexists. }
  eexists _, _, _. split; [done|]. by left.
Qed.

(** C3 (as amended). For every message whose extras are supported and at
    most 255 bytes long, whose key is at most 65535 bytes long and whose
    three segments together stay below 2^32 bytes: once [send] has computed
    and stored the header (on a connection that is there, whether or not the
    writes succeed), the extras length and key length fields are the byte
    lengths of the extras segment and of the key, and
    [BodyLen = ExtraLen + KeyLen + len(val)], in the message and in the
    encoded header alike. *)
Theorem send_body_length W sc m c w :
  let extras := elems (arrays W) (iextras m) in
  conn sc = Some c → rw sc = Some w → forallb supported extras = true →
  extras_width extras <= 255 →
  Z.of_nat (String.length (key m)) <= 65535 →
  extras_width extras + Z.of_nat (String.length (key m))
    + Z.of_nat (String.length (val m)) < 2 ^ 32 →
  ∃ err sc' m',
    send W sc m = Ret (err, sc', m') ∧
    key m' = key m ∧ val m' = val m ∧
    ExtraLen (hdr m') = Z.of_nat (length (enc_extras extras)) ∧
    KeyLen (hdr m') = Z.of_nat (String.length (key m)) ∧
    BodyLen (hdr m') =
      ExtraLen (hdr m') + KeyLen (hdr m') + Z.of_nat (String.length (val m)) ∧
    parse_header (hdrBuf sc') =
      mkHeader (uint8 magicSend) (uint8 (Op (hdr m))) (KeyLen (hdr m'))
        (ExtraLen (hdr m')) (uint8 (DataType (hdr m)))
        (uint16 (ResvOrStatus (hdr m))) (BodyLen (hdr m'))
        (uint32 (opq sc)) (uint64 (CAS (hdr m))).
Proof.
  intros extras Hc Hw Hs He Hk Hb.
  destruct (send_returns W sc m c w Hc Hw Hs) as (err & c' & w' & Hsend & _).
  fold extras in Hsend. pose proof (extras_width_nonneg extras) as H0.
  assert (uint8 (extras_width extras) = extras_width extras) as Hel
    by (apply uint_small; lia).
  rewrite Hel in Hsend.
  assert (uint16 (Z.of_nat (String.length (key m))) = Z.of_nat (String.length (key m)))
    as Hkl by (apply uint_small; lia).
  assert (BodyLen (send_header m (extras_width extras) (opq sc)) =
          extras_width extras + Z.of_nat (String.length (key m))
          + Z.of_nat (String.length (val m))) as Hbl.
  { cbn [BodyLen send_header]. rewrite Hkl. unfold uint32.
    rewrite (uint_small 32 (extras_width extras)) by lia.
    rewrite (uint_small 32 (Z.of_nat (String.length (key m)))) by lia.
    rewrite (uint_small 32 (Z.of_nat (String.length (val m)))) by lia.
    rewrite (uint_small 32 (extras_width extras + Z.of_nat (String.length (key m)))) by lia.
    apply uint_small. lia. }
  eexists _, _, _. split; [exact Hsend|].
  cbn [key val hdr set_hdr hdrBuf set_io set_hdrBuf].
  rewrite parse_encode_header, Hbl. cbn [ExtraLen KeyLen send_header
    Magic Op DataType ResvOrStatus BodyLen Opaque CAS].
  rewrite Hkl, length_enc_extras by done.
  split_and!; try done.
  f_equal; apply uint_small; lia.
Qed.

End BodyLength.

Lemma send_body_length_witness :
  ∃ err sc' m',
    @send memcached set_world (sc_with []) set_msg = Ret (err, sc', m') ∧
    key m' = "foo" ∧ val m' = "bar" ∧
    ExtraLen (hdr m') = 8 ∧ KeyLen (hdr m') = 3 ∧
    BodyLen (hdr m') = ExtraLen (hdr m') + KeyLen (hdr m') + 3 ∧
    parse_header (hdrBuf sc') =
      mkHeader 128 1 (KeyLen (hdr m')) (ExtraLen (hdr m')) 0 0 (BodyLen (hdr m')) 0 0.
Proof.
  apply (@send_body_length memcached set_world (sc_with []) set_msg (conn_with []) new_bufrw).
  - reflexivity.
  - reflexivity.
  - reflexivity.
  - vm_compute; congruence.
  - vm_compute; congruence.
  - vm_compute; reflexivity.
Defined.

(** With 256 bytes of extras the header says [ExtraLen = 0] and
    [BodyLen = 2], while 256 + 1 + 1 bytes follow the header on the wire. *)
Lemma send_body_length_counterexample :
  ∃ sc' m',
    @send memcached wide_world (sc_with []) wide_msg = Ret (None, sc', m') ∧
    length (enc_extras (elems (arrays wide_world) (iextras wide_msg))) = 256%nat ∧
    length (sent_by (@send memcached wide_world (sc_with []) wide_msg)) = (24 + 258)%nat ∧
    ExtraLen (hdr m') = 0 ∧ BodyLen (hdr m') = 2 ∧
    BodyLen (hdr m') ≠
      Z.of_nat (length (enc_extras (elems (arrays wide_world) (iextras wide_msg))))
      + Z.of_nat (String.length (key wide_msg))
      + Z.of_nat (String.length (val wide_msg)).
Proof.
  eexists _, _. split; [vm_compute; reflexivity|].
  split_and!; vm_compute; congruence.
Qed.

(** ** What [send] and [recv] leave of the connection *)

Section Shapes.
Context `{Protocol}.

(** When [send] returns, the connection is still there, nothing was closed,
    and an error, if any, is of the network class. *)
Lemma send_ret_shape W sc m err sc1 m1 :
  send W sc m = Ret (err, sc1, m1) →
  is_Some (conn sc) ∧ is_Some (conn sc1) ∧ is_Some (rw sc1) ∧
  closes sc1 = closes sc ∧
  (∀ e, err = Some e → ∃ x, e = wrapError StatusNetworkError x).
Proof.
  unfold send. destruct (sizeOfExtras _) as [el|]; [|done].
  cbn [mbind result_bind]. cbn [conn rw set_hdrBuf set_opq].
  destruct (conn sc); [|done]. destruct (rw sc); [|done].
  match goal with |- context [mbind _ ?r] => destruct r as [[[[x|] c'] w']|] end;
    cbn [mbind result_bind]; try done.
  - intros [= <- <- _]. split_and!; try done. intros e [= <-]. by exists x.
  - intros [= <- <- _]. split_and!; try done.
Qed.

Lemma recv_ret_shape W sc m err W' sc' m' :
  recv W sc m = Ret (err, W', sc', m') →
  is_Some (conn sc) ∧ is_Some (conn sc') ∧ rw sc' = rw sc ∧ is_Some (rw sc') ∧
  closes sc' = closes sc ∧ arrays W' = arrays W ∧
  iextras m' = iextras m ∧ oextras m' = oextras m.
Proof.
  unfold recv. destruct (conn sc) as [c|] eqn:Hc; [|done].
  destruct (rw sc) as [w|] eqn:Hw; [|done].
  destruct (ReadFull 24 c) as [[[x|] got] c1].
  { intros [= _ <- <- <-]. cbn. rewrite Hw. by split_and!. }
  cbn [hdrBuf set_conn set_hdrBuf hdr set_hdr].
  destruct (getBodyBuffer _ _) as [[body P]|]; [|done]. cbn [mbind result_bind].
  destruct (ReadFull (buf_len body) c1) as [[[x|] got'] c2].
  { intros [= _ <- <- <-]. cbn. rewrite Hw. by split_and!. }
  destruct (decode_body _ _ _ _) as [[[err0 d] m0]|] eqn:Hd; [|done].
  cbn [mbind result_bind]. intros [= _ <- <- <-]. cbn. rewrite Hw.
  split_and!; try done.
  - unfold decode_body in Hd.
    destruct (decode_extras _ _ _ _) as [[[[?|] ?] ?]|]; cbn [mbind result_bind] in Hd;
      try discriminate; [by injection Hd as _ _ <-|].
    destruct (_ <? _); [by injection Hd as _ _ <-|].
    destruct (slice_to _ _); [|done]. destruct (slice_from _ _); [|done].
    cbn [mbind result_bind] in Hd. by injection Hd as _ _ <-.
  - unfold decode_body in Hd.
    destruct (decode_extras _ _ _ _) as [[[[?|] ?] ?]|]; cbn [mbind result_bind] in Hd;
      try discriminate; [by injection Hd as _ _ <-|].
    destruct (_ <? _); [by injection Hd as _ _ <-|].
    destruct (slice_to _ _); [|done]. destruct (slice_from _ _); [|done].
    cbn [mbind result_bind] in Hd. by injection Hd as _ _ <-.
Qed.

Lemma close_conn_closed sc :
  is_Some (conn sc) →
  conn (close_conn sc) = None ∧ rw (close_conn sc) = None ∧
  closes (close_conn sc) = S (closes sc).
Proof. intros [c Hc]. unfold close_conn. rewrite Hc. done. Qed.

Lemma resetConn_network e sc :
  Status e = StatusNetworkError → resetConn e sc = close_conn sc.
Proof. intros He. unfold resetConn. rewrite He. by rewrite Z.eqb_refl. Qed.

Lemma resetConn_other e sc :
  Status e ≠ StatusNetworkError → resetConn e sc = sc.
Proof. intros He. unfold resetConn. by destruct (Z.eqb_spec (Status e) StatusNetworkError). Qed.

(** A well-framed response with a status other than 0 is decoded without its
    extras, and [recv] returns the error [newError] makes of the status. *)
Lemma recv_status_response W sc m c w r rest :
  conn sc = Some c → rw sc = Some w → pools_ok (arena W) →
  r_fits r → r_status r ≠ 0 → incoming c = r_frame r ++ rest →
  ∃ W' m',
    recv W sc m =
      Ret (newError (r_status r), W',
           consumed sc c (encode_header (r_header r)) rest, m') ∧
    pools_ok (arena W').
Proof.
  intros Hc Hw HP (Hst & Hkl & Hel & Hbl) Hs0 Hin.
  unfold r_frame in Hin. rewrite <- app_assoc in Hin.
  set (hb := encode_header (r_header r)) in *.
  assert (parse_header hb =
          mkHeader (uint8 (r_magic r)) (uint8 (r_op r))
            (Z.of_nat (String.length (r_key r))) (Z.of_nat (length (r_extras r)))
            0 (r_status r) (Z.of_nat (length (r_body r))) (uint32 (r_opaque r))
            (uint64 (r_cas r))) as Hp.
  { unfold hb. rewrite parse_encode_header. cbn [r_header Magic Op KeyLen ExtraLen
      DataType ResvOrStatus BodyLen Opaque CAS].
    f_equal; try reflexivity; apply uint_small; lia. }
  destruct (recv_frame W sc m c w hb (r_body r) rest Hc Hw HP Hin eq_refl)
    as (buf & P' & Hwb & Hbb & Hlen & HP' & ->).
  { by rewrite Hp. }
  set (m0 := set_hdr m (parse_header hb)).
  assert (decode_extras (hdr m0) (elems (arrays W) (oextras m)) buf (dests W)
          = Ret (None, buf, dests W)) as Hde.
  { apply decode_extras_skip. left. cbn [hdr m0 set_hdr]. by rewrite Hp. }
  assert (0 <= KeyLen (hdr m0)) as Hk0 by (cbn [hdr m0 set_hdr]; apply field_nonneg).
  rewrite (decode_body_tail _ buf m0 _ _ _ Hde Hwb Hk0).
  cbn [hdr m0 set_hdr]. rewrite Hp. cbn [KeyLen ResvOrStatus].
  destruct (Z.ltb_spec (len buf) (Z.of_nat (String.length (r_key r)))) as [Hlt|_].
  { rewrite Hlen in Hlt. unfold r_body in Hlt.
    rewrite !length_app, length_bytes_of in Hlt. lia. }
  cbn [mbind result_bind]. by eexists _, _.
Qed.

(** ** C7: truncated bodies *)

Lemma ReadFull_length n c err got c' :
  ReadFull n c = (err, got, c') → err = None → length got = n.
Proof.
  unfold ReadFull. destruct (Nat.leb_spec n (length (incoming c))).
  - intros [= <- <- _] _. rewrite length_take. lia.
  - intros [= <- _ _]. done.
Qed.

(** On a connection that is there, with pools in a valid state and
    destinations none of which is a nil pointer, [recv] returns whatever the
    peer sends: no index or slice bound is ever exceeded. *)
Lemma recv_never_panics W sc m :
  is_Some (conn sc) → is_Some (rw sc) → pools_ok (arena W) →
  no_nil_dests (elems (arrays W) (oextras m)) →
  ∃ err W' sc' m', recv W sc m = Ret (err, W', sc', m').
Proof.
  intros [c Hc] [w Hw] HP Hnn. unfold recv. rewrite Hc, Hw.
  destruct (ReadFull 24 c) as [[[x|] got] c1]; [by eauto|].
  cbn [hdrBuf set_conn set_hdrBuf hdr set_hdr].
  rewrite to_int_BodyLen.
  set (h := parse_header _).
  assert (0 <= BodyLen h) as Hb by apply field_nonneg.
  destruct (getBodyBuffer_ok (arena W) (BodyLen h) HP Hb) as (b & P1 & Hg & Hl & Hcap & HP1).
  pose proof (getBodyBuffer_wf _ _ _ _ HP Hb Hg) as Hwb.
  rewrite Hg. cbn [mbind result_bind].
  destruct (ReadFull (buf_len b) c1) as [[[x|] got'] c2] eqn:Hr; [by eauto|].
  apply ReadFull_length in Hr; [|done].
  destruct (buf_bytes_fill b got' Hwb Hr) as (Hwf & _).
  destruct (decode_body_total (elems (arrays W) (oextras (set_hdr m h))) (fill b got')
              (set_hdr m h) (dests W) Hnn Hwf) as (err & d' & m' & ->).
  { cbn [hdr set_hdr]. apply field_nonneg. }
  cbn [mbind result_bind]. by eauto.
Qed.

(** With a nil pointer among the destinations [recv] panics on a response
    of status 0 whose extras segment has room for the pointers before it and
    for the value it would take itself. *)
Lemma recv_nil_destination W sc m c w hb body rest pre e post :
  conn sc = Some c → rw sc = Some w → pools_ok (arena W) →
  incoming c = hb ++ body ++ rest → length hb = 24%nat →
  BodyLen (parse_header hb) = Z.of_nat (length body) →
  ResvOrStatus (parse_header hb) = 0 →
  0 < ExtraLen (parse_header hb) <= Z.of_nat (length body) →
  elems (arrays W) (oextras m) = pre ++ e :: post →
  forallb is_dest pre = true → is_nil_dest e = true →
  extras_width pre + extra_width e <= ExtraLen (parse_header hb) →
  recv W sc m = Panic "invalid memory address or nil pointer dereference".
Proof.
  intros Hc Hw HP Hi Hh Hb Hs [He0 He1] Hox Hpre He Hfit.
  destruct (recv_frame W sc m c w hb body rest Hc Hw HP Hi Hh Hb)
    as (buf & P' & Hwb & Hbb & Hlen & HP' & ->).
  unfold decode_body, decode_extras. cbn [hdr set_hdr]. rewrite Hs, Hox.
  destruct (Z.ltb_spec 0 (ExtraLen (parse_header hb))); [|lia]. cbn [Z.eqb andb].
  destruct (Z.ltb_spec (len buf) (ExtraLen (parse_header hb))); [lia|].
  destruct (slice_to_spec buf (ExtraLen (parse_header hb)) Hwb ltac:(lia) ltac:(lia))
    as (eb & -> & Hwe & Hle & _).
  destruct (slice_from_spec buf (ExtraLen (parse_header hb)) Hwb ltac:(lia) ltac:(lia))
    as (b' & -> & _).
  cbn [mbind result_bind].
  rewrite read_extras_nil; [done|done|done|done|lia|lia].
Qed.

(** C7 (as amended). For every message whose destinations hold no nil
    pointer and every response whose body is shorter than required (too
    short for the widths the destinations need together when the status is 0
    and extras are announced, or leaving fewer bytes than [KeyLen] after the
    extras segment), [recv] returns a network-class error: it does not panic,
    reads nothing beyond the body, leaves key and value of the message as
    they were and releases the body buffer into valid pools.  More generally,
    with such destinations [recv] never panics on a connection that is there,
    whatever the peer sends ([int] being 64 bits wide).  (A destination that
    is a nil pointer is written through as soon as the extras segment has
    room for it: see the counterexample.) *)
Theorem recv_truncated W sc m c w :
  conn sc = Some c → rw sc = Some w → pools_ok (arena W) →
  no_nil_dests (elems (arrays W) (oextras m)) →
  (∃ err W' sc' m', recv W sc m = Ret (err, W', sc', m')) ∧
  ∀ hb body rest,
    incoming c = hb ++ body ++ rest → length hb = 24%nat →
    BodyLen (parse_header hb) = Z.of_nat (length body) →
    truncated (parse_header hb) (elems (arrays W) (oextras m)) (Z.of_nat (length body)) →
    ∃ x W' sc' m' c',
      recv W sc m = Ret (net_error x, W', sc', m') ∧
      key m' = key m ∧ val m' = val m ∧ pools_ok (arena W') ∧
      conn sc' = Some c' ∧ incoming c' = rest.
Proof.
  intros Hc Hw HP Hnn. split.
  { apply recv_never_panics; by eauto. }
  intros hb body rest Hi Hh Hb Ht.
  destruct (recv_frame W sc m c w hb body rest Hc Hw HP Hi Hh Hb)
    as (buf & P' & Hwb & Hbb & Hlen & HP' & ->).
  set (h := parse_header hb) in *. set (oex := elems (arrays W) (oextras m)) in *.
  assert (0 <= KeyLen h) as Hk0 by apply field_nonneg.
  assert (0 <= ExtraLen h) as He0 by apply field_nonneg.
  assert (∀ x d, decode_body oex buf (set_hdr m h) (dests W) = Ret (net_error x, d, set_hdr m h) →
    ∃ x W' sc' m' c',
      (decode_body oex buf (set_hdr m h) (dests W)
         ≫= λ '(err, d, m'), Ret (err, set_arena (set_dests W d) P', consumed sc c hb rest, m'))
        = Ret (net_error x, W', sc', m') ∧
      key m' = key m ∧ val m' = val m ∧ pools_ok (arena W') ∧
      conn sc' = Some c' ∧ incoming c' = rest) as Hdone.
  { intros x d ->. cbn [mbind result_bind]. eexists _, _, _, _, _. by split_and!. }
  destruct (decide (ResvOrStatus h = 0 ∧ 0 < ExtraLen h)) as [[Hs He]|Hn].
  - (* extras are decoded *)
    destruct (Z.lt_ge_cases (len buf) (ExtraLen h)) as [Hl|Hl].
    { eapply Hdone. apply decode_body_error with (buf := buf) (d' := dests W).
      by apply decode_extras_short. }
    pose proof (decode_extras_run h oex buf (dests W) Hnn Hwb Hs He Hl) as Hrun.
    destruct (forallb is_dest oex && (extras_width oex <=? ExtraLen h)) eqn:Hfit.
    + destruct Hrun as (buf' & Hde & Hwb' & Hlb' & _).
      apply andb_prop in Hfit as [_ Hfit]. apply Z.leb_le in Hfit.
      eapply Hdone.
      rewrite (decode_body_tail oex buf (set_hdr m h) _ _ _ Hde Hwb' Hk0).
      cbn [hdr set_hdr].
      destruct (Z.ltb_spec (len buf') (KeyLen h)); [done|].
      exfalso. destruct Ht as [(_ & _ & [Ht|[Ht|Ht]])|Ht]; try lia.
      rewrite Hs in Ht. destruct (Z.ltb_spec 0 (ExtraLen h)); [|lia].
      cbn [Z.eqb andb] in Ht. lia.
    + destruct Hrun as (x & buf' & d' & Hde).
      eapply Hdone. by eapply decode_body_error.
  - (* no extras step *)
    assert (decode_extras h oex buf (dests W) = Ret (None, buf, dests W)) as Hde
      by (apply decode_extras_skip; lia).
    eapply Hdone.
    rewrite (decode_body_tail oex buf (set_hdr m h) _ _ _ Hde Hwb Hk0).
    cbn [hdr set_hdr].
    destruct (Z.ltb_spec (len buf) (KeyLen h)); [done|].
    exfalso. destruct Ht as [(Hs & He & _)|Ht]; [lia|].
    destruct (Z.eqb_spec (ResvOrStatus h) 0); destruct (Z.ltb_spec 0 (ExtraLen h));
      cbn [andb] in Ht; lia.
Qed.

End Shapes.

Lemma recv_truncated_witness :
  ∃ x W' sc' m' c',
    @recv memcached set_world (sc_with short_frame) set_msg =
      Ret (@net_error memcached x, W', sc', m') ∧
    key m' = "foo" ∧ val m' = "bar" ∧ pools_ok (arena W') ∧
    conn sc' = Some c' ∧ incoming c' = [].
Proof.
  apply (proj2 (@recv_truncated memcached set_world (sc_with short_frame) set_msg
                  (conn_with short_frame) new_bufrw eq_refl eq_refl pools_ok_empty
                  eq_refl)
           short_header [x01; x02] []).
  - reflexivity.
  - reflexivity.
  - reflexivity.
  - left. vm_compute. split_and!; try done. left. done.
Defined.

(** A nil [*uint32] before a destination, and a response with four bytes of
    extras: the body is too short for the eight bytes the two destinations
    need, the first of them fits, and [recv] writes through it. *)
Lemma recv_truncated_counterexample :
  let hb := encode_header (r_header flags_only) in
  conn (sc_with (r_frame flags_only)) = Some (conn_with (r_frame flags_only)) ∧
  pools_ok (arena nil_world) ∧
  incoming (conn_with (r_frame flags_only)) = hb ++ r_body flags_only ++ [] ∧
  length hb = 24%nat ∧
  BodyLen (parse_header hb) = Z.of_nat (length (r_body flags_only)) ∧
  elems (arrays nil_world) (oextras nil_msg) = [NilPU32; PU32 0%nat] ∧
  truncated (parse_header hb) (elems (arrays nil_world) (oextras nil_msg))
    (Z.of_nat (length (r_body flags_only))) ∧
  @recv memcached nil_world (sc_with (r_frame flags_only)) nil_msg =
    Panic "invalid memory address or nil pointer dereference".
Proof.
  cbv zeta. split; [reflexivity|]. split; [exact pools_ok_empty|].
  split; [reflexivity|]. split; [reflexivity|]. split; [reflexivity|].
  split; [reflexivity|]. split.
  - left. vm_compute. split_and!; try done. right. left. done.
  - apply (@recv_nil_destination memcached nil_world (sc_with (r_frame flags_only)) nil_msg
             (conn_with (r_frame flags_only)) new_bufrw
             (encode_header (r_header flags_only)) (r_body flags_only) []
             [] NilPU32 [PU32 0%nat]);
      first [reflexivity | exact pools_ok_empty | by vm_compute].
Qed.

(** ** C4: teardown in [sendRecv] *)

Section Teardown.
Context `{Protocol}.

(** C4. For every call of [sendRecv]: when [send] returns an error, the
    error is of the network class, the connection is closed once ([conn] and
    [rw] nil, one more [Close]) and that error is returned; when [recv]
    returns a network-class error, the same; when [recv] returns an error of
    another class, nothing is closed: the connection is as [recv] left it,
    still up.  That is the case of every well-framed response with a status
    other than 0 whose error is not of the network class: the call returns
    that error and the connection stays up, ready for the bytes after the
    response. *)
Theorem sendRecv_teardown W sc m :
  wrapError_keeps_status →
  (∀ e sc1 m1,
     send W sc m = Ret (Some e, sc1, m1) →
     Status e = StatusNetworkError ∧
     ∃ sc2, sendRecv W sc m = Ret (Some e, W, sc2, m1) ∧
            conn sc2 = None ∧ rw sc2 = None ∧ closes sc2 = S (closes sc)) ∧
  (∀ sc1 m1 e W2 sc2 m2,
     send W sc m = Ret (None, sc1, m1) →
     recv W sc1 m1 = Ret (Some e, W2, sc2, m2) →
     (Status e = StatusNetworkError →
      ∃ sc3, sendRecv W sc m = Ret (Some e, W2, sc3, m2) ∧
             conn sc3 = None ∧ rw sc3 = None ∧ closes sc3 = S (closes sc)) ∧
     (Status e ≠ StatusNetworkError →
      sendRecv W sc m = Ret (Some e, W2, sc2, m2) ∧
      is_Some (conn sc2) ∧ is_Some (rw sc2) ∧ closes sc2 = closes sc)) ∧
  (∀ sc1 m1 c1 r rest e,
     send W sc m = Ret (None, sc1, m1) → conn sc1 = Some c1 →
     pools_ok (arena W) → r_fits r → r_status r ≠ 0 →
     incoming c1 = r_frame r ++ rest →
     newError (r_status r) = Some e → Status e ≠ StatusNetworkError →
     ∃ W2 sc2 m2 c2,
       sendRecv W sc m = Ret (Some e, W2, sc2, m2) ∧
       conn sc2 = Some c2 ∧ incoming c2 = rest ∧ is_Some (rw sc2) ∧
       closes sc2 = closes sc).
Proof.
  intros Hwrap. split_and!.
  - intros e sc1 m1 Hs.
    destruct (send_ret_shape _ _ _ _ _ _ Hs) as (_ & Hc1 & _ & Hcl & He).
    destruct (He e eq_refl) as [x ->].
    split; [apply Hwrap|].
    exists (close_conn sc1). unfold sendRecv. rewrite Hs. cbn [mbind result_bind].
    rewrite resetConn_network by apply Hwrap.
    destruct (close_conn_closed sc1 Hc1) as (? & ? & ?). split_and!; try done. congruence.
  - intros sc1 m1 e W2 sc2 m2 Hs Hr.
    destruct (send_ret_shape _ _ _ _ _ _ Hs) as (_ & _ & _ & Hcl & _).
    destruct (recv_ret_shape _ _ _ _ _ _ _ Hr) as (_ & Hc2 & _ & Hrw2 & Hcl2 & _).
    unfold sendRecv. rewrite Hs. cbn [mbind result_bind]. rewrite Hr.
    cbn [mbind result_bind]. split; intros He.
    + exists (close_conn sc2). rewrite resetConn_network by done.
      destruct (close_conn_closed sc2 Hc2) as (? & ? & ?). split_and!; try done. congruence.
    + rewrite resetConn_other by done. split_and!; try done. congruence.
  - intros sc1 m1 c1 r rest e Hs Hc1 HP Hfit Hs0 Hin Hne He.
    destruct (send_ret_shape _ _ _ _ _ _ Hs) as (_ & _ & [w1 Hw1] & Hcl & _).
    destruct (recv_status_response W sc1 m1 c1 w1 r rest Hc1 Hw1 HP Hfit Hs0 Hin)
      as (W2 & m2 & Hr & _).
    rewrite Hne in Hr.
    eexists _, _, _, _. split.
    + unfold sendRecv. rewrite Hs. cbn [mbind result_bind]. rewrite Hr.
      cbn [mbind result_bind]. by rewrite resetConn_other.
    + cbn. rewrite Hw1. split_and!; try done.
Qed.

End Teardown.

Lemma memcached_wrapError : @wrapError_keeps_status memcached.
Proof. intros s e. reflexivity. Qed.

Lemma memcached_newError_ok : @newError_ok memcached.
Proof. reflexivity. Qed.

(** A write that fails, a stream that ends before the response, and a "key
    not found" response. *)
Lemma sendRecv_teardown_witness :
  (∃ e sc2 m1,
     @sendRecv memcached set_world sc_broken set_msg = Ret (Some e, set_world, sc2, m1) ∧
     Status e = 65527 ∧ conn sc2 = None ∧ rw sc2 = None ∧ closes sc2 = 1%nat) ∧
  (∃ e W2 sc3 m2,
     @sendRecv memcached set_world (sc_with []) set_msg = Ret (Some e, W2, sc3, m2) ∧
     Status e = 65527 ∧ conn sc3 = None ∧ rw sc3 = None ∧ closes sc3 = 1%nat) ∧
  (∃ e W2 sc2 m2,
     @sendRecv memcached set_world (sc_with (r_frame not_found ++ [])) set_msg =
       Ret (Some e, W2, sc2, m2) ∧
     Status e = 1 ∧ is_Some (conn sc2) ∧ is_Some (rw sc2) ∧ closes sc2 = 0%nat).
Proof.
  split; [|split].
  - destruct (@sendRecv_teardown memcached set_world sc_broken set_msg memcached_wrapError)
      as (H1 & _ & _).
    edestruct H1 as (Hst & sc2 & Hsr & Hc & Hr & Hcl); [vm_compute; reflexivity|].
    eexists _, sc2, _. split; [exact Hsr|]. by split_and!.
  - destruct (@sendRecv_teardown memcached set_world (sc_with []) set_msg memcached_wrapError)
      as (_ & H2 & _).
    edestruct H2 as [Hnet _]; [vm_compute; reflexivity|vm_compute; reflexivity|].
    destruct Hnet as (sc3 & Hsr & Hc & Hr & Hcl); [reflexivity|].
    eexists _, _, sc3, _. split; [exact Hsr|]. by split_and!.
  - destruct (@sendRecv_teardown memcached set_world (sc_with (r_frame not_found ++ []))
                set_msg memcached_wrapError) as (_ & _ & H3).
    edestruct H3 with (r := not_found) (rest := @nil byte)
      as (W2 & sc2 & m2 & c2 & Hsr & Hc & Hi & Hrw & Hcl).
    + vm_compute; reflexivity.
    + reflexivity.
    + exact pools_ok_empty.
    + repeat split; by vm_compute.
    + by vm_compute.
    + reflexivity.
    + reflexivity.
    + by vm_compute.
    + eexists _, W2, sc2, m2. split; [exact Hsr|]. split_and!; try done.
Defined.

(** ** C6: authentication failures in [connect] *)

Section Connect.
Context `{Protocol}.

(** The connection after [sendRecv]: untouched after a success or an error
    of another class, closed once after a network-class error. *)
Lemma sendRecv_ret_shape W sc m err W' sc' m' :
  wrapError_keeps_status →
  sendRecv W sc m = Ret (err, W', sc', m') →
  match err with
  | None => is_Some (conn sc') ∧ is_Some (rw sc') ∧ closes sc' = closes sc
  | Some e =>
    (Status e = StatusNetworkError ∧ conn sc' = None ∧ rw sc' = None ∧
     closes sc' = S (closes sc)) ∨
    (Status e ≠ StatusNetworkError ∧ is_Some (conn sc') ∧ is_Some (rw sc') ∧
     closes sc' = closes sc)
  end.
Proof.
  intros Hwrap Hsr. unfold sendRecv in Hsr.
  destruct (send W sc m) as [[[[e|] sc1] m1]|] eqn:Hs; cbn [mbind result_bind] in Hsr;
    [| |done].
  - destruct (send_ret_shape _ _ _ _ _ _ Hs) as (_ & Hc1 & _ & Hcl & He).
    destruct (He e eq_refl) as [x ->]. injection Hsr as <- <- <- <-.
    rewrite resetConn_network by apply Hwrap.
    destruct (close_conn_closed sc1 Hc1) as (? & ? & ?).
    left. split_and!; try done; first [apply Hwrap | congruence].
  - destruct (send_ret_shape _ _ _ _ _ _ Hs) as (_ & _ & _ & Hcl1 & _).
    destruct (recv W sc1 m1) as [[[[[e|] W2] sc2] m2]|] eqn:Hr; cbn [mbind result_bind] in Hsr;
      [| |done].
    + destruct (recv_ret_shape _ _ _ _ _ _ _ Hr) as (_ & Hc2 & _ & Hrw2 & Hcl2 & _).
      injection Hsr as <- <- <- <-.
      destruct (decide (Status e = StatusNetworkError)) as [He|He].
      * rewrite resetConn_network by done.
        destruct (close_conn_closed sc2 Hc2) as (? & ? & ?).
        left. split_and!; try done. congruence.
      * rewrite resetConn_other by done. right. split_and!; try done. congruence.
    + injection Hsr as <- <- <- <-.
      destruct (recv_ret_shape _ _ _ _ _ _ _ Hr) as (_ & Hc2 & _ & Hrw2 & Hcl2 & _).
      split_and!; try done. congruence.
Qed.

(** The connection after [auth]: when it fails, either a network-class
    error closed the connection once, or the connection is still up. *)
Lemma auth_ret_shape W sc err W' sc' :
  wrapError_keeps_status →
  is_Some (conn sc) → is_Some (rw sc) →
  auth W sc = Ret (err, W', sc') →
  match err with
  | None => is_Some (conn sc') ∧ is_Some (rw sc') ∧ closes sc' = closes sc
  | Some e =>
    (Status e = StatusNetworkError ∧ conn sc' = None ∧ rw sc' = None ∧
     closes sc' = S (closes sc)) ∨
    (is_Some (conn sc') ∧ is_Some (rw sc') ∧ closes sc' = closes sc ∧
     (Status e ≠ StatusNetworkError ∨ Status e = StatusAuthUnknown))
  end.
Proof.
  intros Hwrap Hc Hrw. unfold auth.
  destruct (_ && _).
  { intros [= <- <- <-]. done. }
  unfold authList.
  destruct (sendRecv W sc _) as [[[[err1 W1] sc1] m1]|] eqn:Hl; cbn [mbind result_bind]; [|done].
  pose proof (sendRecv_ret_shape _ _ _ _ _ _ _ Hwrap Hl) as Hs1.
  destruct err1 as [e1|].
  { intros [= <- <- <-]. destruct Hs1 as [?|(? & ? & ? & ?)]; [by left|right]. by split_and!; auto. }
  destruct Hs1 as (Hc1 & Hrw1 & Hcl1).
  destruct (contains "PLAIN" (val m1)).
  - unfold authPlain.
    destruct (sendRecv W1 sc1 _) as [[[[err2 W2] sc2] m2]|] eqn:Hp; cbn [mbind result_bind]; [|done].
    pose proof (sendRecv_ret_shape _ _ _ _ _ _ _ Hwrap Hp) as Hs2.
    intros [= <- <- <-]. destruct err2 as [e2|].
    + destruct Hs2 as [(? & ? & ? & ?)|(? & ? & ? & ?)]; [left|right]; split_and!; auto; congruence.
    + destruct Hs2 as (? & ? & ?). split_and!; auto; congruence.
  - intros [= <- <- <-]. right. split_and!; auto.
Qed.

(** C6. For every connection attempt that reaches the authentication
    exchange: when that exchange fails (which takes credentials), then if
    the failure has status unknown-command, [connect] returns success and the
    connection stays established; with any other status (the server
    rejecting the credentials, a mechanism list without PLAIN, a network
    error) [connect] returns that error and leaves the connection
    disconnected, the socket closed exactly once. *)
Theorem connect_auth_failure W sc c e W' sc' :
  wrapError_keeps_status → StatusUnknownCommand ≠ StatusNetworkError →
  String.eqb (scheme sc) "tcp" && negb (isTCP c) = false →
  auth W (set_rw (set_conn sc c) new_bufrw) = Ret (Some e, W', sc') →
  (username sc ≠ "" ∨ password sc ≠ "") ∧
  (Status e = StatusUnknownCommand →
     connect (Dialed c) W sc = Ret (None, W', sc') ∧
     is_Some (conn sc') ∧ is_Some (rw sc') ∧ closes sc' = closes sc) ∧
  (Status e ≠ StatusUnknownCommand →
     ∃ sc'', connect (Dialed c) W sc = Ret (Some e, W', sc'') ∧
             conn sc'' = None ∧ rw sc'' = None ∧ closes sc'' = S (closes sc)).
Proof.
  intros Hwrap Hne Htcp Ha.
  assert (is_Some (conn (set_rw (set_conn sc c) new_bufrw))) as Hc0 by (by eexists).
  assert (is_Some (rw (set_rw (set_conn sc c) new_bufrw))) as Hr0 by (by eexists).
  pose proof (auth_ret_shape _ _ _ _ _ Hwrap Hc0 Hr0 Ha) as Hs.
  cbn [closes set_rw set_conn] in Hs.
  split_and!.
  - unfold auth in Ha. cbn [username password set_rw set_conn] in Ha.
    destruct (username sc) as [|a u]; [|by left].
    destruct (password sc) as [|a p]; [|by right].
    simpl in Ha. discriminate.
  - intros He. unfold connect. cbn [scheme set_conn]. rewrite Htcp, Ha.
    cbn [mbind result_bind]. rewrite He, Z.eqb_refl. cbn [negb].
    destruct Hs as [(Hn & _)|(? & ? & ? & _)]; [congruence|done].
  - intros He. unfold connect. cbn [scheme set_conn]. rewrite Htcp, Ha.
    cbn [mbind result_bind].
    destruct (Z.eqb_spec (Status e) StatusUnknownCommand); [done|]. cbn [negb].
    exists (close_conn sc'). split; [done|].
    destruct Hs as [(_ & Hc & Hr & Hcl)|(Hc & Hr & Hcl & _)].
    + unfold close_conn. rewrite Hc. done.
    + destruct (close_conn_closed sc' Hc) as (? & ? & ?). split_and!; try done. congruence.
Qed.

End Connect.

(** A server without authentication support, one that rejects the
    credentials, and one that offers no PLAIN mechanism. *)
Lemma connect_auth_failure_witness :
  (∃ W' sc',
     @connect memcached (Dialed (conn_with (r_frame no_auth))) set_world sc_user =
       Ret (None, W', sc') ∧
     is_Some (conn sc') ∧ is_Some (rw sc') ∧ closes sc' = 0%nat) ∧
  (∃ e W' sc'',
     @connect memcached (Dialed (conn_with (r_frame auth_denied))) set_world sc_user =
       Ret (Some e, W', sc'') ∧
     Status e = 32 ∧ conn sc'' = None ∧ rw sc'' = None ∧ closes sc'' = 1%nat) ∧
  (∃ e W' sc'',
     @connect memcached (Dialed (conn_with (r_frame auth_cram))) set_world sc_user =
       Ret (Some e, W', sc'') ∧
     Status e = 65535 ∧ conn sc'' = None ∧ rw sc'' = None ∧ closes sc'' = 1%nat).
Proof.
  split; [|split].
  - edestruct (@connect_auth_failure memcached set_world sc_user
                 (conn_with (r_frame no_auth))) as (_ & Hu & _);
      [exact memcached_wrapError | by vm_compute | reflexivity | vm_compute; reflexivity |].
    destruct Hu as (Hc & ? & ? & ?); [reflexivity|].
    eexists _, _. split; [exact Hc|]. by split_and!.
  - edestruct (@connect_auth_failure memcached set_world sc_user
                 (conn_with (r_frame auth_denied))) as (_ & _ & Ho);
      [exact memcached_wrapError | by vm_compute | reflexivity | vm_compute; reflexivity |].
    destruct Ho as (sc'' & Hc & ? & ? & ?); [by vm_compute|].
    eexists _, _, sc''. split; [exact Hc|]. by split_and!.
  - edestruct (@connect_auth_failure memcached set_world sc_user
                 (conn_with (r_frame auth_cram))) as (_ & _ & Ho);
      [exact memcached_wrapError | by vm_compute | reflexivity | vm_compute; reflexivity |].
    destruct Ho as (sc'' & Hc & ? & ? & ?); [by vm_compute|].
    eexists _, _, sc''. split; [exact Hc|]. by split_and!.
Defined.

(** ** C8: collecting statistics *)

Section Stats.
Context `{Protocol}.

(** [recv] on a well-framed response whose extras the destinations can
    take. *)
Lemma recv_response W sc m c w r rest :
  conn sc = Some c → rw sc = Some w → pools_ok (arena W) →
  stat_ok (elems (arrays W) (oextras m)) r →
  incoming c = r_frame r ++ rest →
  ∃ W' m',
    recv W sc m =
      Ret (newError 0, W', consumed sc c (encode_header (r_header r)) rest, m') ∧
    key m' = r_key r ∧ val m' = r_val r ∧
    KeyLen (hdr m') = Z.of_nat (String.length (r_key r)) ∧
    pools_ok (arena W') ∧ arrays W' = arrays W ∧ oextras m' = oextras m.
Proof.
  intros Hc Hw HP ((Hst & Hkl & Hel & Hbl) & Hs0 & Hacc) Hin.
  unfold r_frame in Hin. rewrite <- app_assoc in Hin.
  set (hb := encode_header (r_header r)) in *.
  assert (parse_header hb =
          mkHeader (uint8 (r_magic r)) (uint8 (r_op r))
            (Z.of_nat (String.length (r_key r))) (Z.of_nat (length (r_extras r)))
            0 0 (Z.of_nat (length (r_body r))) (uint32 (r_opaque r))
            (uint64 (r_cas r))) as Hp.
  { unfold hb. rewrite parse_encode_header. cbn [r_header Magic Op KeyLen ExtraLen
      DataType ResvOrStatus BodyLen Opaque CAS]. rewrite Hs0.
    f_equal; try reflexivity; apply uint_small; lia. }
  destruct (recv_frame W sc m c w hb (r_body r) rest Hc Hw HP Hin eq_refl)
    as (buf & P' & Hwb & Hbb & Hlen & HP' & Hrecv).
  { by rewrite Hp. }
  set (oex := elems (arrays W) (oextras m)) in *.
  set (m0 := set_hdr m (parse_header hb)) in *.
  assert (∃ buf' d',
    decode_extras (hdr m0) oex buf (dests W) = Ret (None, buf', d') ∧
    wf_buf buf' ∧ buf_bytes buf' = bytes_of (r_key r) ++ bytes_of (r_val r))
    as (buf' & d' & Hde & Hwb' & Hbb').
  { cbn [hdr m0 set_hdr]. rewrite Hp.
    destruct (decide (r_extras r = [])) as [Hnil|Hnn].
    - exists buf, (dests W). rewrite decode_extras_skip.
      + split_and!; try done. rewrite Hbb. unfold r_body. by rewrite Hnil.
      + right. cbn [ExtraLen]. rewrite Hnil. done.
    - destruct Hacc as [Hacc|[Hd Hfit]]; [done|].
      assert (0 < Z.of_nat (length (r_extras r))) as Hpos
        by (destruct (r_extras r); [done|simpl; lia]).
      pose proof (decode_extras_run
        (mkHeader (uint8 (r_magic r)) (uint8 (r_op r))
            (Z.of_nat (String.length (r_key r))) (Z.of_nat (length (r_extras r)))
            0 0 (Z.of_nat (length (r_body r))) (uint32 (r_opaque r))
            (uint64 (r_cas r))) oex buf (dests W) (is_dest_no_nil _ Hd) Hwb eq_refl Hpos)
        as Hrun.
      cbn [ExtraLen] in Hrun. rewrite Hd in Hrun.
      destruct (Z.leb_spec (extras_width oex) (Z.of_nat (length (r_extras r)))); [|lia].
      destruct Hrun as (buf' & Hde & Hwb' & _ & Hbb').
      { rewrite Hlen. unfold r_body. rewrite length_app. lia. }
      rewrite Hbb, Nat2Z.id in Hbb'. unfold r_body in Hbb'.
      rewrite drop_app_length in Hbb'. by eauto. }
  assert (0 <= KeyLen (hdr m0)) as Hk0 by (cbn [hdr m0 set_hdr]; apply field_nonneg).
  rewrite (decode_body_tail oex buf m0 _ _ _ Hde Hwb' Hk0) in Hrecv.
  cbn [hdr m0 set_hdr] in Hrecv. rewrite Hp in Hrecv.
  cbn [KeyLen ResvOrStatus] in Hrecv.
  rewrite <- (length_buf_bytes_wf buf' Hwb'), Hbb' in Hrecv.
  rewrite length_app, !length_bytes_of in Hrecv.
  destruct (Z.ltb_spec (Z.of_nat (String.length (r_key r) + String.length (r_val r)))
              (Z.of_nat (String.length (r_key r)))); [lia|].
  rewrite Nat2Z.id in Hrecv. rewrite <- (length_bytes_of (r_key r)) in Hrecv.
  rewrite take_app_length, drop_app_length, !string_of_bytes_of in Hrecv.
  cbn [mbind result_bind] in Hrecv.
  eexists _, _. split; [exact Hrecv|]. split_and!; try done.
  cbn [hdr set_key_val m0 set_hdr]. by rewrite Hp.
Qed.

Lemma length_frames rs : (length rs ≤ length (frames rs))%nat.
Proof.
  induction rs as [|r rs IH]; [done|].
  unfold frames in *. cbn [fmap list_fmap concat]. unfold r_frame at 1.
  rewrite !length_app, length_encode_header. simpl. lia.
Qed.

(** The loop takes the responses one by one and records each pair. *)
Lemma recv_stats_run rs : ∀ fuel W sc m stats c w tail,
  newError_ok →
  conn sc = Some c → rw sc = Some w → pools_ok (arena W) →
  Forall (stat_ok (elems (arrays W) (oextras m))) rs →
  Forall (fun r => r_key r ≠ "") rs →
  incoming c = frames rs ++ tail →
  ∃ W' sc' m' c',
    recv_stats (length rs + fuel) W sc m stats =
      recv_stats fuel W' sc' m' (foldl (fun s r => <[r_key r := r_val r]> s) stats rs) ∧
    conn sc' = Some c' ∧ rw sc' = Some w ∧ incoming c' = tail ∧
    pools_ok (arena W') ∧ arrays W' = arrays W ∧ oextras m' = oextras m ∧
    closes sc' = closes sc.
Proof.
  induction rs as [|r rs IH]; intros fuel W sc m stats c w tail Hok Hc Hw HP Hrs Hks Hin.
  { exists W, sc, m, c. by split_and!. }
  apply Forall_cons in Hrs as [Hr Hrs]. apply Forall_cons in Hks as [Hk Hks].
  unfold frames in Hin. cbn [fmap list_fmap concat] in Hin. rewrite <- app_assoc in Hin.
  destruct (recv_response W sc m c w r _ Hc Hw HP Hr Hin)
    as (W1 & m1 & Hrecv & Hk1 & Hv1 & Hkl & HP1 & Ha1 & Ho1).
  rewrite Hok in Hrecv.
  set (sc1 := consumed sc c (encode_header (r_header r)) (concat (r_frame <$> rs) ++ tail)) in *.
  destruct (IH fuel W1 sc1 m1 (<[r_key r := r_val r]> stats)
              (mkNetConn (concat (r_frame <$> rs) ++ tail) (outgoing c) (write_error c) (isTCP c))
              w tail Hok eq_refl Hw HP1)
    as (W' & sc' & m' & c' & Hrun & Hc' & Hw' & Hi' & HP' & Ha' & Ho' & Hcl');
    [by rewrite Ha1, Ho1|done|done|].
  exists W', sc', m', c'. split_and!; try done; try congruence.
  cbn [length Nat.add recv_stats]. rewrite Hrecv, Hkl.
  destruct (Z.eqb_spec (Z.of_nat (String.length (r_key r))) 0) as [Hz|_].
  { destruct (r_key r); [done|simpl in Hz; lia]. }
  by rewrite Hk1, Hv1.
Qed.

(** C8. For every sequence of well-formed responses with non-empty keys
    delivered to [sendRecvStats]: (a) when a well-formed response with an
    empty key follows, the call returns without error the map of the pairs
    received before it, in order, the terminating response not being
    recorded, and the connection stays up; (b) when instead the next [recv]
    returns an error, the call returns that error with the pairs received so
    far, having closed the connection once if the error is of the network
    class and not at all otherwise. *)
Theorem sendRecvStats_accumulates W sc m c w rs tail :
  wrapError_keeps_status → newError_ok →
  conn sc = Some c → rw sc = Some w → healthy c w → pools_ok (arena W) →
  forallb supported (elems (arrays W) (iextras m)) = true →
  Forall (stat_ok (elems (arrays W) (oextras m))) rs →
  Forall (fun r => r_key r ≠ "") rs →
  incoming c = frames rs ++ tail →
  (∀ t rest,
     stat_ok (elems (arrays W) (oextras m)) t → r_key t = "" →
     tail = r_frame t ++ rest →
     ∃ W' sc' m' c',
       sendRecvStats W sc m = Some (Ret (Some (stats_of rs), None, W', sc', m')) ∧
       stats_of rs !! "" = None ∧
       conn sc' = Some c' ∧ incoming c' = rest ∧ closes sc' = closes sc) ∧
  (∃ W1 sc1 m1 c1,
     conn sc1 = Some c1 ∧ incoming c1 = tail ∧ closes sc1 = closes sc ∧
     is_Some (rw sc1) ∧ pools_ok (arena W1) ∧ arrays W1 = arrays W ∧
     oextras m1 = oextras m ∧
     ∀ e W2 sc2 m2,
       recv W1 sc1 m1 = Ret (Some e, W2, sc2, m2) →
       sendRecvStats W sc m =
         Some (Ret (Some (stats_of rs), Some e, W2, resetConn e sc2, m2)) ∧
       (Status e = StatusNetworkError →
          conn (resetConn e sc2) = None ∧ rw (resetConn e sc2) = None ∧
          closes (resetConn e sc2) = S (closes sc)) ∧
       (Status e ≠ StatusNetworkError →
          resetConn e sc2 = sc2 ∧ is_Some (conn sc2) ∧ closes sc2 = closes sc)).
Proof.
  intros Hwrap Hok Hc Hw Hh HP Hs Hrs Hks Hin.
  destruct (send_ok W sc m c w Hc Hw Hh Hs) as (c0 & Hsend & _ & Hi0 & _ & _).
  set (sc0 := set_io _ c0 new_bufrw) in Hsend. set (m0 := set_hdr m _) in Hsend.
  assert (stats_fuel sc0 = (length rs + S (length (incoming c) - length rs))%nat) as Hfuel.
  { unfold stats_fuel, sc0. cbn [conn set_io]. rewrite Hi0.
    pose proof (length_frames rs) as Hl. rewrite Hin, length_app. lia. }
  destruct (recv_stats_run rs (S (length (incoming c) - length rs)) W sc0 m0 ∅ c0
              new_bufrw tail Hok eq_refl eq_refl HP Hrs Hks ltac:(congruence))
    as (W1 & sc1 & m1 & c1 & Hrun & Hc1 & Hw1 & Hi1 & HP1 & Ha1 & Ho1 & Hcl1).
  fold (stats_of rs) in Hrun.
  assert (closes sc0 = closes sc) as Hcl0 by done.
  split.
  - intros t rest Ht Hkt ->.
    destruct (recv_response W1 sc1 m1 c1 new_bufrw t rest Hc1 Hw1 HP1
                ltac:(by rewrite Ha1, Ho1) Hi1)
      as (W2 & m2 & Hrecv & Hk2 & Hv2 & Hkl2 & HP2 & Ha2 & Ho2).
    rewrite Hok in Hrecv.
    exists W2, (consumed sc1 c1 (encode_header (r_header t)) rest), m2,
      (mkNetConn rest (outgoing c1) (write_error c1) (isTCP c1)).
    split_and!.
    + unfold sendRecvStats. rewrite Hsend, Hfuel, Hrun.
      cbn [recv_stats]. rewrite Hrecv, Hkl2, Hkt. done.
    + clear -Hks. unfold stats_of.
      generalize (∅ : gmap string string) (lookup_empty (M:=gmap string) (A:=string) "").
      induction rs as [|r rs IH]; intros s Hs0; [done|].
      apply Forall_cons in Hks as [Hk Hks]. cbn [foldl]. apply IH; [done|].
      by rewrite lookup_insert_ne.
    + done.
    + done.
    + cbn [closes consumed set_conn set_hdrBuf]. congruence.
  - exists W1, sc1, m1, c1. split_and!; try congruence; [by eexists|by rewrite Ho1|].
    intros e W2 sc2 m2 Hrecv.
    destruct (recv_ret_shape _ _ _ _ _ _ _ Hrecv) as (_ & Hc2 & _ & _ & Hcl2 & _).
    split_and!.
    + unfold sendRecvStats. rewrite Hsend, Hfuel, Hrun.
      cbn [recv_stats]. by rewrite Hrecv.
    + intros He. rewrite resetConn_network by done.
      destruct (close_conn_closed sc2 Hc2) as (? & ? & ?). split_and!; try done. congruence.
    + intros He. rewrite resetConn_other by done. split_and!; try done. congruence.
Qed.

(** A stream that ends before a header is complete makes [recv] fail with a
    network-class error. *)
Lemma recv_short_header W sc m c :
  conn sc = Some c → is_Some (rw sc) → (length (incoming c) < 24)%nat →
  ∃ x sc', recv W sc m = Ret (net_error x, W, sc', m).
Proof.
  intros Hc [w Hw] Hl. unfold recv. rewrite Hc, Hw.
  destruct (ReadFull_short 24 c Hl) as [x ->]. by eexists _, _.
Qed.

(** Every round that goes on has taken a header off the stream. *)
Lemma recv_consumes W sc m W' sc' m' :
  recv W sc m = Ret (None, W', sc', m') →
  ∃ c c', conn sc = Some c ∧ conn sc' = Some c' ∧
          (length (incoming c') + 24 ≤ length (incoming c))%nat.
Proof.
  unfold recv. destruct (conn sc) as [c|]; [|done]. destruct (rw sc); [|done].
  unfold ReadFull at 1.
  destruct (Nat.leb_spec 24 (length (incoming c))) as [Hl|Hl]; [|done].
  cbn [hdrBuf set_conn set_hdrBuf hdr set_hdr].
  destruct (getBodyBuffer _ _) as [[body P]|]; [|done]. cbn [mbind result_bind].
  unfold ReadFull. cbn [incoming].
  destruct (Nat.leb_spec (buf_len body) (length (drop 24 (incoming c)))); [|done].
  destruct (decode_body _ _ _ _) as [[[err d] m0]|]; [|done].
  cbn [mbind result_bind]. intros [= -> _ <- _].
  eexists _, _. split; [done|]. split; [done|].
  cbn [incoming]. rewrite !length_drop. lia.
Qed.

(** The fuel of the model is enough.  In this model the peer is a finite
    transcript (the bytes it delivers before the stream ends or a read times
    out), and on such a transcript the loop is never cut short: [None] does
    not arise.  This is a fact about the model, which needs it to define the
    loop; the loop of the source has no bound, and nothing here speaks of a
    peer that keeps sending entries. *)
Lemma recv_stats_fuel_enough fuel : ∀ W sc m stats,
  (0 < fuel)%nat → (∀ c, conn sc = Some c → (length (incoming c) < fuel)%nat) →
  recv_stats fuel W sc m stats ≠ None.
Proof.
  induction fuel as [|fuel IH]; intros W sc m stats Hpos Hlen; [lia|].
  cbn [recv_stats].
  destruct (recv W sc m) as [[[[[e|] W1] sc1] m1]|] eqn:Hr; try done.
  destruct (KeyLen (hdr m1) =? 0); [done|].
  destruct (recv_consumes _ _ _ _ _ _ Hr) as (c & c1 & Hc & Hc1 & Hl).
  specialize (Hlen c Hc).
  apply IH; [lia|]. intros c' Hc'. rewrite Hc1 in Hc'. injection Hc' as <-. lia.
Qed.

Lemma sendRecvStats_fuel_enough W sc m : sendRecvStats W sc m ≠ None.
Proof.
  unfold sendRecvStats.
  destruct (send W sc m) as [[[[e|] sc1] m1]|]; try done.
  pose proof (recv_stats_fuel_enough (stats_fuel sc1) W sc1 m1 ∅) as Ht.
  destruct (recv_stats (stats_fuel sc1) W sc1 m1 ∅) as [[[[[[? ?] ?] ?] ?]|]|]; try done.
  exfalso. apply Ht; [| |reflexivity].
  - unfold stats_fuel. destruct (conn sc1); lia.
  - intros c Hc. unfold stats_fuel. rewrite Hc. lia.
Qed.

End Stats.

(** Two statistics and the terminating response; and a stream that ends
    after the first statistic. *)
Lemma sendRecvStats_accumulates_witness :
  (∃ W' sc' m' c',
     @sendRecvStats memcached set_world
        (sc_with (frames [stat_pid; stat_uptime] ++ r_frame stat_end ++ [])) stat_msg =
       Some (Ret (Some (stats_of [stat_pid; stat_uptime]), None, W', sc', m')) ∧
     stats_of [stat_pid; stat_uptime] !! "" = None ∧
     conn sc' = Some c' ∧ incoming c' = [] ∧ closes sc' = 0%nat) ∧
  (∃ e W2 sc2 m2,
     @sendRecvStats memcached set_world (sc_with (frames [stat_pid] ++ [])) stat_msg =
       Some (Ret (Some (stats_of [stat_pid]), Some e, W2, sc2, m2)) ∧
     conn sc2 = None ∧ rw sc2 = None ∧ closes sc2 = 1%nat).
Proof.
  assert (∀ r, r_fits r → r_status r = 0 → r_extras r = [] →
               stat_ok (elems (arrays set_world) (oextras stat_msg)) r) as Hok
    by (intros r ? ? ?; split_and!; [done|done|by left]).
  assert (stat_ok (elems (arrays set_world) (oextras stat_msg)) stat_pid) as Hpid
    by (apply Hok; [repeat split; by vm_compute|reflexivity|reflexivity]).
  assert (stat_ok (elems (arrays set_world) (oextras stat_msg)) stat_uptime) as Hup
    by (apply Hok; [repeat split; by vm_compute|reflexivity|reflexivity]).
  assert (stat_ok (elems (arrays set_world) (oextras stat_msg)) stat_end) as Hend
    by (apply Hok; [repeat split; by vm_compute|reflexivity|reflexivity]).
  split.
  - destruct (@sendRecvStats_accumulates memcached set_world
                (sc_with (frames [stat_pid; stat_uptime] ++ r_frame stat_end ++ []))
                stat_msg (conn_with (frames [stat_pid; stat_uptime] ++ r_frame stat_end ++ []))
                new_bufrw [stat_pid; stat_uptime] (r_frame stat_end ++ [])
                memcached_wrapError memcached_newError_ok eq_refl eq_refl
                (conj eq_refl eq_refl) pools_ok_empty eq_refl) as [HA _].
    + by repeat constructor.
    + repeat constructor; by vm_compute.
    + reflexivity.
    + apply (HA stat_end [] Hend); reflexivity.
  - destruct (@sendRecvStats_accumulates memcached set_world
                (sc_with (frames [stat_pid] ++ [])) stat_msg
                (conn_with (frames [stat_pid] ++ [])) new_bufrw [stat_pid] []
                memcached_wrapError memcached_newError_ok eq_refl eq_refl
                (conj eq_refl eq_refl) pools_ok_empty eq_refl)
      as [_ (W1 & sc1 & m1 & c1 & Hc & Hi & Hcl & Hrw & _ & _ & _ & HB)].
    + by repeat constructor.
    + repeat constructor; by vm_compute.
    + reflexivity.
    + destruct (@recv_short_header memcached W1 sc1 m1 c1 Hc Hrw) as (x & sc2 & Hr).
      { rewrite Hi. simpl. lia. }
      destruct (HB _ _ _ _ Hr) as (Hs & Hn & _).
      destruct Hn as (? & ? & ?); [reflexivity|].
      eexists _, _, _, _. split; [exact Hs|]. by split_and!.
Defined.

(** ** The store of backing arrays *)

Section Store.
Local Open Scope nat_scope.

Lemma array_at_app σ ext a : a < length σ → array_at (σ ++ ext) a = array_at σ a.
Proof. intros Ha. unfold array_at. by rewrite lookup_app_l. Qed.

Lemma array_at_new σ arr : array_at (σ ++ [arr]) (length σ) = arr.
Proof. unfold array_at. by rewrite list_lookup_middle. Qed.

Lemma array_at_insert_eq σ a x : a < length σ → array_at (<[a := x]> σ) a = x.
Proof. intros Ha. unfold array_at. by rewrite list_lookup_insert_eq. Qed.

Lemma array_at_insert_ne σ a a' x : a ≠ a' → array_at (<[a := x]> σ) a' = array_at σ a'.
Proof. intros Ha. unfold array_at. by rewrite list_lookup_insert_ne. Qed.

Lemma length_elems σ s : wf_slice σ s → length (elems σ s) = sl_len s.
Proof.
  intros [Hl Hw]. unfold elems. destruct (sl_arr s) as [a|].
  - destruct Hw as [_ Hb]. rewrite length_take, length_drop. lia.
  - simpl. lia.
Qed.

Lemma elems_app σ ext s : wf_slice σ s → elems (σ ++ ext) s = elems σ s.
Proof.
  intros [_ Hw]. unfold elems. destruct (sl_arr s) as [a|]; [|done].
  destruct Hw as [Ha _]. by rewrite array_at_app.
Qed.

Lemma wf_slice_app σ ext s : wf_slice σ s → wf_slice (σ ++ ext) s.
Proof.
  intros [Hl Hw]. split; [done|]. destruct (sl_arr s) as [a|]; [|done].
  destruct Hw as [Ha Hb]. rewrite array_at_app by done. rewrite length_app. split; lia.
Qed.

Lemma elems_insert_ne σ a x s :
  sl_arr s ≠ Some a → elems (<[a := x]> σ) s = elems σ s.
Proof.
  intros Hne. unfold elems. destruct (sl_arr s) as [a'|]; [|done].
  rewrite array_at_insert_ne; [done|]. congruence.
Qed.

Lemma wf_slice_insert σ a x s :
  length x = length (array_at σ a) → wf_slice σ s → wf_slice (<[a := x]> σ) s.
Proof.
  intros Hx [Hl Hw]. split; [done|]. destruct (sl_arr s) as [a'|]; [|done].
  destruct Hw as [Ha Hb]. rewrite length_insert. split; [done|].
  destruct (decide (a = a')) as [->|Hne].
  - rewrite array_at_insert_eq by done. lia.
  - by rewrite array_at_insert_ne.
Qed.

(** *** [s[:n]], [make] and the resizing step *)

Lemma resize_spec σ dst n :
  wf_slice σ dst →
  ∃ σ' s,
    resize σ dst n = Ret (σ', s) ∧ wf_slice σ' s ∧ sl_len s = n ∧
    (∀ t, wf_slice σ t → wf_slice σ' t ∧ elems σ' t = elems σ t) ∧
    (∀ t, wf_slice σ t → sep dst t → sep s t).
Proof.
  intros [Hl Hw]. unfold resize, reslice, make_slice.
  destruct (Nat.leb_spec n (sl_cap dst)) as [Hn|Hn]; cbn [mbind result_bind].
  - eexists _, _. split; [done|]. split_and!; try done.
  - eexists _, _. split; [done|]. split_and!; cbn [sl_len sl_arr].
    + split; cbn; [done|]. rewrite length_app, array_at_new, length_replicate.
      simpl. split; lia.
    + done.
    + intros t Ht. split; [by apply wf_slice_app | by apply elems_app].
    + intros t [_ Ht] _ a [= <-] Hta. rewrite Hta in Ht. lia.
Qed.

(** *** [copy] *)

(** After [copy(dst, src)] with equal lengths, [dst] holds what [src] held,
    wherever the two slices lie. *)
Lemma copy_slice_elems σ dst src :
  wf_slice σ dst → wf_slice σ src → sl_len dst = sl_len src →
  elems (copy_slice σ dst src) dst = elems σ src.
Proof.
  intros Hd Hs Hlen. pose proof (length_elems σ src Hs) as Hls.
  destruct Hd as [Hl Hw]. unfold copy_slice. rewrite Hlen, Nat.min_id.
  rewrite take_ge by lia. unfold elems at 1.
  destruct (sl_arr dst) as [a|] eqn:Ha.
  - destruct Hw as [Ha' Hb]. rewrite array_at_insert_eq by done.
    rewrite drop_list_inserts by lia. rewrite Hlen, <- Hls. by rewrite take_app_length.
  - destruct (elems σ src); [done|]. simpl in Hls. lia.
Qed.

Lemma copy_slice_other σ dst src t :
  sep dst t → elems (copy_slice σ dst src) t = elems σ t.
Proof.
  intros Hsep. unfold copy_slice. destruct (sl_arr dst) as [a|] eqn:Ha; [|done].
  apply elems_insert_ne. by apply Hsep.
Qed.

Lemma copy_slice_wf σ dst src t :
  wf_slice σ t → wf_slice (copy_slice σ dst src) t.
Proof.
  intros Ht. unfold copy_slice. destruct (sl_arr dst) as [a|]; [|done].
  apply wf_slice_insert; [|done]. apply length_inserts.
Qed.

(** Copying over a slice what it already holds changes nothing. *)
Lemma list_inserts_same {A} (vs : list A) off arr :
  take (length vs) (drop off arr) = vs → list_inserts off vs arr = arr.
Proof.
  intros Hv. apply list_eq. intros i.
  destruct (decide (i < off)) as [Hlt|Hge].
  { by apply list_lookup_inserts_lt. }
  destruct (decide (off + length vs ≤ i)) as [Hout|Hin].
  { by apply list_lookup_inserts_ge. }
  assert (vs !! (i - off) = arr !! i) as Hi.
  { rewrite <- Hv at 1. rewrite lookup_take_lt by lia. rewrite lookup_drop.
    f_equal. lia. }
  assert (i < length arr) as Hl.
  { apply lookup_lt_is_Some. rewrite <- Hi. apply lookup_lt_is_Some. lia. }
  rewrite list_lookup_inserts by lia. done.
Qed.

Lemma copy_slice_noop σ dst src :
  wf_slice σ dst → wf_slice σ src → sl_len dst = sl_len src →
  elems σ dst = elems σ src → copy_slice σ dst src = σ.
Proof.
  intros Hd Hs Hlen He. pose proof (length_elems σ src Hs) as Hls.
  destruct Hd as [Hl Hw]. unfold copy_slice. rewrite Hlen, Nat.min_id.
  rewrite take_ge by lia.
  destruct (sl_arr dst) as [a|] eqn:Ha; [|done].
  destruct Hw as [Ha' Hb]. unfold elems at 1 in He. rewrite Ha in He.
  rewrite list_inserts_same.
  - apply list_insert_id. unfold array_at.
    destruct (lookup_lt_is_Some_2 σ a Ha') as [x ->]. done.
  - rewrite Hls, <- Hlen. done.
Qed.

End Store.

(** ** [backupMsg] and [restoreMsg] *)

Lemma sep_sym s t : sep s t → sep t s.
Proof. intros Hs a Ht Hs'. by apply (Hs a). Qed.

(** The snapshot holds the header, key, value and the contents of both
    extras slices of the message, when the two slices of the slot are on
    different arrays and the first one shares none with the destinations of
    the message.  Slices that share no array with the slot keep their
    contents. *)
Lemma backupMsg_spec σ m b :
  wf_msg σ m → wf_msg σ b →
  sep (iextras b) (oextras b) → sep (iextras b) (oextras m) →
  ∃ σ' b',
    backupMsg σ m b = Ret (σ', b') ∧
    hdr b' = hdr m ∧ key b' = key m ∧ val b' = val m ∧
    elems σ' (iextras b') = elems σ (iextras m) ∧
    elems σ' (oextras b') = elems σ (oextras m) ∧
    wf_msg σ' b' ∧ sep (iextras b') (oextras b') ∧
    sl_len (iextras b') = sl_len (iextras m) ∧
    sl_len (oextras b') = sl_len (oextras m) ∧
    ∀ t, wf_slice σ t → sep (iextras b) t → sep (oextras b) t →
         wf_slice σ' t ∧ elems σ' t = elems σ t ∧
         sep (iextras b') t ∧ sep (oextras b') t.
Proof.
  intros [Hmi Hmo] [Hbi Hbo] Hio Him. unfold backupMsg.
  destruct (resize_spec σ (iextras b) (sl_len (iextras m)) Hbi)
    as (σ1 & bi & -> & Hwbi & Hlbi & Hk1 & Hs1).
  cbn [mbind result_bind].
  set (σ2 := copy_slice σ1 bi (iextras m)).
  destruct (Hk1 _ Hmi) as [Hmi1 Hei1]. destruct (Hk1 _ Hmo) as [Hmo1 Heo1].
  destruct (Hk1 _ Hbo) as [Hbo1 _].
  assert (elems σ2 bi = elems σ (iextras m)) as HI
    by (unfold σ2; rewrite copy_slice_elems by done; done).
  assert (sep bi (oextras m)) as Hsm by (by apply Hs1).
  assert (sep bi (oextras b)) as Hsb by (by apply Hs1).
  assert (elems σ2 (oextras m) = elems σ (oextras m)) as HO
    by (unfold σ2; rewrite copy_slice_other by done; done).
  assert (∀ t, wf_slice σ1 t → wf_slice σ2 t) as Hwf2
    by (intros t; apply copy_slice_wf).
  destruct (resize_spec σ2 (oextras b) (sl_len (oextras m)) (Hwf2 _ Hbo1))
    as (σ3 & bo & -> & Hwbo & Hlbo & Hk3 & Hs3).
  cbn [mbind result_bind].
  set (σ4 := copy_slice σ3 bo (oextras m)).
  destruct (Hk3 _ (Hwf2 _ Hmo1)) as [Hmo3 Heo3].
  destruct (Hk3 _ (Hwf2 _ Hwbi)) as [Hbi3 Hebi3].
  assert (sep bo bi) as Hoi by (apply Hs3; [by apply Hwf2 | by apply sep_sym]).
  eexists _, _. split; [done|]. cbn [hdr key val iextras oextras].
  split_and!; try done.
  - fold σ4. unfold σ4. rewrite copy_slice_other by done. congruence.
  - fold σ4. unfold σ4. rewrite copy_slice_elems by done. congruence.
  - split; cbn [iextras oextras]; by apply copy_slice_wf.
  - by apply sep_sym.
  - intros t Ht Hti Hto.
    destruct (Hk1 _ Ht) as [Ht1 Het1].
    destruct (Hk3 _ (Hwf2 _ Ht1)) as [Ht3 Het3].
    assert (sep bi t) as Hbt by (by apply Hs1).
    assert (sep bo t) as Hot by (apply Hs3; [by apply Hwf2 | done]).
    split_and!; try done.
    + by apply copy_slice_wf.
    + fold σ4. unfold σ4. rewrite copy_slice_other by done.
      rewrite Het3. unfold σ2. rewrite copy_slice_other by done. done.
Qed.


(** The zero value of the slot is private to every message, and a snapshot
    leaves the slot private. *)
Lemma slot_private_zero σ m : slot_private σ m zero_msg.
Proof. repeat split; simpl; try done; lia. Qed.

Lemma backupMsg_keeps_private σ m b σ' b' :
  wf_msg σ m → slot_private σ m b → backupMsg σ m b = Ret (σ', b') →
  wf_msg σ' m ∧ slot_private σ' m b'.
Proof.
  intros [Hmi Hmo] (Hbi & Hbo & Hio & Hii & Him & Hoi & Hom) Hb.
  destruct (backupMsg_spec σ m b) as (σ1 & b1 & Hb1 & _ & _ & _ & _ & _ & [Hw1 Hw2] & Hs & _ & _ & Hfr);
    try done.
  rewrite Hb1 in Hb. injection Hb as <- <-.
  destruct (Hfr _ Hmi Hii Hoi) as (? & _ & ? & ?).
  destruct (Hfr _ Hmo Him Hom) as (? & _ & ? & ?).
  unfold wf_msg, slot_private. by split_and!.
Qed.

(** ** C5: snapshot and restore *)




(** ** The original pair: [append] from nil *)

Section OriginalFacts.
Local Open Scope nat_scope.
Variable grow : nat → nat.

Lemma take_S_insert {A} (arr : list A) off n v :
  off + n < length arr →
  take (S n) (drop off (<[off + n := v]> arr)) = take n (drop off arr) ++ [v].
Proof.
  intros Hl. apply list_eq. intros i.
  destruct (decide (i < n)) as [Hi|Hi].
  - rewrite lookup_take_lt by lia. rewrite lookup_drop, list_lookup_insert_ne by lia.
    rewrite lookup_app_l by (rewrite length_take, length_drop; lia).
    rewrite lookup_take_lt by lia. by rewrite lookup_drop.
  - destruct (decide (i = n)) as [->|Hne].
    + rewrite lookup_take_lt by lia. rewrite lookup_drop, list_lookup_insert_eq by lia.
      rewrite lookup_app_r by (rewrite length_take, length_drop; lia).
      rewrite length_take, length_drop.
      by replace (n - n `min` (length arr - off)) with 0 by lia.
    + rewrite lookup_take_ge by lia.
      rewrite lookup_ge_None_2; [done|].
      rewrite length_app, length_take, length_drop. simpl. lia.
Qed.

(** One [append] onto a slice that is nil or lies in an array allocated
    after [σ0]: the old arrays are untouched and the slice has one more
    element. *)
Lemma append_slice_spec σ0 ext s v :
  wf_slice (σ0 ++ ext) s → newer σ0 s →
  ∃ ext' s',
    append_slice grow (σ0 ++ ext) s v = (σ0 ++ ext', s') ∧
    wf_slice (σ0 ++ ext') s' ∧ newer σ0 s' ∧
    elems (σ0 ++ ext') s' = elems (σ0 ++ ext) s ++ [v] ∧
    sl_len s' = S (sl_len s).
Proof.
  intros Hw Hn. pose proof (length_elems _ _ Hw) as Hle. destruct Hw as [Hl Hw].
  unfold append_slice. destruct (sl_arr s) as [a|] eqn:Ha.
  - destruct Hw as [Ha' Hb]. specialize (Hn a Ha).
    destruct (Nat.ltb_spec (sl_len s) (sl_cap s)) as [Hlt|Hge].
    + rewrite insert_app_r_alt by done.
      eexists _, _. split; [done|]. rewrite <- insert_app_r_alt by done.
      split_and!; cbn [sl_len sl_arr sl_off sl_cap].
      * split; cbn; [lia|]. rewrite length_insert.
        rewrite array_at_insert_eq by done. rewrite length_insert. split; [done|lia].
      * intros a0 [= <-]. done.
      * unfold elems. cbn [sl_arr sl_off sl_len]. rewrite Ha.
        rewrite array_at_insert_eq by done. apply take_S_insert. lia.
      * done.
    + exists (ext ++ [elems (σ0 ++ ext) s ++
                      v :: replicate (S (sl_len s) `max` grow (sl_cap s) - S (sl_len s)) INil]).
      eexists. rewrite !app_assoc. split; [done|].
      split_and!; cbn [sl_len sl_arr sl_off sl_cap].
      * split; cbn; [lia|]. rewrite array_at_new.
        rewrite !length_app, Hle. cbn [length]. rewrite length_replicate.
        simpl. split; lia.
      * intros a0 [= <-]. rewrite length_app. lia.
      * unfold elems at 1. cbn [sl_arr sl_off sl_len]. rewrite array_at_new.
        rewrite drop_0, (cons_middle v), app_assoc.
        rewrite take_app_length'; [done|]. rewrite length_app, Hle. simpl. lia.
      * done.
  - assert (sl_len s = 0) as Hz by lia.
    exists (ext ++ [v :: replicate (1 `max` grow 0 - 1) INil]).
    eexists. rewrite !app_assoc. split; [done|].
    split_and!; cbn [sl_len sl_arr sl_off sl_cap].
    + split; cbn; [lia|]. rewrite array_at_new. cbn [length]. rewrite length_replicate.
      rewrite (length_app (σ0 ++ ext)). simpl. split; lia.
    + intros a0 [= <-]. rewrite length_app. lia.
    + unfold elems. cbn [sl_arr sl_off sl_len]. rewrite array_at_new, Ha, drop_0. done.
    + lia.
Qed.

(** The loop rebuilds the contents of [src] in a slice of its own and leaves
    the arrays of [σ0] alone. *)
Lemma append_range_spec σ0 src :
  wf_slice σ0 src → ∀ n i ext dst,
  i + n = sl_len src →
  wf_slice (σ0 ++ ext) dst → newer σ0 dst → sl_len dst = i →
  elems (σ0 ++ ext) dst = take i (elems σ0 src) →
  ∃ ext' dst',
    Original.append_range grow (σ0 ++ ext) src i n dst = (σ0 ++ ext', dst') ∧
    wf_slice (σ0 ++ ext') dst' ∧ elems (σ0 ++ ext') dst' = elems σ0 src ∧
    sl_len dst' = sl_len src.
Proof.
  intros Hs. pose proof (length_elems _ _ Hs) as Hls.
  induction n as [|n IH]; intros i ext dst Hin Hw Hn Hl He.
  - exists ext, dst. split; [done|]. split_and!; try done; [|lia].
    rewrite He. apply take_ge. lia.
  - cbn [Original.append_range]. cbv zeta. rewrite elems_app by done.
    destruct (lookup_lt_is_Some_2 (elems σ0 src) i) as [x Hx]; [lia|].
    rewrite Hx. cbn [default]. change (id x) with x.
    destruct (append_slice_spec σ0 ext dst x Hw Hn) as (ext1 & dst1 & -> & Hw1 & Hn1 & He1 & Hl1).
    apply (IH (S i) ext1 dst1); try done; try lia.
    rewrite He1, He. symmetry. by apply take_S_r.
Qed.

Lemma copy_header_eq h :
  mkHeader (Magic h) (Op h) (KeyLen h) (ExtraLen h) (DataType h)
    (ResvOrStatus h) (BodyLen h) (Opaque h) (CAS h) = h.
Proof. by destruct h. Qed.

(** The original snapshot always holds the message, wherever the slices
    lie. *)
Lemma original_backupMsg_spec σ m b :
  wf_msg σ m →
  ∃ σ' b',
    Original.backupMsg grow σ m b = (σ', b') ∧
    hdr b' = hdr m ∧ key b' = key m ∧ val b' = val m ∧
    elems σ' (iextras b') = elems σ (iextras m) ∧
    elems σ' (oextras b') = elems σ (oextras m).
Proof.
  intros [Hmi Hmo]. unfold Original.backupMsg. rewrite copy_header_eq.
  assert (∀ τ : store, wf_slice (τ ++ []) nil_slice) as Hnil
    by (intros τ; split; simpl; lia).
  assert (∀ τ : store, newer τ nil_slice) as Hnew by (intros τ a Ha; done).
  destruct (append_range_spec σ (iextras m) Hmi (sl_len (iextras m)) 0 [] nil_slice
              eq_refl (Hnil σ) (Hnew σ) eq_refl eq_refl)
    as (ext1 & bi & Hr1 & Hw1 & He1 & Hl1).
  rewrite app_nil_r in Hr1. rewrite Hr1.
  pose proof (wf_slice_app σ ext1 _ Hmo) as Hmo1.
  destruct (append_range_spec (σ ++ ext1) (oextras m) Hmo1 (sl_len (oextras m)) 0 [] nil_slice
              eq_refl (Hnil _) (Hnew _) eq_refl eq_refl)
    as (ext2 & bo & Hr2 & Hw2 & He2 & Hl2).
  rewrite app_nil_r in Hr2. rewrite Hr2.
  eexists _, _. split; [done|]. cbn [hdr key val iextras oextras].
  split_and!; try done.
  - rewrite elems_app by done. done.
  - rewrite He2. by apply elems_app.
Qed.

End OriginalFacts.

(** ** C10: the optimised pair against the original one *)

(** C10 (as amended). For every message [m] and slot [b] with well-formed
    slices: when the two slices written to lie on different backing arrays
    and the first of them shares none with the destinations slice read from,
    the optimised and the original [backupMsg] leave [b] with the same key,
    value, header and extras contents, and likewise [restoreMsg] leaves [m]
    with the same key, value, header and extras contents. *)
Theorem backup_restore_refines grow σ m b :
  wf_msg σ m → wf_msg σ b →
  (sep (iextras b) (oextras b) → sep (iextras b) (oextras m) →
   ∃ σ1 b1, backupMsg σ m b = Ret (σ1, b1) ∧
     same_contents σ1 b1 (Original.backupMsg grow σ m b).1
       (Original.backupMsg grow σ m b).2) ∧
  (sep (iextras m) (oextras m) → sep (iextras m) (oextras b) →
   ∃ σ1 m1, restoreMsg σ m b = Ret (σ1, m1) ∧
     same_contents σ1 m1 (Original.restoreMsg grow σ m b).1
       (Original.restoreMsg grow σ m b).2).
Proof.
  intros Hm Hb. split.
  - intros Hio Him.
    destruct (backupMsg_spec σ m b Hm Hb Hio Him)
      as (σ1 & b1 & Hb1 & Hh & Hk & Hv & HI & HO & _).
    destruct (original_backupMsg_spec grow σ m b Hm)
      as (σ2 & b2 & Hb2 & Hh2 & Hk2 & Hv2 & HI2 & HO2).
    exists σ1, b1. split; [done|]. rewrite Hb2. cbn [fst snd].
    unfold same_contents. split_and!; congruence.
  - intros Hio Him.
    destruct (backupMsg_spec σ b m Hb Hm Hio Him)
      as (σ1 & m1 & Hm1 & Hh & Hk & Hv & HI & HO & _).
    destruct (original_backupMsg_spec grow σ b m Hb)
      as (σ2 & m2 & Hm2 & Hh2 & Hk2 & Hv2 & HI2 & HO2).
    exists σ1, m1. split; [done|].
    change (Original.restoreMsg grow σ m b) with (Original.backupMsg grow σ b m).
    rewrite Hm2. cbn [fst snd].
    unfold same_contents. split_and!; congruence.
Qed.

Lemma backup_restore_refines_witness :
  (∃ σ1 b1, backupMsg (arrays set_world) set_msg zero_msg = Ret (σ1, b1) ∧
     same_contents σ1 b1 (Original.backupMsg double (arrays set_world) set_msg zero_msg).1
       (Original.backupMsg double (arrays set_world) set_msg zero_msg).2) ∧
  (∃ σ1 m1, restoreMsg (arrays set_world) set_msg zero_msg = Ret (σ1, m1) ∧
     same_contents σ1 m1 (Original.restoreMsg double (arrays set_world) set_msg zero_msg).1
       (Original.restoreMsg double (arrays set_world) set_msg zero_msg).2).
Proof.
  destruct (backup_restore_refines double (arrays set_world) set_msg zero_msg) as [Hb Hr].
  - repeat split; simpl; lia.
  - repeat split; simpl; lia.
  - split.
    + apply Hb; intros a Ha; simpl in Ha; discriminate.
    + apply Hr; intros a Ha Hb'; simpl in Ha, Hb'; congruence.
Defined.

(** A slot whose two slices are one and the same array cell: the optimised
    [backupMsg] overwrites the request extras it has just copied with the
    destinations, the original keeps both.  The same happens to a message
    built that way under [restoreMsg]. *)
Lemma backup_restore_refines_counterexample :
  wf_msg shared_store plain_msg ∧ wf_msg shared_store shared_msg ∧
  (∃ σ1 b1,
     backupMsg shared_store plain_msg shared_msg = Ret (σ1, b1) ∧
     elems σ1 (iextras b1) = [PU8 0%nat] ∧
     elems (Original.backupMsg double shared_store plain_msg shared_msg).1
       (iextras (Original.backupMsg double shared_store plain_msg shared_msg).2) = [U8 1] ∧
     ¬ same_contents σ1 b1 (Original.backupMsg double shared_store plain_msg shared_msg).1
         (Original.backupMsg double shared_store plain_msg shared_msg).2) ∧
  (∃ σ1 m1,
     restoreMsg shared_store shared_msg plain_msg = Ret (σ1, m1) ∧
     elems σ1 (iextras m1) = [PU8 0%nat] ∧
     elems (Original.restoreMsg double shared_store shared_msg plain_msg).1
       (iextras (Original.restoreMsg double shared_store shared_msg plain_msg).2) = [U8 1] ∧
     ¬ same_contents σ1 m1 (Original.restoreMsg double shared_store shared_msg plain_msg).1
         (Original.restoreMsg double shared_store shared_msg plain_msg).2).
Proof.
  split; [repeat split; simpl; lia|]. split; [repeat split; simpl; lia|].
  split.
  - eexists _, _. split; [vm_compute; reflexivity|].
    split; [reflexivity|]. split; [reflexivity|].
    intros (_ & _ & _ & Hi & _). vm_compute in Hi. discriminate.
  - eexists _, _. split; [vm_compute; reflexivity|].
    split; [reflexivity|]. split; [reflexivity|].
    intros (_ & _ & _ & Hi & _). vm_compute in Hi. discriminate.
Qed.

(** * Further properties of the connection layer *)

(** ** The header codec *)

Lemma byte_of_Z_mod z : byte_of_Z (z mod 256) = byte_of_Z z.
Proof. unfold byte_of_Z. by rewrite Zmod_mod. Qed.

(** The bytes of a value only depend on the value modulo their width. *)
Lemma be_bytes_mod n : ∀ v, be_bytes n (v mod 256 ^ Z.of_nat n) = be_bytes n v.
Proof.
  intros v. assert (∀ k, (k ≤ n)%nat →
    be_bytes k (v mod 256 ^ Z.of_nat n) = be_bytes k v) as Hk; [|by apply Hk].
  induction k as [|k IH]; intros Hle; [done|].
  cbn [be_bytes]. rewrite IH by lia. f_equal.
  rewrite <- (byte_of_Z_mod (v / _)), <- (byte_of_Z_mod (_ mod _ / _)). f_equal.
  assert (0 < 256 ^ Z.of_nat k) as Hp by (apply Z.pow_pos_nonneg; lia).
  replace (256 ^ Z.of_nat n) with (256 ^ Z.of_nat k * (256 * 256 ^ Z.of_nat (n - S k))).
  2:{ rewrite <- (Z.pow_succ_r 256) by lia. rewrite <- Z.pow_add_r by lia.
      f_equal. lia. }
  assert (0 < 256 ^ Z.of_nat (n - S k)) as Hq by (apply Z.pow_pos_nonneg; lia).
  rewrite Z.rem_mul_r by lia.
  rewrite (Z.mul_comm (256 ^ Z.of_nat k)), Z.div_add by lia.
  rewrite (Z.div_small (v mod _)) by (apply Z.mod_pos_bound; lia).
  rewrite Z.add_0_l.
  rewrite Z.rem_mul_r by lia.
  rewrite (Z.mul_comm 256 (_ mod _)), Z_mod_plus_full. apply Zmod_mod.
Qed.

(** Encoding the value of a byte string over its own width gives the bytes
    back. *)
Lemma be_bytes_be_value bs : be_bytes (length bs) (be_value bs) = bs.
Proof.
  induction bs as [|b r IH]; [done|].
  cbn [length be_bytes]. pose proof (be_value_bound r) as Hr.
  assert (0 < 256 ^ Z.of_nat (length r)) as Hp by (apply Z.pow_pos_nonneg; lia).
  f_equal.
  - rewrite be_value_cons, Z.div_add_l by lia.
    rewrite Z.div_small by lia. rewrite Z.add_0_r. apply byte_of_Z_of_byte.
  - rewrite <- be_bytes_mod, be_value_cons.
    rewrite Z.add_comm, Z_mod_plus_full, Z.mod_small by lia. done.
Qed.

Lemma parse_header_in_range b : header_in_range (parse_header b).
Proof.
  assert (∀ o n k, (n ≤ k)%nat → 0 <= field o n b < 2 ^ (8 * Z.of_nat k)) as Hf.
  { intros o n k Hk. unfold field.
    pose proof (be_value_bound (take n (drop o b))) as Hb.
    assert (length (take n (drop o b)) ≤ k)%nat as Hl by (rewrite length_take; lia).
    replace (2 ^ (8 * Z.of_nat k)) with (256 ^ Z.of_nat k)
      by (rewrite Z.pow_mul_r by lia; done).
    split; [lia|]. eapply Z.lt_le_trans; [apply Hb|].
    apply Z.pow_le_mono_r; lia. }
  unfold header_in_range, parse_header.
  cbn [Magic Op KeyLen ExtraLen DataType ResvOrStatus BodyLen Opaque CAS].
  split_and!;
    first [ apply (Hf _ 1%nat 1%nat); lia | apply (Hf _ 2%nat 2%nat); lia
          | apply (Hf _ 4%nat 4%nat); lia | apply (Hf _ 8%nat 8%nat); lia ].
Qed.

(** X1. Decoding an encoded header gives the header back: for every header
    whose fields fit their wire widths, the 24 bytes [send] stores in the
    header buffer are parsed by [recv] into the same nine fields. *)
Theorem header_decode_encode h :
  header_in_range h →
  length (encode_header h) = 24%nat ∧ parse_header (encode_header h) = h.
Proof.
  intros (Hm & Ho & Hk & He & Hd & Hs & Hb & Hq & Hc).
  split; [apply length_encode_header|].
  rewrite parse_encode_header. destruct h. cbn in *.
  f_equal; apply uint_small; lia.
Qed.

Lemma header_decode_encode_witness :
  parse_header (encode_header (mkHeader 128 1 3 8 0 0 14 7 999)) =
    mkHeader 128 1 3 8 0 0 14 7 999.
Proof.
  apply (header_decode_encode (mkHeader 128 1 3 8 0 0 14 7 999)).
  unfold header_in_range. cbn. lia.
Defined.

(** X2. Encoding a decoded header gives the bytes back: every 24-byte header
    buffer is parsed into fields that fit their wire widths and that encode
    to the same 24 bytes, so no bit of a header is lost or invented by the
    codec. *)
Theorem header_encode_decode b :
  length b = 24%nat →
  header_in_range (parse_header b) ∧ encode_header (parse_header b) = b.
Proof.
  intros Hl. split; [apply parse_header_in_range|].
  do 25 (destruct b as [|? b]; [try discriminate Hl|]); [|simpl in Hl; lia].
  unfold encode_header, parse_header, field, PutUint16, PutUint32, PutUint64.
  cbn [Magic Op KeyLen ExtraLen DataType ResvOrStatus BodyLen Opaque CAS
       firstn skipn take drop].
  rewrite !be_value_single, !byte_of_Z_of_byte.
  rewrite (be_bytes_be_value [_; _]), (be_bytes_be_value [_; _]).
  rewrite (be_bytes_be_value [_; _; _; _]), (be_bytes_be_value [_; _; _; _]).
  rewrite (be_bytes_be_value [_; _; _; _; _; _; _; _]).
  reflexivity.
Qed.

Lemma header_encode_decode_witness :
  header_in_range (parse_header short_header) ∧
  encode_header (parse_header short_header) = short_header.
Proof. apply (header_encode_decode short_header). reflexivity. Defined.

(** ** The request on the wire *)

Section SendMore.
Context `{Protocol}.

(** X3. [sizeOfExtras] adds up the byte widths of the extras in an 8-bit
    counter: for extras that are all 8/16/32/64-bit unsigned integers it
    returns their total width modulo 256, which is the total width itself
    when that is at most 255; with any other element it panics. *)
Theorem sizeOfExtras_total extras :
  (forallb supported extras = true →
     sizeOfExtras extras = Ret (extras_width extras mod 256) ∧
     (extras_width extras <= 255 → sizeOfExtras extras = Ret (extras_width extras))) ∧
  (forallb supported extras = false →
     sizeOfExtras extras = Panic "mc: unknown extra type").
Proof.
  split.
  - intros Hs. rewrite sizeOfExtras_supported by done. split; [done|].
    intros Hw. pose proof (extras_width_nonneg extras).
    f_equal. apply uint_small. lia.
  - intros Hu. by apply sizeOfExtras_from_unsupported.
Qed.

(** X4. On a connection that takes writes, [send] of a message with
    supported extras returns nil after putting on the wire, behind whatever
    was still pending, the 24-byte header, the extras in big-endian order,
    the key and the value, [24 + extras + len(key) + len(val)] bytes in all;
    nothing stays buffered and nothing is read.  The message carries the
    header that was sent: the request magic, the connection's counter as
    opaque, and the lengths; the counter advances by one modulo 2^32. *)
Theorem send_writes_frame W sc m c w :
  let extras := elems (arrays W) (iextras m) in
  conn sc = Some c → rw sc = Some w → healthy c w →
  forallb supported extras = true →
  ∃ sc' m' c',
    send W sc m = Ret (None, sc', m') ∧
    conn sc' = Some c' ∧ rw sc' = Some new_bufrw ∧
    outgoing c' =
      outgoing c ++ pending w ++ encode_header (hdr m') ++ enc_extras extras ++
      bytes_of (key m) ++ bytes_of (val m) ∧
    Z.of_nat (length (outgoing c')) =
      Z.of_nat (length (outgoing c ++ pending w)) + 24 + extras_width extras +
      Z.of_nat (String.length (key m)) + Z.of_nat (String.length (val m)) ∧
    incoming c' = incoming c ∧ write_error c' = None ∧
    hdr m' = send_header m (uint8 (extras_width extras)) (opq sc) ∧
    Magic (hdr m') = magicSend ∧ Opaque (hdr m') = opq sc ∧
    key m' = key m ∧ val m' = val m ∧
    iextras m' = iextras m ∧ oextras m' = oextras m ∧
    hdrBuf sc' = encode_header (hdr m') ∧
    opq sc' = uint32 (opq sc + 1) ∧ closes sc' = closes sc.
Proof.
  intros extras Hc Hw Hh Hs.
  destruct (send_ok W sc m c w Hc Hw Hh Hs) as (c' & Hsend & He & Hi & _ & Ho).
  fold extras in Hsend, Ho.
  eexists _, _, c'. split; [exact Hsend|].
  cbn [conn rw set_io hdr set_hdr key val iextras oextras hdrBuf set_hdrBuf
       opq set_opq closes].
  assert (outgoing c' =
          outgoing c ++ pending w ++
          encode_header (send_header m (uint8 (extras_width extras)) (opq sc)) ++
          enc_extras extras ++ bytes_of (key m) ++ bytes_of (val m)) as Ho'
    by (rewrite Ho; unfold frame; by rewrite <- !app_assoc).
  split_and!; try done.
  rewrite Ho'. rewrite !length_app, !length_bytes_of, length_encode_header.
  rewrite !Nat2Z.inj_add, length_enc_extras by done. lia.
Qed.

(** *** Writes that fail *)

(** A write on a connection that rejects writes either stays in the buffer
    or fails with the connection's error; flushing a buffer that holds
    something fails. *)
Lemma bufio_Write_broken p c w e :
  write_error c = Some e → werr w = None →
  bufio_Write p c w = (None, c, mkBufrw (pending w ++ p) None) ∨
  ∃ w', bufio_Write p c w = (Some e, c, w').
Proof.
  intros Hc Hw. unfold bufio_Write, bufio_flush_all, conn_Write. rewrite Hw, Hc.
  destruct (_ <=? _)%nat; [by left|right; by eexists].
Qed.

Lemma bufio_Flush_broken c w e :
  write_error c = Some e → werr w = None → pending w ≠ [] →
  ∃ w', bufio_Flush c w = (Some e, c, w').
Proof.
  intros Hc Hw Hp. unfold bufio_Flush, bufio_flush_all, conn_Write. rewrite Hw, Hc.
  destruct (pending w); [done|by eexists].
Qed.

Lemma broken_write e p : broken_step e (fun c w => Ret (bufio_Write p c w)).
Proof.
  intros c w Hc Hw Hp.
  destruct (bufio_Write_broken p c w e Hc Hw) as [->|[w' ->]]; [right|left; by eexists].
  eexists. split; [done|]. split; [done|]. cbn. by destruct (pending w).
Qed.

Lemma broken_then e (k1 k2 : wstep) :
  broken_step e k1 → broken_step e k2 →
  broken_step e (fun c w => r ← k1 c w; and_then r k2).
Proof.
  intros H1 H2 c w Hc Hw Hp.
  destruct (H1 c w Hc Hw Hp) as [[w' ->]|(w' & -> & Hw' & Hp')]; cbn [mbind result_bind and_then].
  - left. by eexists.
  - by apply H2.
Qed.

Lemma broken_extras e extras :
  forallb supported extras = true → broken_step e (write_extras extras).
Proof.
  induction extras as [|x r IH]; intros Hs.
  - intros c w Hc Hw Hp. right. by eexists.
  - simpl in Hs. apply andb_prop in Hs as [Hx Hr]. specialize (IH Hr).
    intros c w Hc Hw Hp.
    pose proof (broken_then e _ _ (broken_write e (enc_extra x)) IH c w Hc Hw Hp) as Hb.
    destruct x; try discriminate; exact Hb.
Qed.

Lemma broken_string e s : broken_step e (write_string s).
Proof.
  intros c w Hc Hw Hp. unfold write_string.
  destruct (0 <? String.length s)%nat; [by apply broken_write|].
  right. by eexists.
Qed.

Lemma failing_flush e : failing_step e (fun c w => Ret (bufio_Flush c w)).
Proof.
  intros c w Hc Hw Hp.
  destruct (bufio_Flush_broken c w e Hc Hw Hp) as [w' ->]. by eexists.
Qed.

Lemma failing_then e (k1 k2 : wstep) :
  broken_step e k1 → failing_step e k2 →
  failing_step e (fun c w => r ← k1 c w; and_then r k2).
Proof.
  intros H1 H2 c w Hc Hw Hp.
  destruct (H1 c w Hc Hw Hp) as [[w' ->]|(w' & -> & Hw' & Hp')]; cbn [mbind result_bind and_then].
  - by eexists.
  - by apply H2.
Qed.

(** [send] on a connection that rejects writes returns the connection's
    error, wrapped: buffering never hides it, since the final flush has the
    header to write. *)
Lemma send_broken W sc m c w e :
  conn sc = Some c → rw sc = Some w → write_error c = Some e → werr w = None →
  forallb supported (elems (arrays W) (iextras m)) = true →
  ∃ sc' m',
    send W sc m = Ret (net_error e, sc', m') ∧ conn sc' = Some c ∧
    is_Some (rw sc') ∧ closes sc' = closes sc ∧
    key m' = key m ∧ val m' = val m ∧
    iextras m' = iextras m ∧ oextras m' = oextras m.
Proof.
  intros Hc Hw He Hwe Hs. unfold send.
  rewrite sizeOfExtras_supported by done. cbn [mbind result_bind].
  cbn [conn rw set_hdrBuf set_opq hdrBuf hdr set_hdr key val]. rewrite Hc, Hw.
  set (hb := encode_header _).
  destruct (bufio_Write_broken hb c w e He Hwe) as [->|[w' ->]]; cbn [and_then mbind result_bind].
  2:{ eexists _, _. split; [done|]. by split_and!. }
  pose proof (failing_then e _ _ (broken_extras e _ Hs)
    (failing_then e _ _ (broken_string e (key m))
      (failing_then e _ _ (broken_string e (val m)) (failing_flush e)))) as Hb.
  destruct (Hb c (mkBufrw (pending w ++ hb) None) He eq_refl) as [w' Hr].
  { cbn. subst hb. by destruct (pending w). }
  cbv beta in Hr. rewrite Hr. cbn [mbind result_bind].
  eexists _, _. split; [done|]. by split_and!.
Qed.

(** X5. A connection that rejects writes makes the exchange fail at once:
    [send] returns the connection's error wrapped as a network error (the
    buffer never hides it, the final flush always has the header to write),
    nothing reaches the wire and nothing is read; [sendRecv] returns that
    error and tears the connection down, closing the socket once. *)
Theorem sendRecv_write_failure W sc m c w e :
  wrapError_keeps_status →
  conn sc = Some c → rw sc = Some w → write_error c = Some e → werr w = None →
  forallb supported (elems (arrays W) (iextras m)) = true →
  (∃ sc1 m1, send W sc m = Ret (net_error e, sc1, m1) ∧ conn sc1 = Some c) ∧
  ∃ sc' m',
    sendRecv W sc m = Ret (net_error e, W, sc', m') ∧
    conn sc' = None ∧ rw sc' = None ∧ closes sc' = S (closes sc) ∧
    key m' = key m ∧ val m' = val m.
Proof.
  intros Hwrap Hc Hw He Hwe Hs.
  destruct (send_broken W sc m c w e Hc Hw He Hwe Hs)
    as (sc1 & m1 & Hsend & Hc1 & Hrw1 & Hcl1 & Hk & Hv & _).
  split; [by eexists _, _|].
  exists (close_conn sc1), m1. unfold sendRecv. rewrite Hsend.
  unfold net_error. cbn [mbind result_bind].
  rewrite resetConn_network by apply Hwrap.
  destruct (close_conn_closed sc1) as (? & ? & ?); [by eexists|].
  split_and!; try done. congruence.
Qed.

End SendMore.

(** The [set] request of the tests: 24 + 8 + 3 + 3 bytes. *)
Lemma send_writes_frame_witness :
  ∃ sc' m' c',
    @send memcached set_world (sc_with []) set_msg = Ret (None, sc', m') ∧
    conn sc' = Some c' ∧ Z.of_nat (length (outgoing c')) = 38 ∧
    Opaque (hdr m') = 0 ∧ opq sc' = 1.
Proof.
  destruct (@send_writes_frame memcached set_world (sc_with []) set_msg
              (conn_with []) new_bufrw eq_refl eq_refl (conj eq_refl eq_refl) eq_refl)
    as (sc' & m' & c' & Hs & Hc & _ & _ & Hl & _ & _ & _ & _ & Ho & _ & _ & _ & _ & _ & Hq & _).
  exists sc', m', c'. split; [exact Hs|]. split; [exact Hc|].
  split; [exact Hl|]. split; [exact Ho|exact Hq].
Defined.

Lemma sizeOfExtras_total_witness :
  @sizeOfExtras (elems (arrays set_world) (iextras set_msg)) = Ret 8 ∧
  @sizeOfExtras (elems (arrays wide_world) (iextras wide_msg)) = Ret 0 ∧
  @sizeOfExtras (elems (arrays odd_world) (iextras odd_msg)) =
    Panic "mc: unknown extra type".
Proof.
  split; [|split].
  - apply (proj1 (sizeOfExtras_total (elems (arrays set_world) (iextras set_msg))));
      [reflexivity | vm_compute; congruence].
  - apply (proj1 (proj1 (sizeOfExtras_total (elems (arrays wide_world) (iextras wide_msg)))
                    eq_refl)).
  - apply (proj2 (sizeOfExtras_total (elems (arrays odd_world) (iextras odd_msg)))).
    reflexivity.
Defined.

Lemma sendRecv_write_failure_witness :
  ∃ sc' m',
    @sendRecv memcached set_world sc_broken set_msg =
      Ret (@net_error memcached "broken pipe", set_world, sc', m') ∧
    conn sc' = None ∧ rw sc' = None ∧ closes sc' = 1%nat ∧
    key m' = "foo" ∧ val m' = "bar".
Proof.
  apply (proj2 (@sendRecv_write_failure memcached set_world sc_broken set_msg
                  (mkNetConn [] [] (Some "broken pipe") true) new_bufrw "broken pipe"
                  memcached_wrapError eq_refl eq_refl eq_refl eq_refl eq_refl)).
Defined.

(** ** The response off the wire *)

Section RecvMore.
Context `{Protocol}.

Lemma parse_r_header r :
  r_fits r → parse_header (encode_header (r_header r)) = r_parsed r.
Proof.
  intros (Hst & Hkl & Hel & Hbl). rewrite parse_encode_header. unfold r_parsed.
  cbn [r_header Magic Op KeyLen ExtraLen DataType ResvOrStatus BodyLen Opaque CAS].
  f_equal; try reflexivity; apply uint_small; lia.
Qed.

(** The whole of what [recv] does with a well-framed successful response. *)
Lemma recv_decodes W sc m c w r rest :
  conn sc = Some c → rw sc = Some w → pools_ok (arena W) →
  stat_ok (elems (arrays W) (oextras m)) r →
  incoming c = r_frame r ++ rest →
  ∃ P', pools_ok P' ∧
    recv W sc m =
      Ret (newError 0,
           mkWorld (arrays W)
             (match r_extras r with
              | [] => dests W
              | _ => dests_after (r_extras r) (elems (arrays W) (oextras m)) (dests W)
              end) P',
           consumed sc c (encode_header (r_header r)) rest,
           mkMsg (r_parsed r) (iextras m) (oextras m) (r_key r) (r_val r)).
Proof.
  intros Hc Hw HP (Hfit & Hs0 & Hacc) Hin.
  pose proof (parse_r_header r Hfit) as Hp.
  unfold r_frame in Hin. rewrite <- app_assoc in Hin.
  set (hb := encode_header (r_header r)) in *.
  destruct (recv_frame W sc m c w hb (r_body r) rest Hc Hw HP Hin eq_refl)
    as (buf & P' & Hwb & Hbb & Hlen & HP' & Hrecv).
  { by rewrite Hp. }
  set (oex := elems (arrays W) (oextras m)) in *.
  set (m0 := set_hdr m (parse_header hb)) in *.
  assert (∃ buf',
    decode_extras (hdr m0) oex buf (dests W) =
      Ret (None, buf', match r_extras r with
                       | [] => dests W
                       | _ => dests_after (r_extras r) oex (dests W)
                       end) ∧
    wf_buf buf' ∧ buf_bytes buf' = bytes_of (r_key r) ++ bytes_of (r_val r))
    as (buf' & Hde & Hwb' & Hbb').
  { cbn [hdr m0 set_hdr]. rewrite Hp. unfold r_parsed. rewrite Hs0.
    destruct (r_extras r) as [|x xs] eqn:Hx.
    - exists buf. rewrite decode_extras_skip.
      + split_and!; try done. rewrite Hbb. unfold r_body. by rewrite Hx.
      + right. cbn [ExtraLen]. done.
    - destruct Hacc as [Hacc|[Hd Hfit']]; [congruence|]. rewrite Hx in Hfit'.
      pose proof (decode_extras_run
        (mkHeader (uint8 (r_magic r)) (uint8 (r_op r))
            (Z.of_nat (String.length (r_key r))) (Z.of_nat (length (x :: xs)))
            0 0 (Z.of_nat (length (r_body r))) (uint32 (r_opaque r))
            (uint64 (r_cas r))) oex buf (dests W) (is_dest_no_nil _ Hd) Hwb eq_refl)
        as Hrun.
      cbn [ExtraLen] in Hrun. rewrite Hd in Hrun.
      destruct (Z.leb_spec (extras_width oex) (Z.of_nat (length (x :: xs)))); [|lia].
      destruct Hrun as (buf' & Hde & Hwb' & _ & Hbb').
      { simpl. lia. }
      { rewrite Hlen. unfold r_body. rewrite Hx, length_app. lia. }
      rewrite Hbb, Nat2Z.id in Hde, Hbb'. unfold r_body in Hde, Hbb'. rewrite Hx in Hde, Hbb'.
      rewrite take_app_length in Hde. rewrite drop_app_length in Hbb'. by eauto. }
  assert (0 <= KeyLen (hdr m0)) as Hk0 by (cbn [hdr m0 set_hdr]; apply field_nonneg).
  rewrite (decode_body_tail oex buf m0 _ _ _ Hde Hwb' Hk0) in Hrecv.
  cbn [hdr m0 set_hdr] in Hrecv. rewrite Hp in Hrecv.
  change (KeyLen (r_parsed r)) with (Z.of_nat (String.length (r_key r))) in Hrecv.
  change (ResvOrStatus (r_parsed r)) with (r_status r) in Hrecv. rewrite Hs0 in Hrecv.
  rewrite <- (length_buf_bytes_wf buf' Hwb'), Hbb' in Hrecv.
  rewrite length_app, !length_bytes_of in Hrecv.
  destruct (Z.ltb_spec (Z.of_nat (String.length (r_key r) + String.length (r_val r)))
              (Z.of_nat (String.length (r_key r)))); [lia|].
  rewrite Nat2Z.id in Hrecv. rewrite <- (length_bytes_of (r_key r)) in Hrecv.
  rewrite take_app_length, drop_app_length, !string_of_bytes_of in Hrecv.
  cbn [mbind result_bind] in Hrecv.
  exists P'. split; [done|]. rewrite Hrecv. unfold m0. rewrite Hp. done.
Qed.

(** And with a well-framed response whose status is not 0. *)
Lemma recv_decodes_status W sc m c w r rest :
  conn sc = Some c → rw sc = Some w → pools_ok (arena W) →
  r_fits r → r_status r ≠ 0 → incoming c = r_frame r ++ rest →
  ∃ P', pools_ok P' ∧
    recv W sc m =
      Ret (newError (r_status r), mkWorld (arrays W) (dests W) P',
           consumed sc c (encode_header (r_header r)) rest,
           mkMsg (r_parsed r) (iextras m) (oextras m)
             (String.string_of_list_byte (take (String.length (r_key r)) (r_body r)))
             (String.string_of_list_byte (drop (String.length (r_key r)) (r_body r)))).
Proof.
  intros Hc Hw HP Hfit Hs0 Hin.
  pose proof (parse_r_header r Hfit) as Hp.
  unfold r_frame in Hin. rewrite <- app_assoc in Hin.
  set (hb := encode_header (r_header r)) in *.
  destruct (recv_frame W sc m c w hb (r_body r) rest Hc Hw HP Hin eq_refl)
    as (buf & P' & Hwb & Hbb & Hlen & HP' & Hrecv).
  { by rewrite Hp. }
  set (m0 := set_hdr m (parse_header hb)) in *.
  assert (decode_extras (hdr m0) (elems (arrays W) (oextras m)) buf (dests W)
          = Ret (None, buf, dests W)) as Hde.
  { apply decode_extras_skip. left. cbn [hdr m0 set_hdr]. by rewrite Hp. }
  assert (0 <= KeyLen (hdr m0)) as Hk0 by (cbn [hdr m0 set_hdr]; apply field_nonneg).
  rewrite (decode_body_tail _ buf m0 _ _ _ Hde Hwb Hk0) in Hrecv.
  cbn [hdr m0 set_hdr] in Hrecv. rewrite Hp in Hrecv.
  change (KeyLen (r_parsed r)) with (Z.of_nat (String.length (r_key r))) in Hrecv.
  change (ResvOrStatus (r_parsed r)) with (r_status r) in Hrecv.
  destruct (Z.ltb_spec (len buf) (Z.of_nat (String.length (r_key r)))) as [Hlt|_].
  { rewrite Hlen in Hlt. unfold r_body in Hlt.
    rewrite !length_app, length_bytes_of in Hlt. lia. }
  cbn [mbind result_bind] in Hrecv. rewrite Nat2Z.id, Hbb in Hrecv.
  exists P'. split; [done|]. rewrite Hrecv. unfold m0. rewrite Hp. done.
Qed.

(** X6. A well-framed response with status 0 is decoded in full, whatever
    magic, opcode and opaque it carries ([recv] checks none of them): the
    message receives the nine header fields, the key and the value; each
    destination in [oextras] receives, in order, the big-endian value of its
    share of the extras segment (none is written when the response has no
    extras); exactly the bytes of the frame are taken off the stream, the
    body buffer goes back to valid pools, and [recv] returns what [newError]
    makes of status 0. *)
Theorem recv_decodes_response W sc m c w r rest :
  conn sc = Some c → rw sc = Some w → pools_ok (arena W) →
  r_fits r → r_status r = 0 →
  accepts (elems (arrays W) (oextras m)) r →
  incoming c = r_frame r ++ rest →
  ∃ W' sc' m' c',
    recv W sc m = Ret (newError 0, W', sc', m') ∧
    hdr m' = r_parsed r ∧ key m' = r_key r ∧ val m' = r_val r ∧
    iextras m' = iextras m ∧ oextras m' = oextras m ∧
    dests W' =
      match r_extras r with
      | [] => dests W
      | _ => dests_after (r_extras r) (elems (arrays W) (oextras m)) (dests W)
      end ∧
    arrays W' = arrays W ∧ pools_ok (arena W') ∧
    conn sc' = Some c' ∧ incoming c' = rest ∧ outgoing c' = outgoing c ∧
    hdrBuf sc' = encode_header (r_header r) ∧ closes sc' = closes sc.
Proof.
  intros Hc Hw HP Hfit Hs0 Hacc Hin.
  destruct (recv_decodes W sc m c w r rest Hc Hw HP (conj Hfit (conj Hs0 Hacc)) Hin)
    as (P' & HP' & Hr).
  eexists _, _, _, _. split; [exact Hr|]. by split_and!.
Qed.

(** X7. A well-framed response with a status other than 0 is decoded
    without an extras step: no destination is written, the key is the first
    [KeyLen] bytes of the body and the value the rest (the response's own
    key and value when it carries no extras), the header fields are stored,
    the frame is taken off the stream and [recv] returns what [newError]
    makes of the status. *)
Theorem recv_error_response W sc m c w r rest :
  conn sc = Some c → rw sc = Some w → pools_ok (arena W) →
  r_fits r → r_status r ≠ 0 → incoming c = r_frame r ++ rest →
  ∃ W' sc' m' c',
    recv W sc m = Ret (newError (r_status r), W', sc', m') ∧
    hdr m' = r_parsed r ∧
    bytes_of (key m') ++ bytes_of (val m') = r_body r ∧
    String.length (key m') = String.length (r_key r) ∧
    (r_extras r = [] → key m' = r_key r ∧ val m' = r_val r) ∧
    dests W' = dests W ∧ arrays W' = arrays W ∧ pools_ok (arena W') ∧
    conn sc' = Some c' ∧ incoming c' = rest ∧ closes sc' = closes sc.
Proof.
  intros Hc Hw HP Hfit Hs0 Hin.
  destruct (recv_decodes_status W sc m c w r rest Hc Hw HP Hfit Hs0 Hin)
    as (P' & HP' & Hr).
  eexists _, _, _, _. split; [exact Hr|]. cbn [hdr key val arrays dests arena].
  assert (String.length (r_key r) ≤ length (r_body r))%nat as Hle
    by (unfold r_body; rewrite !length_app, length_bytes_of; lia).
  split_and!; try done.
  - unfold bytes_of. rewrite !String.list_byte_of_string_of_list_byte.
    apply take_drop.
  - rewrite <- length_bytes_of. unfold bytes_of.
    rewrite String.list_byte_of_string_of_list_byte, length_take. lia.
  - intros Hx. unfold r_body. rewrite Hx, app_nil_l.
    rewrite <- (length_bytes_of (r_key r)).
    by rewrite take_app_length, drop_app_length, !string_of_bytes_of.
Qed.

(** *** A stream that ends early *)

Lemma recv_short_body W sc m c w hb tail :
  conn sc = Some c → rw sc = Some w → pools_ok (arena W) →
  incoming c = hb ++ tail → length hb = 24%nat →
  Z.of_nat (length tail) < BodyLen (parse_header hb) →
  ∃ x P', pools_ok P' ∧
    recv W sc m =
      Ret (net_error x, set_arena W P', consumed sc c hb [],
           set_hdr m (parse_header hb)).
Proof.
  intros Hc Hw HP Hi Hh Hb. unfold recv. rewrite Hc, Hw.
  rewrite (ReadFull_ok 24 c hb tail Hi Hh).
  cbn [hdrBuf set_conn set_hdrBuf hdr set_hdr].
  rewrite take_app_length' by done. rewrite to_int_BodyLen.
  set (h := parse_header hb) in *.
  assert (0 <= BodyLen h) as Hb0 by apply field_nonneg.
  destruct (getBodyBuffer_ok (arena W) (BodyLen h) HP Hb0) as (b & P1 & Hg & Hl & Hcap & HP1).
  rewrite Hg. cbn [mbind result_bind].
  destruct (ReadFull_short (buf_len b)
              (mkNetConn tail (outgoing c) (write_error c) (isTCP c))) as [x ->].
  { cbn [incoming]. unfold len in Hl. lia. }
  cbn [incoming outgoing write_error isTCP].
  eexists x, _. split; [|reflexivity]. by apply putBodyBuffer_ok.
Qed.

(** X8. When the stream ends before the 24 bytes of a header are there,
    [recv] returns a network-class error and leaves the message, the
    destinations and the pools untouched; when it ends after a header but
    before the body the header announces, [recv] returns a network-class
    error with the header fields already stored in the message, key, value
    and destinations untouched and the body buffer back in valid pools.  In
    both cases the stream has been read to its end. *)
Theorem recv_stream_ends W sc m c w :
  conn sc = Some c → rw sc = Some w → pools_ok (arena W) →
  ((length (incoming c) < 24)%nat →
     ∃ x sc' c',
       recv W sc m = Ret (net_error x, W, sc', m) ∧
       conn sc' = Some c' ∧ incoming c' = [] ∧ closes sc' = closes sc) ∧
  (∀ hb tail,
     incoming c = hb ++ tail → length hb = 24%nat →
     Z.of_nat (length tail) < BodyLen (parse_header hb) →
     ∃ x W' sc' c',
       recv W sc m = Ret (net_error x, W', sc', set_hdr m (parse_header hb)) ∧
       dests W' = dests W ∧ arrays W' = arrays W ∧ pools_ok (arena W') ∧
       conn sc' = Some c' ∧ incoming c' = [] ∧ closes sc' = closes sc).
Proof.
  intros Hc Hw HP. split.
  - intros Hl. unfold recv. rewrite Hc, Hw.
    destruct (ReadFull_short 24 c Hl) as [x ->].
    eexists x, _, _. split; [reflexivity|]. by split_and!.
  - intros hb tail Hi Hh Hb.
    destruct (recv_short_body W sc m c w hb tail Hc Hw HP Hi Hh Hb) as (x & P' & HP' & Hr).
    eexists x, _, _, _. split; [exact Hr|]. by split_and!.
Qed.

(** *** What [recv] touches *)

Lemma read_dest_shape n eb off l d d' :
  read_dest n eb off l d = Ret d' → ∃ v, d' = <[l := v]> d.
Proof.
  unfold read_dest. destruct (slice_from eb off) as [b|]; [|done].
  cbn [mbind result_bind]. destruct (Uint n b) as [v|]; [|done].
  cbn [mbind result_bind]. intros [= <-]. by eexists.
Qed.

Lemma read_nil_panics n eb off r : read_nil n eb off ≠ Ret r.
Proof.
  unfold read_nil. destruct (slice_from eb off) as [b|]; [|done].
  cbn [mbind result_bind]. by destruct (Uint n b).
Qed.

(** The loop over the destinations writes through the pointers of the list
    only. *)
Lemma read_extras_frame eb oex : ∀ off d err d',
  read_extras eb off oex d = Ret (err, d') →
  ∀ l, l ∉ dest_locs oex → d' !! l = d !! l.
Proof.
  induction oex as [|e r IH]; intros off d err d' Hr l Hl.
  { by injection Hr as _ <-. }
  unfold dest_locs in *. cbn [read_extras] in Hr.
  destruct e; try (by injection Hr as _ <-);
    (destruct (_ <? _); [by injection Hr as _ <-|]);
    try (cbn [omap list_omap dest_loc] in Hl; apply not_elem_of_cons in Hl as [Hne Hl]);
    try (by apply read_nil_panics in Hr);
    try (by destruct (index eb off)).
  - destruct (index eb off) as [x|]; [|done]. cbn [mbind result_bind] in Hr.
    rewrite (IH _ _ _ _ Hr l Hl). by apply lookup_insert_ne.
  - destruct (read_dest 2 eb off l0 d) as [d0|] eqn:Hd; [|done].
    cbn [mbind result_bind] in Hr. apply read_dest_shape in Hd as [v ->].
    rewrite (IH _ _ _ _ Hr l Hl). by apply lookup_insert_ne.
  - destruct (read_dest 4 eb off l0 d) as [d0|] eqn:Hd; [|done].
    cbn [mbind result_bind] in Hr. apply read_dest_shape in Hd as [v ->].
    rewrite (IH _ _ _ _ Hr l Hl). by apply lookup_insert_ne.
  - destruct (read_dest 8 eb off l0 d) as [d0|] eqn:Hd; [|done].
    cbn [mbind result_bind] in Hr. apply read_dest_shape in Hd as [v ->].
    rewrite (IH _ _ _ _ Hr l Hl). by apply lookup_insert_ne.
Qed.

Lemma decode_body_frame oex body m d err d' m' :
  decode_body oex body m d = Ret (err, d', m') →
  ∀ l, l ∉ dest_locs oex → d' !! l = d !! l.
Proof.
  unfold decode_body, decode_extras. intros Hd l Hl.
  destruct (_ && _).
  - destruct (_ <? _).
    + cbn [mbind result_bind] in Hd. by injection Hd as _ <- _.
    + destruct (slice_to body _) as [eb|]; [|done].
      destruct (slice_from body _) as [b'|]; [|done]. cbn [mbind result_bind] in Hd.
      destruct (read_extras eb 0 oex d) as [[e0 d0]|] eqn:Hr; [|done].
      cbn [mbind result_bind] in Hd.
      pose proof (read_extras_frame _ _ _ _ _ _ Hr l Hl) as <-.
      destruct e0; [by injection Hd as _ <- _|].
      destruct (_ <? _); [by injection Hd as _ <- _|].
      destruct (slice_to b' _); [|done]. destruct (slice_from b' _); [|done].
      cbn [mbind result_bind] in Hd. by injection Hd as _ <- _.
  - cbn [mbind result_bind] in Hd.
    destruct (_ <? _); [by injection Hd as _ <- _|].
    destruct (slice_to body _); [|done]. destruct (slice_from body _); [|done].
    cbn [mbind result_bind] in Hd. by injection Hd as _ <- _.
Qed.

Lemma kept_refl n : kept n n.
Proof. unfold kept. lia. Qed.

(** A buffer taken from valid pools and given back: the pools are valid
    again and every pool holds what it held, or the buffer [New] made. *)
Lemma getBodyBuffer_put_kept P s b P1 b' :
  pools_ok P → 0 <= s → getBodyBuffer s P = Ret (b, P1) → cap b' = cap b →
  pools_ok (putBodyBuffer b' P1) ∧
  kept (length (smallBodyPool P)) (length (smallBodyPool (putBodyBuffer b' P1))) ∧
  kept (length (mediumBodyPool P)) (length (mediumBodyPool (putBodyBuffer b' P1))) ∧
  kept (length (largeBodyPool P)) (length (largeBodyPool (putBodyBuffer b' P1))).
Proof.
  intros HP Hs Hg Hc.
  destruct (getBodyBuffer_ok P s HP Hs) as (b0 & P0 & Hg0 & _ & _ & HP0).
  rewrite Hg0 in Hg. injection Hg as <- <-.
  split; [by apply putBodyBuffer_ok|].
  destruct HP as (H1 & H2 & H3). unfold getBodyBuffer in Hg0. unfold putBodyBuffer.
  rewrite Hc. clear Hc HP0.
  assert (∀ (c : Z) (p : pool) x p', 0 < c → s <= c → pool_ok c p →
            pool_get c p = (x, p') →
            slice_to x s = Ret (mkBuf (buf_arr x) (buf_off x + 0) (Z.to_nat s)) ∧
            cap x = c ∧ kept (length p) (S (length p'))) as Hget.
  { intros c p x p' Hc0 Hsc Hp Hget.
    assert (cap x = c) as Hx by (apply (pool_get_cap c p x p'); [lia|done|done]).
    split; [apply slice_to_ok; lia|]. split; [done|].
    destruct p; simpl in Hget; injection Hget as <- <-; unfold kept; simpl; lia. }
  assert (∀ x, cap (mkBuf (buf_arr x) (buf_off x + 0) (Z.to_nat s)) = cap x) as Hcap
    by (intros x; unfold cap; simpl; f_equal; lia).
  destruct (Z.leb_spec s 256).
  { destruct (pool_get 256 (smallBodyPool P)) as [x p] eqn:E.
    destruct (Hget 256 _ _ _ ltac:(lia) ltac:(lia) H1 E) as (Hsl & Hx & Hk).
    rewrite Hsl in Hg0. injection Hg0 as <- <-. rewrite Hcap, Hx.
    cbn. split_and!; [done | apply kept_refl | apply kept_refl]. }
  destruct (Z.leb_spec s 4096).
  { destruct (pool_get 4096 (mediumBodyPool P)) as [x p] eqn:E.
    destruct (Hget 4096 _ _ _ ltac:(lia) ltac:(lia) H2 E) as (Hsl & Hx & Hk).
    rewrite Hsl in Hg0. injection Hg0 as <- <-. rewrite Hcap, Hx.
    cbn. split_and!; [apply kept_refl | done | apply kept_refl]. }
  destruct (Z.leb_spec s 65536).
  { destruct (pool_get 65536 (largeBodyPool P)) as [x p] eqn:E.
    destruct (Hget 65536 _ _ _ ltac:(lia) ltac:(lia) H3 E) as (Hsl & Hx & Hk).
    rewrite Hsl in Hg0. injection Hg0 as <- <-. rewrite Hcap, Hx.
    cbn. split_and!; [apply kept_refl | apply kept_refl | done]. }
  injection Hg0 as <- <-. rewrite cap_make_bytes by lia.
  destruct (Z.eqb_spec s 256); [lia|]. destruct (Z.eqb_spec s 4096); [lia|].
  destruct (Z.eqb_spec s 65536); [lia|].
  split_and!; apply kept_refl.
Qed.

Lemma cap_fill body got : cap (fill body got) = cap body.
Proof. unfold cap, fill. simpl. by rewrite length_inserts. Qed.

(** The effect of a call of [recv] that returns, on everything but the
    message's header, key and value. *)
Lemma recv_effect W sc m err W' sc' m' :
  pools_ok (arena W) → recv W sc m = Ret (err, W', sc', m') →
  pools_ok (arena W') ∧
  kept (length (smallBodyPool (arena W))) (length (smallBodyPool (arena W'))) ∧
  kept (length (mediumBodyPool (arena W))) (length (mediumBodyPool (arena W'))) ∧
  kept (length (largeBodyPool (arena W))) (length (largeBodyPool (arena W'))) ∧
  (∀ l, l ∉ dest_locs (elems (arrays W) (oextras m)) → dests W' !! l = dests W !! l) ∧
  ∃ c c', conn sc = Some c ∧ conn sc' = Some c' ∧
          outgoing c' = outgoing c ∧ write_error c' = write_error c ∧
          isTCP c' = isTCP c ∧
          (length (incoming c') ≤ length (incoming c))%nat ∧
          opq sc' = opq sc ∧ sc_backupMsg sc' = sc_backupMsg sc.
Proof.
  intros HP. unfold recv. destruct (conn sc) as [c|] eqn:Hc; [|done].
  destruct (rw sc) as [w|] eqn:Hw; [|done].
  assert (∀ n (c0 : netConn) e g c1, ReadFull n c0 = (e, g, c1) →
            outgoing c1 = outgoing c0 ∧ write_error c1 = write_error c0 ∧
            isTCP c1 = isTCP c0 ∧ (length (incoming c1) ≤ length (incoming c0))%nat) as Hrf.
  { intros n c0 e g c1. unfold ReadFull. destruct (_ <=? _)%nat; intros [= _ _ <-]; simpl;
      split_and!; try done; [rewrite length_drop|]; lia. }
  destruct (ReadFull 24 c) as [[[x|] got] c1] eqn:Hr1;
    destruct (Hrf _ _ _ _ _ Hr1) as (Ho1 & He1 & Ht1 & Hl1).
  { intros [= _ <- <- _]. split_and!; try done; try apply kept_refl.
    eexists _, _. split; [done|]. split; [reflexivity|]. by split_and!. }
  cbn [hdrBuf set_conn set_hdrBuf hdr set_hdr oextras].
  rewrite to_int_BodyLen.
  set (h := parse_header _).
  assert (0 <= BodyLen h) as Hb by apply field_nonneg.
  destruct (getBodyBuffer (BodyLen h) (arena W)) as [[body P]|] eqn:Hg; [|done].
  cbn [mbind result_bind].
  destruct (ReadFull (buf_len body) c1) as [[[x|] got'] c2] eqn:Hr2;
    destruct (Hrf _ _ _ _ _ Hr2) as (Ho2 & He2 & Ht2 & Hl2).
  { intros [= _ <- <- _].
    destruct (getBodyBuffer_put_kept _ _ _ _ (fill body got') HP Hb Hg (cap_fill _ _))
      as (? & ? & ? & ?).
    cbn [arena set_arena dests]. split_and!; try done.
    eexists _, _. split; [done|]. split; [reflexivity|].
    split_and!; try done; try congruence. lia. }
  destruct (decode_body _ _ _ _) as [[[err0 d] m0]|] eqn:Hd; [|done].
  cbn [mbind result_bind]. intros [= _ <- <- _].
  destruct (getBodyBuffer_put_kept _ _ _ _ (fill body got') HP Hb Hg (cap_fill _ _))
    as (? & ? & ? & ?).
  cbn [arena set_arena set_dests dests]. split_and!; try done.
  - intros l Hl. by apply (decode_body_frame _ _ _ _ _ _ _ Hd).
  - eexists _, _. split; [done|]. split; [reflexivity|].
    split_and!; try done; try congruence. lia.
Qed.

(** X9. Whatever the peer sends, a call of [recv] that returns has given
    its body buffer back on every path: the pools are valid again and each
    holds at least the buffers it held, and at most the one [New] made.
    Besides the message's header, key and value it wrote only through the
    pointers in [oextras]: every other variable, the backing arrays and the
    two extras slices are as before; nothing was written to the wire, nothing
    was closed, and the request counter and the snapshot slot are
    untouched. *)
Theorem recv_footprint W sc m err W' sc' m' :
  pools_ok (arena W) → recv W sc m = Ret (err, W', sc', m') →
  pools_ok (arena W') ∧
  kept (length (smallBodyPool (arena W))) (length (smallBodyPool (arena W'))) ∧
  kept (length (mediumBodyPool (arena W))) (length (mediumBodyPool (arena W'))) ∧
  kept (length (largeBodyPool (arena W))) (length (largeBodyPool (arena W'))) ∧
  (∀ l, l ∉ dest_locs (elems (arrays W) (oextras m)) → dests W' !! l = dests W !! l) ∧
  arrays W' = arrays W ∧ iextras m' = iextras m ∧ oextras m' = oextras m ∧
  closes sc' = closes sc ∧ rw sc' = rw sc ∧ opq sc' = opq sc ∧
  sc_backupMsg sc' = sc_backupMsg sc ∧
  ∃ c c', conn sc = Some c ∧ conn sc' = Some c' ∧ outgoing c' = outgoing c ∧
          write_error c' = write_error c ∧
          (length (incoming c') ≤ length (incoming c))%nat.
Proof.
  intros HP Hr.
  destruct (recv_effect _ _ _ _ _ _ _ HP Hr)
    as (HP' & Hs & Hm & Hl & Hd & c & c' & Hc & Hc' & Ho & He & _ & Hi & Hq & Hbk).
  destruct (recv_ret_shape _ _ _ _ _ _ _ Hr) as (_ & _ & Hrw & _ & Hcl & Ha & Hie & Hoe).
  split_and!; try done. by eexists c, c'.
Qed.

End RecvMore.

(** The response of the receive test: flags 0xCAFEBABE in the extras, key
    ["foo"], value ["world"], CAS 999, opaque 123. *)
Lemma recv_decodes_response_witness :
  ∃ W' sc' m' c',
    @recv memcached got_world (sc_with (r_frame got_response ++ [])) got_msg =
      Ret (None, W', sc', m') ∧
    key m' = "foo" ∧ val m' = "world" ∧
    Opaque (hdr m') = 123 ∧ CAS (hdr m') = 999 ∧
    dests W' !! 0%nat = Some 3405691582 ∧
    conn sc' = Some c' ∧ incoming c' = [].
Proof.
  destruct (@recv_decodes_response memcached got_world
              (sc_with (r_frame got_response ++ [])) got_msg
              (conn_with (r_frame got_response ++ [])) new_bufrw got_response [])
    as (W' & sc' & m' & c' & Hr & Hh & Hk & Hv & _ & _ & Hd & _ & _ & Hc & Hi & _).
  - reflexivity.
  - reflexivity.
  - exact pools_ok_empty.
  - repeat split; by vm_compute.
  - reflexivity.
  - right. split; [reflexivity|]. by vm_compute.
  - reflexivity.
  - exists W', sc', m', c'. split; [exact Hr|].
    split; [exact Hk|]. split; [exact Hv|].
    split; [by rewrite Hh|]. split; [by rewrite Hh|].
    split; [by rewrite Hd|]. split; [exact Hc|exact Hi].
Defined.

Lemma recv_error_response_witness :
  ∃ W' sc' m' c',
    @recv memcached set_world (sc_with (r_frame not_found ++ [])) set_msg =
      Ret (Some (mkError 1 "mc: server error" None), W', sc', m') ∧
    key m' = "" ∧ val m' = "" ∧ dests W' = dests set_world ∧
    conn sc' = Some c' ∧ incoming c' = [].
Proof.
  destruct (@recv_error_response memcached set_world
              (sc_with (r_frame not_found ++ [])) set_msg
              (conn_with (r_frame not_found ++ [])) new_bufrw not_found [])
    as (W' & sc' & m' & c' & Hr & _ & _ & _ & Hkv & Hd & _ & _ & Hc & Hi & _).
  - reflexivity.
  - reflexivity.
  - exact pools_ok_empty.
  - repeat split; by vm_compute.
  - by vm_compute.
  - reflexivity.
  - destruct (Hkv eq_refl) as [Hk Hv].
    exists W', sc', m', c'. split; [exact Hr|]. by split_and!.
Defined.

(** A stream of ten bytes, and a header that announces a body of two bytes
    with nothing behind it. *)
Lemma recv_stream_ends_witness :
  (∃ x sc' c',
     @recv memcached set_world (sc_with (replicate 10 x00)) set_msg =
       Ret (@net_error memcached x, set_world, sc', set_msg) ∧
     conn sc' = Some c' ∧ incoming c' = [] ∧ closes sc' = 0%nat) ∧
  (∃ x W' sc' c',
     @recv memcached set_world (sc_with (short_header ++ [])) set_msg =
       Ret (@net_error memcached x, W', sc', set_hdr set_msg (parse_header short_header)) ∧
     dests W' = dests set_world ∧ arrays W' = arrays set_world ∧ pools_ok (arena W') ∧
     conn sc' = Some c' ∧ incoming c' = [] ∧ closes sc' = 0%nat).
Proof.
  split.
  - apply (proj1 (@recv_stream_ends memcached set_world (sc_with (replicate 10 x00)) set_msg
                    (conn_with (replicate 10 x00)) new_bufrw eq_refl eq_refl pools_ok_empty)).
    simpl. lia.
  - apply (proj2 (@recv_stream_ends memcached set_world (sc_with (short_header ++ [])) set_msg
                    (conn_with (short_header ++ [])) new_bufrw eq_refl eq_refl pools_ok_empty)
             short_header []).
    + reflexivity.
    + reflexivity.
    + by vm_compute.
Defined.

Lemma recv_footprint_witness :
  ∃ err W' sc' m',
    @recv memcached got_world (sc_with (r_frame got_response)) got_msg =
      Ret (err, W', sc', m') ∧
    pools_ok (arena W') ∧ length (smallBodyPool (arena W')) = 1%nat ∧
    dests W' !! 1%nat = None ∧ arrays W' = arrays got_world ∧ closes sc' = 0%nat.
Proof.
  destruct (@recv memcached got_world (sc_with (r_frame got_response)) got_msg)
    as [[[[err W'] sc'] m']|] eqn:Hr; [|vm_compute in Hr; discriminate].
  destruct (@recv_footprint memcached got_world (sc_with (r_frame got_response)) got_msg
              err W' sc' m' pools_ok_empty Hr)
    as (HP & Hs & _ & _ & Hd & Ha & _ & _ & Hcl & _).
  exists err, W', sc', m'. split; [reflexivity|]. split; [exact HP|].
  split.
  - vm_compute in Hr. injection Hr as _ <- _ _. reflexivity.
  - split; [|by split].
    rewrite Hd; [reflexivity|]. vm_compute. intros Hin.
    apply list_elem_of_singleton in Hin. discriminate.
Defined.

(** ** The state of the connection across calls *)

Section States.
Context `{Protocol}.

Lemma same_config_refl sc : same_config sc sc.
Proof. by split_and!. Qed.

Lemma same_config_trans sc1 sc2 sc3 :
  same_config sc1 sc2 → same_config sc2 sc3 → same_config sc1 sc3.
Proof. intros (? & ? & ?) (? & ? & ?). split_and!; congruence. Qed.

Lemma close_conn_config sc : same_config sc (close_conn sc).
Proof. unfold close_conn. destruct (conn sc); by split_and!. Qed.

Lemma resetConn_cases e sc : resetConn e sc = close_conn sc ∨ resetConn e sc = sc.
Proof. unfold resetConn. destruct (_ =? _); auto. Qed.

Lemma close_conn_torn sc : connected sc → up_or_torn sc (close_conn sc).
Proof.
  intros [Hc _]. right. destruct (close_conn_closed sc Hc) as (? & ? & ?). by split_and!.
Qed.

Lemma resetConn_up_or_torn e sc : connected sc → up_or_torn sc (resetConn e sc).
Proof.
  intros Hc. destruct (resetConn_cases e sc) as [->| ->].
  - by apply close_conn_torn.
  - by left.
Qed.

(** What [send] leaves alone. *)
Lemma send_keeps W sc m err sc1 m1 :
  send W sc m = Ret (err, sc1, m1) →
  connected sc ∧ connected sc1 ∧ closes sc1 = closes sc ∧ same_config sc sc1 ∧
  sc_backupMsg sc1 = sc_backupMsg sc ∧
  iextras m1 = iextras m ∧ oextras m1 = oextras m ∧ key m1 = key m ∧ val m1 = val m.
Proof.
  unfold send. destruct (sizeOfExtras _) as [el|]; [|done].
  cbn [mbind result_bind]. cbn [conn rw set_hdrBuf set_opq].
  destruct (conn sc) as [c|] eqn:Hc; [|done]. destruct (rw sc) as [w|] eqn:Hw; [|done].
  match goal with |- context [mbind _ ?r] => destruct r as [[[[x|] c'] w']|] end;
    cbn [mbind result_bind]; try done;
    intros [= _ <- <-]; (split; [split; by eexists|]); (split; [split; by eexists|]);
    by split_and!.
Qed.

Lemma recv_keeps W sc m err W' sc' m' :
  recv W sc m = Ret (err, W', sc', m') →
  connected sc ∧ connected sc' ∧ closes sc' = closes sc ∧ same_config sc sc'.
Proof.
  intros Hr. destruct (recv_ret_shape _ _ _ _ _ _ _ Hr) as (Hc & Hc' & Hrw & Hrw' & Hcl & _).
  split; [split; [done|by rewrite <- Hrw]|]. split; [done|]. split; [done|].
  revert Hr. unfold recv. destruct (conn sc) as [c|]; [|done].
  destruct (rw sc) as [w|]; [|done].
  destruct (ReadFull 24 c) as [[[x|] got] c1].
  { intros [= _ _ <- _]. by split_and!. }
  cbn [hdrBuf set_conn set_hdrBuf hdr set_hdr].
  destruct (getBodyBuffer _ _) as [[body P]|]; [|done]. cbn [mbind result_bind].
  destruct (ReadFull (buf_len body) c1) as [[[x|] got'] c2].
  { intros [= _ _ <- _]. by split_and!. }
  destruct (decode_body _ _ _ _) as [[[err0 d] m0]|]; [|done].
  cbn [mbind result_bind]. intros [= _ _ <- _]. by split_and!.
Qed.

(** The request counter: [send] advances it, nothing else touches it. *)
Lemma send_opq W sc m err sc1 m1 :
  send W sc m = Ret (err, sc1, m1) → opq sc1 = uint32 (opq sc + 1).
Proof.
  unfold send. destruct (sizeOfExtras _) as [el|]; [|done].
  cbn [mbind result_bind]. cbn [conn rw set_hdrBuf set_opq].
  destruct (conn sc) as [c|]; [|done]. destruct (rw sc) as [w|]; [|done].
  match goal with |- context [mbind _ ?r] => destruct r as [[[[x|] c'] w']|] end;
    cbn [mbind result_bind]; try done; by intros [= _ <- _].
Qed.

Lemma recv_opq W sc m err W' sc' m' :
  recv W sc m = Ret (err, W', sc', m') → opq sc' = opq sc.
Proof.
  unfold recv. destruct (conn sc) as [c|]; [|done].
  destruct (rw sc) as [w|]; [|done].
  destruct (ReadFull 24 c) as [[[x|] got] c1].
  { by intros [= _ _ <- _]. }
  cbn [hdrBuf set_conn set_hdrBuf hdr set_hdr].
  destruct (getBodyBuffer _ _) as [[body P]|]; [|done]. cbn [mbind result_bind].
  destruct (ReadFull (buf_len body) c1) as [[[x|] got'] c2].
  { by intros [= _ _ <- _]. }
  destruct (decode_body _ _ _ _) as [[[err0 d] m0]|]; [|done].
  cbn [mbind result_bind]. by intros [= _ _ <- _].
Qed.

Lemma close_conn_opq sc : opq (close_conn sc) = opq sc.
Proof. unfold close_conn. by destruct (conn sc). Qed.

Lemma resetConn_opq e sc : opq (resetConn e sc) = opq sc.
Proof. destruct (resetConn_cases e sc) as [-> | ->]; [apply close_conn_opq|done]. Qed.

Lemma sendRecv_opq W sc m err W' sc' m' :
  sendRecv W sc m = Ret (err, W', sc', m') → opq sc' = uint32 (opq sc + 1).
Proof.
  unfold sendRecv.
  destruct (send W sc m) as [[[[e|] sc1] m1]|] eqn:Hs; cbn [mbind result_bind]; [| |done];
    pose proof (send_opq _ _ _ _ _ _ Hs) as Hq.
  - intros [= _ _ <- _]. by rewrite resetConn_opq.
  - destruct (recv W sc1 m1) as [[[[[e|] W2] sc2] m2]|] eqn:Hr; cbn [mbind result_bind];
      [| |done]; pose proof (recv_opq _ _ _ _ _ _ _ Hr) as Hq2; intros [= _ _ <- _].
    + rewrite resetConn_opq. congruence.
    + congruence.
Qed.

(** The state after a call of [sendRecv] that returns. *)
Lemma sendRecv_state W sc m err W' sc' m' :
  sendRecv W sc m = Ret (err, W', sc', m') →
  connected sc ∧ same_config sc sc' ∧ up_or_torn sc sc' ∧
  (err = None → connected sc' ∧ closes sc' = closes sc) ∧
  arrays W' = arrays W ∧ iextras m' = iextras m ∧ oextras m' = oextras m ∧
  (pools_ok (arena W) → pools_ok (arena W')).
Proof.
  unfold sendRecv.
  destruct (send W sc m) as [[[[e|] sc1] m1]|] eqn:Hs; cbn [mbind result_bind]; [| |done];
    destruct (send_keeps _ _ _ _ _ _ Hs) as (Hc & Hc1 & Hcl1 & Hcf1 & _ & Hi1 & Ho1 & _).
  - intros [= <- <- <- <-]. split; [done|].
    destruct (resetConn_cases e sc1) as [-> | ->].
    + split; [eapply same_config_trans; [done|apply close_conn_config]|].
      destruct (close_conn_torn sc1 Hc1) as [[_ Hx]|[Hd Hx]].
      * destruct (close_conn_closed sc1 (proj1 Hc1)) as (_ & _ & Hy). lia.
      * split_and!; try done. right. split; [done|congruence].
    + split_and!; try done. left. by split.
  - destruct (recv W sc1 m1) as [[[[[e|] W2] sc2] m2]|] eqn:Hr; cbn [mbind result_bind];
      [| |done];
      destruct (recv_keeps _ _ _ _ _ _ _ Hr) as (_ & Hc2 & Hcl2 & Hcf2);
      destruct (recv_ret_shape _ _ _ _ _ _ _ Hr) as (_ & _ & _ & _ & _ & Ha & Hi2 & Ho2);
      intros [= <- <- <- <-]; (split; [done|]).
    + assert (pools_ok (arena W) → pools_ok (arena W2)) as HP
        by (intros HP; by destruct (recv_effect _ _ _ _ _ _ _ HP Hr)).
      destruct (resetConn_cases e sc2) as [-> | ->].
      * split; [eapply same_config_trans; [done|];
                eapply same_config_trans; [done|apply close_conn_config]|].
        destruct (close_conn_closed sc2 (proj1 Hc2)) as (Hx & Hy & Hz).
        split_and!; try done; try congruence. right. split; [done|congruence].
      * split; [by eapply same_config_trans|].
        split_and!; try done; try congruence. left. split; [done|congruence].
    + assert (pools_ok (arena W) → pools_ok (arena W2)) as HP
        by (intros HP; by destruct (recv_effect _ _ _ _ _ _ _ HP Hr)).
      split; [by eapply same_config_trans|].
      split_and!; try done; try congruence.
      * left. split; [done|congruence].
      * intros _. split; [done|congruence].
Qed.

(** On a connection that is up, with valid pools, supported extras and
    destinations none of which is a nil pointer, [sendRecv] returns. *)
Lemma sendRecv_returns W sc m :
  connected sc → pools_ok (arena W) →
  forallb supported (elems (arrays W) (iextras m)) = true →
  no_nil_dests (elems (arrays W) (oextras m)) →
  ∃ err W' sc' m', sendRecv W sc m = Ret (err, W', sc', m').
Proof.
  intros [[c Hc] [w Hw]] HP Hs Hnn.
  destruct (send_returns W sc m c w Hc Hw Hs) as (err & c' & w' & Hsend & _).
  unfold sendRecv. rewrite Hsend. cbn [mbind result_bind].
  destruct err as [e|]; [by eauto|].
  match goal with |- context [recv W ?s ?m0] =>
    destruct (recv_never_panics W s m0) as ([e|] & W2 & sc2 & m2 & ->) end;
    try done; try (by eexists); cbn [mbind result_bind]; by eauto.
Qed.

(** [auth] on a connection that is up. *)
Lemma auth_state W sc :
  connected sc → pools_ok (arena W) →
  ∃ err W' sc',
    auth W sc = Ret (err, W', sc') ∧ same_config sc sc' ∧ up_or_torn sc sc' ∧
    (err = None → connected sc' ∧ closes sc' = closes sc) ∧
    pools_ok (arena W') ∧ arrays W' = arrays W.
Proof.
  intros Hc HP. unfold auth. destruct (_ && _).
  { eexists _, _, _. split; [done|]. split_and!;
      first [done | apply same_config_refl | by left]. }
  unfold authList.
  match goal with |- context [sendRecv W sc ?m0] =>
    destruct (sendRecv_returns W sc m0 Hc HP eq_refl eq_refl) as (err1 & W1 & sc1 & m1 & Hl) end.
  rewrite Hl. cbn [mbind result_bind].
  destruct (sendRecv_state _ _ _ _ _ _ _ Hl) as (_ & Hcf1 & Hst1 & Hn1 & Ha1 & _ & _ & HP1).
  specialize (HP1 HP).
  destruct err1 as [e1|].
  { eexists _, _, _. split; [done|]. by split_and!. }
  destruct (Hn1 eq_refl) as [Hc1 Hcl1].
  destruct (contains "PLAIN" (val m1)).
  - unfold authPlain.
    match goal with |- context [sendRecv W1 sc1 ?m0] =>
      destruct (sendRecv_returns W1 sc1 m0 Hc1 HP1 eq_refl eq_refl) as (err2 & W2 & sc2 & m2 & Hp) end.
    rewrite Hp. cbn [mbind result_bind].
    destruct (sendRecv_state _ _ _ _ _ _ _ Hp) as (_ & Hcf2 & Hst2 & Hn2 & Ha2 & _ & _ & HP2).
    eexists _, _, _. split; [done|].
    split; [by eapply same_config_trans|].
    split_and!; try done; try congruence.
    + destruct Hst2 as [[? ?]|[? ?]]; [left|right]; split; try done; congruence.
    + intros ->. destruct (Hn2 eq_refl). split; [done|congruence].
    + by apply HP2.
  - eexists _, _, _. split; [done|]. split_and!; first [done | by left].
Qed.

(** [connect] on a connection that is down. *)
Lemma connect_state d W sc :
  wrapError_keeps_status → StatusUnknownCommand ≠ StatusNetworkError →
  disconnected sc → dials_tcp sc d → pools_ok (arena W) →
  ∃ err W' sc',
    connect d W sc = Ret (err, W', sc') ∧ same_config sc sc' ∧
    pools_ok (arena W') ∧ arrays W' = arrays W ∧
    match err with
    | None => connected sc' ∧ closes sc' = closes sc
    | Some _ => disconnected sc' ∧ (closes sc ≤ closes sc' ≤ S (closes sc))%nat
    end.
Proof.
  intros Hwrap Hne Hd Htcp HP. destruct d as [e|c]; cbn [connect].
  { unfold net_error. eexists _, _, _. split; [done|].
    destruct Hd. split_and!; first [done | apply same_config_refl | lia]. }
  cbn [dials_tcp] in Htcp. cbn [scheme set_conn]. rewrite Htcp.
  set (sc0 := set_rw (set_conn sc c) new_bufrw).
  assert (connected sc0) as Hc0 by (split; by eexists).
  destruct (auth_state W sc0 Hc0 HP) as (err & W' & sc' & Ha & Hcf & Hst & Hn & HP' & Harr).
  rewrite Ha. cbn [mbind result_bind].
  assert (same_config sc sc') as Hcf' by (destruct Hcf as (? & ? & ?); by split_and!).
  change (closes sc0) with (closes sc) in *.
  destruct err as [e|].
  - pose proof (auth_ret_shape _ _ _ _ _ Hwrap (proj1 Hc0) (proj2 Hc0) Ha) as Hsh.
    cbn beta iota in Hsh.
    destruct (Z.eqb_spec (Status e) StatusUnknownCommand) as [He|He]; cbn [negb].
    + destruct Hsh as [(Hx & _)|(? & ? & Hcl & _)]; [congruence|].
      change (closes sc0) with (closes sc) in Hcl.
      eexists _, _, _. split; [done|]. by split_and!.
    + assert (disconnected (close_conn sc') ∧
              (closes sc ≤ closes (close_conn sc') ≤ S (closes sc))%nat) as [Hd' Hcl'].
      { destruct Hst as [[Hu Hcl]|[[Hx Hy] Hcl]];
          change (closes sc0) with (closes sc) in Hcl.
        - destruct (close_conn_closed sc' (proj1 Hu)) as (? & ? & Hz).
          split; [by split|lia].
        - unfold close_conn. rewrite Hx. split; [by split|lia]. }
      eexists _, _, _. split; [done|].
      split; [eapply same_config_trans; [done|apply close_conn_config]|].
      destruct Hd'. split_and!; first [done | lia].
  - eexists _, _, _. split; [done|]. split_and!; try done; by apply Hn.
Qed.

(** X10. From any state that is up or down (never half set up), with valid
    pools, a dialler that answers the scheme and a request whose extras are
    supported and whose destinations hold no nil pointer, [perform] returns,
    whatever the peer sends or fails to send: no nil dereference, no slice or
    index out of range ([int] being 64 bits wide).  It leaves the connection
    up or down again, up with nothing closed when it returns nil, the socket
    closed at most once otherwise, the pools valid, the configuration, the
    backing arrays and the extras slices as they were: all it needs to be
    called again. *)
Theorem perform_never_panics d W sc m :
  wrapError_keeps_status → StatusUnknownCommand ≠ StatusNetworkError →
  consistent sc → dials_tcp sc d → pools_ok (arena W) →
  forallb supported (elems (arrays W) (iextras m)) = true →
  no_nil_dests (elems (arrays W) (oextras m)) →
  ∃ err W' sc' m',
    perform d W sc m = Ret (err, W', sc', m') ∧
    consistent sc' ∧ (err = None → connected sc' ∧ closes sc' = closes sc) ∧
    (closes sc ≤ closes sc' ≤ S (closes sc))%nat ∧
    same_config sc sc' ∧ pools_ok (arena W') ∧ arrays W' = arrays W ∧
    iextras m' = iextras m ∧ oextras m' = oextras m.
Proof.
  intros Hwrap Hne Hcons Htcp HP Hs Hnn.
  assert (∀ W0 sc0, connected sc0 → pools_ok (arena W0) → arrays W0 = arrays W →
    ∃ err W' sc' m',
      sendRecv W0 sc0 m = Ret (err, W', sc', m') ∧
      consistent sc' ∧ (err = None → connected sc' ∧ closes sc' = closes sc0) ∧
      (closes sc0 ≤ closes sc' ≤ S (closes sc0))%nat ∧
      same_config sc0 sc' ∧ pools_ok (arena W') ∧ arrays W' = arrays W ∧
      iextras m' = iextras m ∧ oextras m' = oextras m) as Hsr.
  { intros W0 sc0 Hc0 HP0 Ha0.
    destruct (sendRecv_returns W0 sc0 m Hc0 HP0) as (err & W' & sc' & m' & Hr);
      [by rewrite Ha0|by rewrite Ha0|].
    destruct (sendRecv_state _ _ _ _ _ _ _ Hr) as (_ & Hcf & Hst & Hn & Ha & Hi & Ho & HP').
    exists err, W', sc', m'. split; [done|].
    split_and!; try done; try congruence; try (by apply HP').
    - destruct Hst as [[? _]|[? _]]; [by right|by left].
    - destruct Hst as [[_ ?]|[_ ?]]; lia.
    - destruct Hst as [[_ ?]|[_ ?]]; lia. }
  unfold perform. destruct (conn sc) as [c|] eqn:Hc.
  { apply Hsr; try done. destruct Hcons as [[Hx _]|Hu]; [congruence|done]. }
  assert (disconnected sc) as Hd.
  { destruct Hcons as [Hd|[[? Hx] _]]; [done|congruence]. }
  destruct (connect_state d W sc Hwrap Hne Hd Htcp HP)
    as (err & W1 & sc1 & Hcn & Hcf1 & HP1 & Ha1 & Hst1).
  rewrite Hcn. cbn [mbind result_bind]. destruct err as [e|].
  - destruct Hst1 as [Hd1 Hcl1]. eexists _, _, _, _. split; [done|].
    split_and!; try done; try lia. by left.
  - destruct Hst1 as [Hc1 Hcl1].
    destruct (Hsr W1 sc1 Hc1 HP1 Ha1)
      as (err & W' & sc' & m' & Hr & Hcons' & Hn & Hcl & Hcf & HP' & Ha & Hi & Ho).
    exists err, W', sc', m'. split; [done|].
    split_and!; try done; try lia.
    + intros He. destruct (Hn He). split; [done|congruence].
    + by eapply same_config_trans.
Qed.

(** X11. [quit] on a connection that is down does nothing at all.  On a
    connection that is up it sends the request and drops the outcome; every
    call that returns leaves the connection down with the socket closed
    exactly once, whether the exchange itself tore the connection down or
    went through, and the configuration, the pools and the backing arrays in
    order.  The call does return when no destination of the message is a nil
    pointer. *)
Theorem quit_disconnects W sc m :
  consistent sc → pools_ok (arena W) →
  forallb supported (elems (arrays W) (iextras m)) = true →
  (conn sc = None → quit W sc m = Ret (W, sc, m)) ∧
  (∀ W' sc' m', quit W sc m = Ret (W', sc', m') →
     disconnected sc' ∧
     closes sc' = match conn sc with Some _ => S (closes sc) | None => closes sc end ∧
     same_config sc sc' ∧ pools_ok (arena W') ∧ arrays W' = arrays W) ∧
  (no_nil_dests (elems (arrays W) (oextras m)) →
   ∃ W' sc' m', quit W sc m = Ret (W', sc', m')).
Proof.
  intros Hcons HP Hs. unfold quit. destruct (conn sc) as [c|] eqn:Hc.
  - assert (connected sc) as Hu.
    { destruct Hcons as [[Hx _]|Hu]; [congruence|done]. }
    split; [done|]. split.
    + intros W' sc' m'.
      destruct (sendRecv W sc m) as [[[[err W1] sc1] m1]|] eqn:Hr; [|done].
      cbn [mbind result_bind]. intros [= <- <- <-].
      destruct (sendRecv_state _ _ _ _ _ _ _ Hr) as (_ & Hcf & Hst & _ & Ha & _ & _ & HP').
      split_and!; try done.
      * destruct Hst as [[Hx _]|[[Hx Hy] _]].
        -- by destruct (close_conn_closed sc1 (proj1 Hx)) as (? & ? & _).
        -- unfold close_conn. rewrite Hx. by split.
      * destruct Hst as [[Hx Hcl]|[[Hx Hy] Hcl]].
        -- destruct (close_conn_closed sc1 (proj1 Hx)) as (_ & _ & Hz). congruence.
        -- unfold close_conn. by rewrite Hx.
      * eapply same_config_trans; [done|apply close_conn_config].
      * by apply HP'.
    + intros Hnn.
      destruct (sendRecv_returns W sc m Hu HP Hs Hnn) as (err & W' & sc' & m' & ->).
      cbn [mbind result_bind]. by eauto.
  - destruct Hcons as [Hd|[[? Hx] _]]; [|congruence].
    split; [done|]. split; [|by eauto].
    intros W' sc' m' [= <- <- <-].
    destruct Hd. split_and!; first [done | apply same_config_refl].
Qed.

End States.

(** ** A whole exchange *)

Section Exchanges.
Context `{Protocol}.

(** On a connection that takes writes, with a well-framed successful
    response waiting: the request goes out, the response is decoded, the
    connection stays up. *)
Lemma sendRecv_ok W sc m c w r rest :
  let extras := elems (arrays W) (iextras m) in
  let oex := elems (arrays W) (oextras m) in
  newError_ok →
  conn sc = Some c → rw sc = Some w → healthy c w → pools_ok (arena W) →
  forallb supported extras = true → stat_ok oex r →
  incoming c = r_frame r ++ rest →
  ∃ W' sc' c',
    sendRecv W sc m =
      Ret (None, W', sc',
           mkMsg (r_parsed r) (iextras m) (oextras m) (r_key r) (r_val r)) ∧
    conn sc' = Some c' ∧ rw sc' = Some new_bufrw ∧
    outgoing c' = (outgoing c ++ pending w) ++ frame m extras (opq sc) ∧
    incoming c' = rest ∧ write_error c' = None ∧ isTCP c' = isTCP c ∧
    opq sc' = uint32 (opq sc + 1) ∧ closes sc' = closes sc ∧ same_config sc sc' ∧
    sc_backupMsg sc' = sc_backupMsg sc ∧
    arrays W' = arrays W ∧ pools_ok (arena W') ∧
    dests W' = match r_extras r with
               | [] => dests W
               | _ => dests_after (r_extras r) oex (dests W)
               end.
Proof.
  intros extras oex Hok Hc Hw Hh HP Hs Hr Hin.
  destruct (send_ok W sc m c w Hc Hw Hh Hs) as (c1 & Hsend & He1 & Hi1 & Ht1 & Ho1).
  fold extras in Hsend, Ho1.
  set (sc1 := set_io _ c1 new_bufrw) in Hsend. set (m1 := set_hdr m _) in Hsend.
  destruct (recv_decodes W sc1 m1 c1 new_bufrw r rest eq_refl eq_refl HP Hr)
    as (P' & HP' & Hrecv); [congruence|].
  rewrite Hok in Hrecv.
  eexists _, _, _. split.
  { unfold sendRecv. rewrite Hsend. cbn [mbind result_bind]. rewrite Hrecv.
    cbn [mbind result_bind]. reflexivity. }
  cbn. by split_and!.
Qed.

(** X12. A request on a connection that is up and takes writes, or on one
    that is down, has no credentials and is dialled successfully: when a
    well-framed response with status 0 is what the server sends, [perform]
    returns nil, the request frame is the only thing written (no
    authentication traffic precedes it), the message holds the response, the
    destinations hold its extras, the connection is up with nothing closed
    and the request counter is one further. *)
Theorem perform_exchanges d W sc m c w r rest :
  let extras := elems (arrays W) (iextras m) in
  let oex := elems (arrays W) (oextras m) in
  newError_ok →
  (conn sc = Some c ∧ rw sc = Some w) ∨
  (conn sc = None ∧ d = Dialed c ∧ w = new_bufrw ∧
   username sc = "" ∧ password sc = "" ∧
   String.eqb (scheme sc) "tcp" && negb (isTCP c) = false) →
  healthy c w → pools_ok (arena W) →
  forallb supported extras = true → stat_ok oex r →
  incoming c = r_frame r ++ rest →
  ∃ W' sc' m' c',
    perform d W sc m = Ret (None, W', sc', m') ∧
    hdr m' = r_parsed r ∧ key m' = r_key r ∧ val m' = r_val r ∧
    iextras m' = iextras m ∧ oextras m' = oextras m ∧
    dests W' = match r_extras r with
               | [] => dests W
               | _ => dests_after (r_extras r) oex (dests W)
               end ∧
    conn sc' = Some c' ∧ is_Some (rw sc') ∧
    outgoing c' = (outgoing c ++ pending w) ++ frame m extras (opq sc) ∧
    incoming c' = rest ∧
    opq sc' = uint32 (opq sc + 1) ∧ closes sc' = closes sc ∧
    pools_ok (arena W') ∧ arrays W' = arrays W.
Proof.
  intros extras oex Hok Hst Hh HP Hs Hr Hin. unfold perform.
  destruct Hst as [[Hc Hw]|(Hc & -> & -> & Hu & Hp & Htcp)]; rewrite Hc.
  - destruct (sendRecv_ok W sc m c w r rest Hok Hc Hw Hh HP Hs Hr Hin)
      as (W' & sc' & c' & Hsr & Hc' & Hw' & Ho & Hi & _ & _ & Hq & Hcl & _ & _ & Ha & HP' & Hd).
    eexists _, _, _, _. split; [exact Hsr|]. by split_and!.
  - cbn [connect mbind result_bind scheme set_conn]. rewrite Htcp.
    unfold auth. cbn [username password set_rw set_conn]. rewrite Hu, Hp.
    cbn [String.length Nat.eqb andb mbind result_bind].
    destruct (sendRecv_ok W (set_rw (set_conn sc c) new_bufrw) m c new_bufrw r rest
                Hok eq_refl eq_refl Hh HP Hs Hr Hin)
      as (W' & sc' & c' & Hsr & Hc' & Hw' & Ho & Hi & _ & _ & Hq & Hcl & _ & _ & Ha & HP' & Hd).
    eexists _, _, _, _. split; [exact Hsr|]. by split_and!.
Qed.

(** X13. With credentials, against a server that lists PLAIN among its
    mechanisms and accepts the credentials, [connect] returns nil after
    exactly two exchanges: the auth-list request, then the auth-start
    request with key ["PLAIN"] and value [\0username\0password], with
    consecutive opaques; both responses are consumed and nothing else, and
    the connection is up with nothing closed. *)
Theorem connect_authenticates W sc c mechs ok rest :
  newError_ok →
  username sc ≠ "" ∨ password sc ≠ "" →
  String.eqb (scheme sc) "tcp" && negb (isTCP c) = false →
  write_error c = None → pools_ok (arena W) →
  r_fits mechs → r_status mechs = 0 → contains "PLAIN" (r_val mechs) = true →
  r_fits ok → r_status ok = 0 →
  incoming c = r_frame mechs ++ r_frame ok ++ rest →
  ∃ W' sc' c',
    connect (Dialed c) W sc = Ret (None, W', sc') ∧
    conn sc' = Some c' ∧ is_Some (rw sc') ∧
    outgoing c' =
      outgoing c ++ frame auth_list_msg [] (opq sc) ++
      frame (auth_plain_msg (username sc) (password sc)) [] (uint32 (opq sc + 1)) ∧
    incoming c' = rest ∧ opq sc' = uint32 (uint32 (opq sc + 1) + 1) ∧
    closes sc' = closes sc ∧ same_config sc sc' ∧
    pools_ok (arena W') ∧ arrays W' = arrays W ∧ dests W' = dests W.
Proof.
  intros Hok Hcred Htcp He HP Hf1 Hs1 Hpl Hf2 Hs2 Hin.
  assert (∀ σ r, r_fits r → r_status r = 0 → stat_ok (elems σ nil_slice) r) as Hstat.
  { intros σ r Hf Hs. split; [done|]. split; [done|]. right. split; [done|].
    cbn. lia. }
  assert (∀ r (d : gmap loc Z),
            match r_extras r with [] => d | _ => dests_after (r_extras r) [] d end = d) as Hd0
    by (intros r d; by destruct (r_extras r)).
  unfold connect. cbn [scheme set_conn]. rewrite Htcp.
  set (sc0 := set_rw (set_conn sc c) new_bufrw).
  unfold auth. cbn [username password sc0 set_rw set_conn].
  assert ((String.length (username sc) =? 0)%nat && (String.length (password sc) =? 0)%nat
          = false) as ->.
  { destruct (username sc) as [|a u]; [|done]. destruct (password sc) as [|a p]; [|done].
    by destruct Hcred. }
  unfold authList.
  change (set_hdr zero_msg (mkHeader 0 opAuthList 0 0 0 0 0 0 0)) with auth_list_msg.
  destruct (sendRecv_ok W sc0 auth_list_msg c new_bufrw mechs (r_frame ok ++ rest)
              Hok eq_refl eq_refl (conj He eq_refl) HP eq_refl (Hstat _ _ Hf1 Hs1) Hin)
    as (W1 & sc1 & c1 & Hsr1 & Hc1 & Hw1 & Ho1 & Hi1 & He1 & _ & Hq1 & Hcl1 & Hcf1 & _ &
        Ha1 & HP1 & Hd1).
  rewrite Hsr1. cbn [mbind result_bind val]. rewrite Hpl.
  unfold authPlain.
  destruct Hcf1 as (Hsch & Hun & Hpw). rewrite Hun, Hpw.
  cbn [username password sc0 set_rw set_conn].
  change (mkMsg (mkHeader 0 opAuthStart 0 0 0 0 0 0 0) nil_slice nil_slice "PLAIN"
            (String Ascii.zero (username sc +:+ String Ascii.zero (password sc))))
    with (auth_plain_msg (username sc) (password sc)).
  destruct (sendRecv_ok W1 sc1 (auth_plain_msg (username sc) (password sc)) c1 new_bufrw
              ok rest Hok Hc1 Hw1 (conj He1 eq_refl) HP1 eq_refl (Hstat _ _ Hf2 Hs2) Hi1)
    as (W2 & sc2 & c2 & Hsr2 & Hc2 & Hw2 & Ho2 & Hi2 & He2 & _ & Hq2 & Hcl2 & Hcf2 & _ &
        Ha2 & HP2 & Hd2).
  rewrite Hsr2. cbn [mbind result_bind].
  exists W2, sc2, c2. split; [done|].
  cbn [pending new_bufrw outgoing elems sl_arr nil_slice iextras auth_list_msg
       auth_plain_msg opq sc0 set_rw set_conn closes] in *.
  rewrite !app_nil_r in *. rewrite Hd0 in Hd1, Hd2.
  split_and!; try done; try congruence.
  - rewrite Ho2, Ho1, Hq1. by rewrite <- app_assoc.
  - destruct Hcf2 as (? & ? & ?).
    change (scheme sc0) with (scheme sc) in Hsch.
    change (username sc0) with (username sc) in Hun.
    change (password sc0) with (password sc) in Hpw.
    split_and!; congruence.
Qed.

(** X14. Under scheme ["tcp"], when the dialled connection is not a
    [*net.TCPConn], [connect] returns a network-class error after storing
    the connection and before creating the buffered reader and writer; it
    does not close the socket.  The connection is left half set up, so the
    next [perform] does not dial again, and panics in [send] on the nil
    [rw]. *)
Theorem connect_not_tcp W sc c :
  scheme sc = "tcp" → isTCP c = false →
  ∃ e,
    connect (Dialed c) W sc = Ret (Some e, W, set_conn sc c) ∧
    Status e = StatusNetworkError ∧
    conn (set_conn sc c) = Some c ∧ rw (set_conn sc c) = rw sc ∧
    closes (set_conn sc c) = closes sc ∧
    (rw sc = None → ∀ d m, ∃ why, perform d W (set_conn sc c) m = Panic why).
Proof.
  intros Hs Ht. unfold connect. cbn [scheme set_conn]. rewrite Hs, Ht.
  cbn [String.eqb Ascii.eqb Bool.eqb andb negb].
  eexists. split; [reflexivity|]. split_and!; try done.
  intros Hrw d m. unfold perform. cbn [conn set_conn]. unfold sendRecv, send.
  destruct (sizeOfExtras _); cbn [mbind result_bind]; [|by eexists].
  cbn [conn rw set_hdrBuf set_opq set_conn]. rewrite Hrw. by eexists.
Qed.

(** X15. Reconnecting: when [sendRecv] has failed with a network-class
    error, the connection is down and only the request counter has moved on.
    The next [perform] dials: if the dial fails, its error is returned and
    nothing else happens; if it succeeds (no credentials) and a well-framed
    successful response comes back, the exchange completes on the new
    connection, with the next opaque. *)
Theorem perform_after_teardown W sc m e W1 sc1 m1 :
  wrapError_keeps_status → newError_ok →
  sendRecv W sc m = Ret (Some e, W1, sc1, m1) → Status e = StatusNetworkError →
  disconnected sc1 ∧ closes sc1 = S (closes sc) ∧ opq sc1 = uint32 (opq sc + 1) ∧
  (∀ x m2, perform (DialError x) W1 sc1 m2 = Ret (net_error x, W1, sc1, m2)) ∧
  (∀ c2 m2 r rest,
     username sc = "" → password sc = "" →
     String.eqb (scheme sc) "tcp" && negb (isTCP c2) = false →
     healthy c2 new_bufrw → pools_ok (arena W1) →
     forallb supported (elems (arrays W1) (iextras m2)) = true →
     stat_ok (elems (arrays W1) (oextras m2)) r →
     incoming c2 = r_frame r ++ rest →
     ∃ W' sc' m' c',
       perform (Dialed c2) W1 sc1 m2 = Ret (None, W', sc', m') ∧
       key m' = r_key r ∧ val m' = r_val r ∧
       conn sc' = Some c' ∧
       outgoing c' =
         outgoing c2 ++
         frame m2 (elems (arrays W1) (iextras m2)) (uint32 (opq sc + 1)) ∧
       incoming c' = rest ∧ closes sc' = S (closes sc)).
Proof.
  intros Hwrap Hok Hsr He.
  pose proof (sendRecv_ret_shape _ _ _ _ _ _ _ Hwrap Hsr) as Hsh. cbn beta iota in Hsh.
  destruct Hsh as [(_ & Hc1 & Hrw1 & Hcl1)|(Hx & _)]; [|done].
  destruct (sendRecv_state _ _ _ _ _ _ _ Hsr) as (_ & (Hsch & Hun & Hpw) & _).
  pose proof (sendRecv_opq _ _ _ _ _ _ _ Hsr) as Hq.
  split; [by split|]. split; [done|]. split; [done|]. split.
  { intros x m2. unfold perform. rewrite Hc1. reflexivity. }
  intros c2 m2 r rest Hu Hp Htcp Hh HP Hs Hr Hin.
  unfold perform. rewrite Hc1. cbn [connect mbind result_bind scheme set_conn].
  rewrite Hsch, Htcp. unfold auth. cbn [username password set_rw set_conn].
  rewrite Hun, Hpw, Hu, Hp. cbn [String.length Nat.eqb andb mbind result_bind].
  destruct (sendRecv_ok W1 (set_rw (set_conn sc1 c2) new_bufrw) m2 c2 new_bufrw r rest
              Hok eq_refl eq_refl Hh HP Hs Hr Hin)
    as (W' & sc' & c' & Hsr2 & Hc' & _ & Ho & Hi & _ & _ & _ & Hcl & _).
  eexists _, _, _, _. split; [exact Hsr2|]. split_and!; try done.
  - rewrite Ho. cbn [pending new_bufrw opq set_rw set_conn]. by rewrite app_nil_r, Hq.
  - cbn [closes set_rw set_conn] in Hcl. congruence.
Qed.

End Exchanges.

(** ** Statistics *)

Section StatsMore.
Context `{Protocol}.

Lemma up_or_torn_from sc sc1 sc' :
  closes sc1 = closes sc → up_or_torn sc1 sc' → up_or_torn sc sc'.
Proof. intros Hcl [[? ?]|[? ?]]; [left|right]; split; try done; congruence. Qed.

(** The loop of [sendRecvStats] on a connection that is up, with
    destinations none of which is a nil pointer: when it ends, it returns,
    and leaves the connection up or torn down. *)
Lemma recv_stats_state fuel : ∀ W sc m stats r,
  connected sc → pools_ok (arena W) →
  no_nil_dests (elems (arrays W) (oextras m)) →
  recv_stats fuel W sc m stats = Some r →
  ∃ stats' err W' sc' m',
    r = Ret (stats', err, W', sc', m') ∧
    same_config sc sc' ∧ up_or_torn sc sc' ∧
    (err = None → connected sc' ∧ closes sc' = closes sc) ∧
    pools_ok (arena W') ∧ arrays W' = arrays W ∧
    iextras m' = iextras m ∧ oextras m' = oextras m.
Proof.
  induction fuel as [|fuel IH]; intros W sc m stats r Hc HP Hnn Hr; [done|].
  cbn [recv_stats] in Hr.
  destruct (recv_never_panics W sc m (proj1 Hc) (proj2 Hc) HP Hnn)
    as (err & W1 & sc1 & m1 & Hrecv).
  rewrite Hrecv in Hr.
  destruct (recv_keeps _ _ _ _ _ _ _ Hrecv) as (_ & Hc1 & Hcl1 & Hcf1).
  destruct (recv_ret_shape _ _ _ _ _ _ _ Hrecv) as (_ & _ & _ & _ & _ & Ha1 & Hi1 & Ho1).
  destruct (recv_effect _ _ _ _ _ _ _ HP Hrecv) as (HP1 & _).
  destruct err as [e|].
  - injection Hr as <-. eexists _, _, _, _, _. split; [done|].
    split_and!; try done.
    + destruct (resetConn_cases e sc1) as [-> | ->]; [|done].
      eapply same_config_trans; [done|apply close_conn_config].
    + eapply up_or_torn_from; [done|]. by apply resetConn_up_or_torn.
  - destruct (KeyLen (hdr m1) =? 0).
    + injection Hr as <-. eexists _, _, _, _, _. split; [done|].
      split_and!; try done. by left.
    + assert (no_nil_dests (elems (arrays W1) (oextras m1))) as Hnn1
        by (by rewrite Ha1, Ho1).
      destruct (IH _ _ _ _ _ Hc1 HP1 Hnn1 Hr)
        as (stats' & err & W' & sc' & m' & -> & Hcf & Hst & Hn & HP' & Ha & Hi & Ho).
      eexists _, _, _, _, _. split; [done|].
      split_and!; try done; try congruence.
      * by eapply same_config_trans.
      * by eapply up_or_torn_from.
      * intros He. destruct (Hn He). split; [done|congruence].
Qed.

(** [sendRecvStats] on a connection that is up. *)
Lemma sendRecvStats_state W sc m r :
  connected sc → pools_ok (arena W) →
  forallb supported (elems (arrays W) (iextras m)) = true →
  no_nil_dests (elems (arrays W) (oextras m)) →
  sendRecvStats W sc m = Some r →
  ∃ stats err W' sc' m',
    r = Ret (stats, err, W', sc', m') ∧
    same_config sc sc' ∧ up_or_torn sc sc' ∧
    (err = None → connected sc' ∧ closes sc' = closes sc ∧ is_Some stats) ∧
    (stats = None ↔ ∃ e sc1 m1, send W sc m = Ret (Some e, sc1, m1)) ∧
    pools_ok (arena W') ∧ arrays W' = arrays W ∧
    iextras m' = iextras m ∧ oextras m' = oextras m.
Proof.
  intros Hu HP Hs Hnn.
  destruct Hu as [[c Hc] [w Hw]].
  destruct (send_returns W sc m c w Hc Hw Hs) as (err & c' & w' & Hsend & _).
  unfold sendRecvStats. rewrite Hsend.
  match type of Hsend with send _ _ _ = Ret (_, ?s1, ?m0) =>
    set (sc1 := s1) in *; set (m1 := m0) in * end.
  destruct (send_keeps _ _ _ _ _ _ Hsend) as (_ & Hc1 & Hcl1 & Hcf1 & _ & Hi1 & Ho1 & _).
  destruct err as [e|].
  - intros [= <-]. eexists _, _, _, _, _. split; [done|]. split_and!; try done.
    + destruct (resetConn_cases e sc1) as [-> | ->]; [|done].
      eapply same_config_trans; [done|apply close_conn_config].
    + eapply up_or_torn_from; [done|]. by apply resetConn_up_or_torn.
    + split; [intros _; by eexists _, _, _|done].
  - destruct (recv_stats (stats_fuel sc1) W sc1 m1 ∅) as [r0|] eqn:Hr; [|done].
    assert (no_nil_dests (elems (arrays W) (oextras m1))) as Hnn1 by (by rewrite Ho1).
    destruct (recv_stats_state _ _ _ _ _ _ Hc1 HP Hnn1 Hr)
      as (stats' & err & W' & sc' & m' & -> & Hcf & Hst & Hn & HP' & Ha & Hi & Ho).
    intros [= <-].
    assert (same_config sc sc') as Hcf' by (by eapply same_config_trans).
    assert (up_or_torn sc sc') as Hst' by (by eapply up_or_torn_from).
    assert (err = None → connected sc' ∧ closes sc' = closes sc ∧
                         is_Some (Some stats')) as Hn'
      by (intros He; destruct (Hn He); split_and!; [done|congruence|by eexists]).
    eexists _, _, _, _, _. split; [done|].
    split_and!; try done; try congruence.
    split; [done|]. intros (e & s & m0 & [=]).
Qed.

(** X16. From any state that is up or down, with valid pools, a dialler
    that answers the scheme and a request whose extras are supported and
    whose destinations hold no nil pointer, [performStats] does not panic,
    whatever the peer sends ([int] being 64 bits wide): a call that comes to
    an end returns.  It then leaves the connection up or down, up with
    nothing closed when the error is nil, the socket closed at most once
    otherwise.  A nil map only comes with an error; with a nil error the map
    is there and the connection is up.  (Whether the call comes to an end is
    up to the peer: the loop has no bound of its own.) *)
Theorem performStats_never_panics d W sc m r :
  wrapError_keeps_status → StatusUnknownCommand ≠ StatusNetworkError →
  consistent sc → dials_tcp sc d → pools_ok (arena W) →
  forallb supported (elems (arrays W) (iextras m)) = true →
  no_nil_dests (elems (arrays W) (oextras m)) →
  performStats d W sc m = Some r →
  ∃ stats err W' sc' m',
    r = Ret (stats, err, W', sc', m') ∧
    consistent sc' ∧
    (err = None → connected sc' ∧ closes sc' = closes sc ∧ is_Some stats) ∧
    (stats = None → is_Some err) ∧
    (closes sc ≤ closes sc' ≤ S (closes sc))%nat ∧
    same_config sc sc' ∧ pools_ok (arena W') ∧ arrays W' = arrays W ∧
    iextras m' = iextras m ∧ oextras m' = oextras m.
Proof.
  intros Hwrap Hne Hcons Htcp HP Hs Hnn.
  assert (∀ W0 sc0, connected sc0 → pools_ok (arena W0) → arrays W0 = arrays W →
    sendRecvStats W0 sc0 m = Some r →
    ∃ stats err W' sc' m',
      r = Ret (stats, err, W', sc', m') ∧
      consistent sc' ∧
      (err = None → connected sc' ∧ closes sc' = closes sc0 ∧ is_Some stats) ∧
      (stats = None → is_Some err) ∧
      (closes sc0 ≤ closes sc' ≤ S (closes sc0))%nat ∧
      same_config sc0 sc' ∧ pools_ok (arena W') ∧ arrays W' = arrays W ∧
      iextras m' = iextras m ∧ oextras m' = oextras m) as Hsr.
  { intros W0 sc0 Hc0 HP0 Ha0 Hr0.
    destruct (sendRecvStats_state W0 sc0 m r Hc0 HP0)
      as (stats & err & W' & sc' & m' & Hr & Hcf & Hst & Hn & Hnil & HP' & Ha & Hi & Ho);
      [by rewrite Ha0|by rewrite Ha0|done|].
    exists stats, err, W', sc', m'. split; [done|].
    split_and!; try done; try congruence.
    - destruct Hst as [[? _]|[? _]]; [by right|by left].
    - intros Hz. destruct err as [e|]; [by eexists|].
      destruct (Hn eq_refl) as (_ & _ & [s Hs']). congruence.
    - destruct Hst as [[_ ?]|[_ ?]]; lia.
    - destruct Hst as [[_ ?]|[_ ?]]; lia. }
  unfold performStats. destruct (conn sc) as [c|] eqn:Hc.
  { apply Hsr; try done. destruct Hcons as [[Hx _]|Hu]; [congruence|done]. }
  assert (disconnected sc) as Hd.
  { destruct Hcons as [Hd|[[? Hx] _]]; [done|congruence]. }
  destruct (connect_state d W sc Hwrap Hne Hd Htcp HP)
    as (err & W1 & sc1 & Hcn & Hcf1 & HP1 & Ha1 & Hst1).
  rewrite Hcn. destruct err as [e|].
  - destruct Hst1 as [Hd1 Hcl1]. intros [= <-]. eexists _, _, _, _, _. split; [done|].
    split_and!; first [done | lia | by left | by eexists].
  - destruct Hst1 as [Hc1 Hcl1]. intros Hr0.
    destruct (Hsr W1 sc1 Hc1 HP1 Ha1 Hr0)
      as (stats & err & W' & sc' & m' & Hr & Hcons' & Hn & Hnil & Hcl & Hcf & HP' & Ha & Hi & Ho).
    assert (same_config sc sc') as Hcf' by (by eapply same_config_trans).
    assert (err = None → connected sc' ∧ closes sc' = closes sc ∧ is_Some stats) as Hn'
      by (intros He; destruct (Hn He) as (? & ? & ?); split_and!; [done|congruence|done]).
    exists stats, err, W', sc', m'. split; [done|].
    split_and!; first [done | lia].
Qed.

(** *** The length of the loop *)

Lemma keeps_incoming_write p : keeps_incoming (fun c w => Ret (bufio_Write p c w)).
Proof.
  intros c w e c' w'. unfold bufio_Write, bufio_flush_all, conn_Write.
  destruct (werr w); [by intros [= _ <- _]|].
  destruct (_ <=? _)%nat; [by intros [= _ <- _]|].
  destruct (write_error c); by intros [= _ <- _].
Qed.

Lemma keeps_incoming_flush : keeps_incoming (fun c w => Ret (bufio_Flush c w)).
Proof.
  intros c w e c' w'. unfold bufio_Flush, bufio_flush_all, conn_Write.
  destruct (werr w); [by intros [= _ <- _]|].
  destruct (pending w); [by intros [= _ <- _]|].
  destruct (write_error c); by intros [= _ <- _].
Qed.

Lemma keeps_incoming_then (k1 k2 : wstep) :
  keeps_incoming k1 → keeps_incoming k2 →
  keeps_incoming (fun c w => r ← k1 c w; and_then r k2).
Proof.
  intros H1 H2 c w e c' w'.
  destruct (k1 c w) as [[[[x|] c1] w1]|] eqn:Hk; cbn [mbind result_bind and_then]; [| |done].
  - intros [= _ <- _]. by eapply H1.
  - intros Hk2. rewrite (H2 _ _ _ _ _ Hk2). by eapply H1.
Qed.

Lemma keeps_incoming_extras extras : keeps_incoming (write_extras extras).
Proof.
  induction extras as [|x r IH].
  - by intros c w e c' w' [= _ <- _].
  - intros c w e c' w' Hk.
    destruct x; try done;
      exact (keeps_incoming_then _ _ (keeps_incoming_write _) IH c w e c' w' Hk).
Qed.

Lemma keeps_incoming_string s : keeps_incoming (write_string s).
Proof.
  intros c w e c' w'. unfold write_string.
  destruct (0 <? String.length s)%nat; [apply keeps_incoming_write|].
  by intros [= _ <- _].
Qed.

(** [send] reads nothing. *)
Lemma send_incoming W sc m err sc1 m1 c :
  send W sc m = Ret (err, sc1, m1) → conn sc = Some c →
  ∃ c1, conn sc1 = Some c1 ∧ incoming c1 = incoming c.
Proof.
  unfold send. destruct (sizeOfExtras _) as [el|]; [|done].
  cbn [mbind result_bind]. cbn [conn rw set_hdrBuf set_opq hdrBuf hdr set_hdr key val].
  intros Hs Hc. rewrite Hc in Hs. destruct (rw sc) as [w|]; [|done].
  pose proof (keeps_incoming_then _ _ (keeps_incoming_extras (elems (arrays W) (iextras m)))
    (keeps_incoming_then _ _ (keeps_incoming_string (key m))
      (keeps_incoming_then _ _ (keeps_incoming_string (val m)) keeps_incoming_flush))) as Hk.
  destruct (bufio_Write _ c w) as [[[x|] c0] w0] eqn:Hb; cbn [and_then mbind result_bind] in Hs;
    pose proof (keeps_incoming_write _ c w _ _ _ (f_equal Ret Hb)) as Hh.
  { injection Hs as _ <- _. by eexists. }
  match type of Hs with context [mbind _ ?r] =>
    destruct r as [[[[x|] c'] w']|] eqn:Hr end; cbn [mbind result_bind] in Hs; [| |done];
    injection Hs as _ <- _; (eexists; split; [done|]);
    rewrite <- Hh; by eapply Hk.
Qed.

(** Every entry the loop adds has cost the stream a header. *)
Lemma recv_stats_bound fuel : ∀ W sc m stats stats' err W' sc' m' c,
  recv_stats fuel W sc m stats = Some (Ret (stats', err, W', sc', m')) →
  conn sc = Some c →
  (24 * size stats' ≤ 24 * size stats + length (incoming c))%nat.
Proof.
  induction fuel as [|fuel IH]; intros W sc m stats stats' err W' sc' m' c Hr Hc; [done|].
  cbn [recv_stats] in Hr.
  destruct (recv W sc m) as [[[[[e|] W1] sc1] m1]|] eqn:Hrecv; [| |done].
  { injection Hr as <- _ _ _ _. lia. }
  destruct (KeyLen (hdr m1) =? 0).
  { injection Hr as <- _ _ _ _. lia. }
  destruct (recv_consumes _ _ _ _ _ _ Hrecv) as (c0 & c1 & Hc0 & Hc1 & Hl).
  rewrite Hc in Hc0. injection Hc0 as <-.
  specialize (IH _ _ _ _ _ _ _ _ _ c1 Hr Hc1).
  pose proof (map_size_insert (key m1) (val m1) stats) as Hsz.
  destruct (stats !! key m1); simpl in Hsz; lia.
Qed.

(** X17. The rounds of [sendRecvStats].  The map it returns is nil exactly
    when [send] failed, in which case the error is returned and nothing was
    received; otherwise it has at most one entry for every 24 bytes that were
    still to be received when the call was made: every entry has cost the
    stream a header.  The loop itself has no bound: it goes on for as long
    as the peer sends entries, so that against [n] well-framed entries with
    non-empty keys [n] rounds do not end it. *)
Theorem sendRecvStats_rounds W sc m :
  (∀ stats err W' sc' m',
     sendRecvStats W sc m = Some (Ret (stats, err, W', sc', m')) →
     (stats = None ↔ ∃ e sc1 m1, send W sc m = Ret (Some e, sc1, m1)) ∧
     (stats = None → is_Some err ∧ W' = W)) ∧
  (∀ stats err W' sc' m' c,
     sendRecvStats W sc m = Some (Ret (Some stats, err, W', sc', m')) →
     conn sc = Some c →
     (24 * size stats ≤ length (incoming c))%nat) ∧
  (∀ rs c w tail stats,
     newError_ok → conn sc = Some c → rw sc = Some w → pools_ok (arena W) →
     Forall (stat_ok (elems (arrays W) (oextras m))) rs →
     Forall (fun r => r_key r ≠ "") rs →
     incoming c = frames rs ++ tail →
     recv_stats (length rs) W sc m stats = None).
Proof.
  split_and!.
  - intros stats err W' sc' m'. unfold sendRecvStats.
    destruct (send W sc m) as [[[[e|] sc1] m1]|] eqn:Hs; try done.
    + intros [= <- <- <- _ _]. split; [|by split; [eexists|]].
      split; [intros _; by eexists _, _, _|done].
    + destruct (recv_stats (stats_fuel sc1) W sc1 m1 ∅) as [[[[[[s e] W1] sc2] m2]|]|];
        try done.
      intros [= <- _ _ _ _]. split; [|done].
      split; [done|]. intros (e0 & s0 & m0 & [=]).
  - intros stats err W' sc' m' c. unfold sendRecvStats.
    destruct (send W sc m) as [[[[e|] sc1] m1]|] eqn:Hs; try done.
    destruct (recv_stats (stats_fuel sc1) W sc1 m1 ∅) as [[[[[[s e] W1] sc2] m2]|]|] eqn:Hr;
      try done.
    intros [= -> _ _ _ _] Hc.
    destruct (send_incoming _ _ _ _ _ _ c Hs Hc) as (c1 & Hc1 & Hi1).
    pose proof (recv_stats_bound _ _ _ _ _ _ _ _ _ _ c1 Hr Hc1) as Hb.
    rewrite map_size_empty, Hi1 in Hb. lia.
  - intros rs c w tail stats Hok Hc Hw HP Hrs Hks Hin.
    destruct (recv_stats_run rs 0 W sc m stats c w tail Hok Hc Hw HP Hrs Hks Hin)
      as (W' & sc' & m' & c' & Hrun & _).
    rewrite Nat.add_0_r in Hrun. by rewrite Hrun.
Qed.

End StatsMore.

(** ** The snapshot slot *)

Section Slot.
Local Open Scope nat_scope.

Lemma length_copy_slice σ dst src : length (copy_slice σ dst src) = length σ.
Proof. unfold copy_slice. destruct (sl_arr dst); [apply length_insert|done]. Qed.

(** The resizing step: the slice it returns has room for [n]; when the
    slice it was given had, nothing is allocated and the array stays. *)
Lemma resize_room σ dst n σ' s :
  resize σ dst n = Ret (σ', s) →
  sl_len s = n ∧ n ≤ sl_cap s ∧ length σ ≤ length σ' ≤ S (length σ) ∧
  (n ≤ sl_cap dst → σ' = σ ∧ sl_arr s = sl_arr dst ∧ sl_cap s = sl_cap dst).
Proof.
  unfold resize, reslice, make_slice.
  destruct (Nat.leb_spec n (sl_cap dst)) as [Hn|Hn]; cbn [mbind result_bind];
    intros [= <- <-]; cbn [sl_len sl_cap sl_arr].
  - split_and!; try done; lia.
  - rewrite length_app. simpl. split_and!; try done; lia.
Qed.

Lemma backupMsg_room σ m b σ1 b1 :
  backupMsg σ m b = Ret (σ1, b1) →
  sl_len (iextras b1) = sl_len (iextras m) ∧ sl_len (oextras b1) = sl_len (oextras m) ∧
  sl_len (iextras m) ≤ sl_cap (iextras b1) ∧ sl_len (oextras m) ≤ sl_cap (oextras b1) ∧
  length σ ≤ length σ1 ≤ length σ + 2 ∧
  hdr b1 = hdr m ∧ key b1 = key m ∧ val b1 = val m ∧
  (sl_len (iextras m) ≤ sl_cap (iextras b) → sl_len (oextras m) ≤ sl_cap (oextras b) →
   length σ1 = length σ ∧
   sl_arr (iextras b1) = sl_arr (iextras b) ∧ sl_arr (oextras b1) = sl_arr (oextras b) ∧
   sl_cap (iextras b1) = sl_cap (iextras b) ∧ sl_cap (oextras b1) = sl_cap (oextras b)).
Proof.
  unfold backupMsg.
  destruct (resize σ (iextras b) _) as [[σa bi]|] eqn:Hi; [|done]. cbn [mbind result_bind].
  destruct (resize (copy_slice σa bi (iextras m)) (oextras b) _) as [[σb bo]|] eqn:Ho; [|done].
  cbn [mbind result_bind]. intros [= <- <-]. cbn [iextras oextras hdr key val].
  destruct (resize_room _ _ _ _ _ Hi) as (Hl1 & Hc1 & Hn1 & Hr1).
  destruct (resize_room _ _ _ _ _ Ho) as (Hl2 & Hc2 & Hn2 & Hr2).
  rewrite length_copy_slice in *.
  split_and!; try done; try lia.
  intros Hci Hco. destruct (Hr1 Hci) as (-> & ? & ?). destruct (Hr2 Hco) as (-> & ? & ?).
  rewrite !length_copy_slice. by split_and!.
Qed.

Lemma backupMsg_returns σ m b : ∃ σ1 b1, backupMsg σ m b = Ret (σ1, b1).
Proof.
  unfold backupMsg, resize, reslice.
  destruct (_ <=? _); cbn [mbind result_bind];
    (destruct (_ <=? _); cbn [mbind result_bind]); by eexists _, _.
Qed.

End Slot.

(** X18. The snapshot slot is reused: [backup] never panics and allocates
    at most two arrays; once a message has been snapshotted, [backup] of any
    message whose two extras lists are no longer than those of that message
    allocates nothing and writes into the arrays the slot already has, and
    the same holds from then on. *)
Theorem backup_reuses_capacity W sc m m2 :
  (sl_len (iextras m2) ≤ sl_len (iextras m))%nat →
  (sl_len (oextras m2) ≤ sl_len (oextras m))%nat →
  ∃ W1 sc1 W2 sc2,
    backup W sc m = Ret (W1, sc1) ∧
    (length (arrays W) ≤ length (arrays W1) ≤ length (arrays W) + 2)%nat ∧
    backup W1 sc1 m2 = Ret (W2, sc2) ∧
    length (arrays W2) = length (arrays W1) ∧
    sl_arr (iextras (sc_backupMsg sc2)) = sl_arr (iextras (sc_backupMsg sc1)) ∧
    sl_arr (oextras (sc_backupMsg sc2)) = sl_arr (oextras (sc_backupMsg sc1)) ∧
    sl_cap (iextras (sc_backupMsg sc2)) = sl_cap (iextras (sc_backupMsg sc1)) ∧
    sl_cap (oextras (sc_backupMsg sc2)) = sl_cap (oextras (sc_backupMsg sc1)) ∧
    sl_len (iextras (sc_backupMsg sc2)) = sl_len (iextras m2) ∧
    sl_len (oextras (sc_backupMsg sc2)) = sl_len (oextras m2) ∧
    hdr (sc_backupMsg sc2) = hdr m2 ∧ key (sc_backupMsg sc2) = key m2 ∧
    val (sc_backupMsg sc2) = val m2.
Proof.
  intros Hi Ho.
  destruct (backupMsg_returns (arrays W) m (sc_backupMsg sc)) as (σ1 & b1 & Hb1).
  destruct (backupMsg_room _ _ _ _ _ Hb1) as (_ & _ & Hci & Hco & Hn1 & _).
  destruct (backupMsg_returns σ1 m2 b1) as (σ2 & b2 & Hb2).
  destruct (backupMsg_room _ _ _ _ _ Hb2) as (Hli & Hlo & _ & _ & _ & Hh & Hk & Hv & Hre).
  destruct Hre as (Hl & Hai & Hao & Hki & Hko); [lia|lia|].
  exists (set_arrays W σ1), (set_backupMsg sc b1),
    (set_arrays (set_arrays W σ1) σ2), (set_backupMsg (set_backupMsg sc b1) b2).
  unfold backup. rewrite Hb1.
  cbn [mbind result_bind arrays set_arrays sc_backupMsg set_backupMsg].
  rewrite Hb2. cbn [mbind result_bind]. split_and!; first [done | lia].
Qed.

Lemma backup_reuses_capacity_witness :
  ∃ W1 sc1 W2 sc2,
    backup set_world (sc_with []) set_msg = Ret (W1, sc1) ∧
    length (arrays W1) = 4%nat ∧
    backup W1 sc1 set_msg = Ret (W2, sc2) ∧ length (arrays W2) = 4%nat ∧
    key (sc_backupMsg sc2) = "foo".
Proof.
  destruct (backup_reuses_capacity set_world (sc_with []) set_msg set_msg)
    as (W1 & sc1 & W2 & sc2 & H1 & _ & H2 & Hl & _ & _ & _ & _ & _ & _ & _ & Hk & _);
    [simpl; lia | simpl; lia |].
  exists W1, sc1, W2, sc2.
  assert (length (arrays W1) = 4%nat) as Hl1
    by (vm_compute in H1; injection H1 as <- _; reflexivity).
  split; [exact H1|]. split; [exact Hl1|]. split; [exact H2|].
  split; [by rewrite Hl|exact Hk].
Defined.

(** X19. [backup] keeps the slot private and the message intact: for a
    well-formed message and a slot that shares no backing array with it, the
    call succeeds, the message's extras hold what they held, the slot again
    shares no array with the message, and every well-formed slice that was
    apart from the slot is unchanged and still apart from it.  Only the
    slot and the store change: the destinations, the pools and the rest of
    the connection are as before. *)
Theorem backup_preserves W sc m :
  wf_msg (arrays W) m → slot_private (arrays W) m (sc_backupMsg sc) →
  ∃ W1 sc1,
    backup W sc m = Ret (W1, sc1) ∧
    wf_msg (arrays W1) m ∧ slot_private (arrays W1) m (sc_backupMsg sc1) ∧
    elems (arrays W1) (iextras m) = elems (arrays W) (iextras m) ∧
    elems (arrays W1) (oextras m) = elems (arrays W) (oextras m) ∧
    (∀ t, wf_slice (arrays W) t →
          sep (iextras (sc_backupMsg sc)) t → sep (oextras (sc_backupMsg sc)) t →
          wf_slice (arrays W1) t ∧ elems (arrays W1) t = elems (arrays W) t ∧
          sep (iextras (sc_backupMsg sc1)) t ∧ sep (oextras (sc_backupMsg sc1)) t) ∧
    dests W1 = dests W ∧ arena W1 = arena W ∧
    conn sc1 = conn sc ∧ rw sc1 = rw sc ∧ opq sc1 = opq sc ∧ closes sc1 = closes sc.
Proof.
  intros Hm Hp. pose proof Hm as [Hmi Hmo].
  pose proof Hp as (Hbi & Hbo & Hio & Hii & Him & Hoi & Hom).
  destruct (backupMsg_spec (arrays W) m (sc_backupMsg sc) Hm (conj Hbi Hbo) Hio Him)
    as (σ1 & b1 & Hb & _ & _ & _ & _ & _ & Hwb1 & Hs1 & _ & _ & Hfr).
  destruct (Hfr _ Hmi Hii Hoi) as (Hmi1 & Hei1 & Hsi1 & Hso1).
  destruct (Hfr _ Hmo Him Hom) as (Hmo1 & Heo1 & Hsi2 & Hso2).
  destruct Hwb1 as [Hwi Hwo].
  exists (set_arrays W σ1), (set_backupMsg sc b1). split.
  { unfold backup. by rewrite Hb. }
  cbn [arrays set_arrays sc_backupMsg set_backupMsg dests arena conn rw opq closes].
  unfold wf_msg, slot_private. split_and!; try done.
Qed.

Lemma backup_preserves_witness :
  ∃ W1 sc1,
    backup set_world (sc_with []) set_msg = Ret (W1, sc1) ∧
    slot_private (arrays W1) set_msg (sc_backupMsg sc1) ∧
    elems (arrays W1) (iextras set_msg) = [U32 3735928559; U32 3600] ∧
    elems (arrays W1) (oextras set_msg) = [PU32 0%nat; PU32 1%nat].
Proof.
  destruct (backup_preserves set_world (sc_with []) set_msg)
    as (W1 & sc1 & Hb & _ & Hp & Hi & Ho & _).
  - repeat split; simpl; lia.
  - apply slot_private_zero.
  - exists W1, sc1. split; [exact Hb|]. split; [exact Hp|]. split; [exact Hi|exact Ho].
Defined.

(** X20. After [backup(m)], [restore] gives the message back exactly: the
    message that was overwritten as by a receive (any header, key and value,
    any values written to the destinations) is returned with the header, key
    and value of the snapshot and with its own two slices, nothing is
    allocated and no array is written with a new value.  So [restore] can be
    repeated after every further overwrite, as a retry loop does. *)
Theorem restore_is_exact W sc m :
  wf_msg (arrays W) m → slot_private (arrays W) m (sc_backupMsg sc) →
  ∃ W1 sc1,
    backup W sc m = Ret (W1, sc1) ∧
    (∀ h k v d,
       restore (set_dests W1 d) sc1 (received m h k v) = Ret (set_dests W1 d, m)) ∧
    (∀ h k v d h' k' v' d',
       ∃ W2 m2,
         restore (set_dests W1 d) sc1 (received m h k v) = Ret (W2, m2) ∧
         restore (set_dests W2 d') sc1 (received m2 h' k' v') = Ret (set_dests W1 d', m)).
Proof.
  intros Hm Hp. pose proof Hm as [Hmi Hmo].
  pose proof Hp as (Hbi & Hbo & Hio & Hii & Him & Hoi & Hom).
  destruct (backupMsg_spec (arrays W) m (sc_backupMsg sc) Hm (conj Hbi Hbo) Hio Him)
    as (σ1 & b1 & Hb & Hh & Hk & Hv & HI & HO & Hwb1 & Hs1 & Hli & Hlo & Hfr).
  destruct (Hfr _ Hmi Hii Hoi) as (Hmi1 & Hei1 & Hsi1 & Hso1).
  destruct (Hfr _ Hmo Him Hom) as (Hmo1 & Heo1 & Hsi2 & Hso2).
  exists (set_arrays W σ1), (set_backupMsg sc b1). split.
  { unfold backup. by rewrite Hb. }
  assert (∀ h k v d,
    restore (set_dests (set_arrays W σ1) d) (set_backupMsg sc b1) (received m h k v) =
      Ret (set_dests (set_arrays W σ1) d, m)) as Hre.
  { intros h k v d. unfold restore.
    cbn [arrays set_dests set_arrays sc_backupMsg set_backupMsg].
    unfold restoreMsg, received. cbn [iextras oextras].
    assert (∀ s n, n = sl_len s → wf_slice σ1 s → resize σ1 s n = Ret (σ1, s)) as Hres.
    { intros s n -> [Hl _]. unfold resize, reslice.
      destruct (Nat.leb_spec (sl_len s) (sl_cap s)); [|lia]. by destruct s. }
    rewrite (Hres _ _ Hli Hmi1). cbn [mbind result_bind].
    rewrite copy_slice_noop; [|done|by destruct Hwb1|congruence|congruence].
    rewrite (Hres _ _ Hlo Hmo1). cbn [mbind result_bind].
    rewrite copy_slice_noop; [|done|by destruct Hwb1|congruence|congruence].
    rewrite Hh, Hk, Hv. by destruct m. }
  split; [exact Hre|].
  intros h k v d h' k' v' d'. eexists _, _. split; [apply Hre|]. apply Hre.
Qed.

Lemma restore_is_exact_witness :
  ∃ W1 sc1,
    backup set_world (sc_with []) set_msg = Ret (W1, sc1) ∧
    restore (set_dests W1 (<[0%nat := 7]> ∅)) sc1
      (received set_msg (mkHeader 129 1 0 0 0 1 0 0 0) "" "Not found") =
      Ret (set_dests W1 (<[0%nat := 7]> ∅), set_msg).
Proof.
  destruct (restore_is_exact set_world (sc_with []) set_msg) as (W1 & sc1 & Hb & Hr & _).
  - repeat split; simpl; lia.
  - apply slot_private_zero.
  - exists W1, sc1. split; [exact Hb|]. apply Hr.
Defined.

(** ** The statements on sample inputs *)

(** A fresh connection without credentials, dialled on first use. *)
Lemma perform_never_panics_witness :
  ∃ err W' sc' m',
    @perform memcached (Dialed (conn_with (r_frame stored))) set_world
      (newServerConn "tcp" "" "") set_msg = Ret (err, W', sc', m') ∧
    consistent sc' ∧ pools_ok (arena W') ∧ arrays W' = arrays set_world.
Proof.
  destruct (@perform_never_panics memcached (Dialed (conn_with (r_frame stored))) set_world
              (newServerConn "tcp" "" "") set_msg memcached_wrapError)
    as (err & W' & sc' & m' & Hp & Hc & _ & _ & _ & HP & Ha & _).
  - by vm_compute.
  - left. split; reflexivity.
  - reflexivity.
  - exact pools_ok_empty.
  - reflexivity.
  - reflexivity.
  - exists err, W', sc', m'. split; [exact Hp|]. split; [exact Hc|]. split; [exact HP|exact Ha].
Defined.

Lemma quit_disconnects_witness :
  ∃ W' sc' m',
    @quit memcached set_world (sc_with (r_frame stored)) set_msg = Ret (W', sc', m') ∧
    disconnected sc' ∧ closes sc' = 1%nat.
Proof.
  destruct (@quit_disconnects memcached set_world (sc_with (r_frame stored)) set_msg)
    as (_ & Hb & Hr).
  - right. split; by eexists.
  - exact pools_ok_empty.
  - reflexivity.
  - destruct (Hr eq_refl) as (W' & sc' & m' & Hq).
    destruct (Hb W' sc' m' Hq) as (Hd & Hcl & _).
    exists W', sc', m'. split; [exact Hq|]. split; [exact Hd|exact Hcl].
Defined.

(** With a nil [*uint32] among the destinations and a response that has
    room for it, [perform] and [quit] panic in [recv]. *)
Lemma nil_destination_panics :
  @perform memcached (Dialed (conn_with (r_frame flags_only))) nil_world
    (newServerConn "tcp" "" "") nil_msg =
    Panic "invalid memory address or nil pointer dereference" ∧
  @quit memcached nil_world (sc_with (r_frame flags_only)) nil_msg =
    Panic "invalid memory address or nil pointer dereference".
Proof. split; vm_compute; reflexivity. Qed.

(** The [get] of the receive test on a fresh connection: one frame of
    24 + 3 bytes goes out, the response comes back. *)
Lemma perform_exchanges_witness :
  ∃ W' sc' m' c',
    @perform memcached (Dialed (conn_with (r_frame got_response ++ []))) got_world
      (newServerConn "tcp" "" "") got_msg = Ret (None, W', sc', m') ∧
    key m' = "foo" ∧ val m' = "world" ∧ dests W' !! 0%nat = Some 3405691582 ∧
    conn sc' = Some c' ∧ length (outgoing c') = 27%nat ∧ incoming c' = [] ∧
    opq sc' = 1 ∧ closes sc' = 0%nat.
Proof.
  destruct (@perform_exchanges memcached (Dialed (conn_with (r_frame got_response ++ [])))
              got_world (newServerConn "tcp" "" "") got_msg
              (conn_with (r_frame got_response ++ [])) new_bufrw got_response []
              memcached_newError_ok)
    as (W' & sc' & m' & c' & Hp & _ & Hk & Hv & _ & _ & Hd & Hc & _ & Ho & Hi & Hq & Hcl & _).
  - right. by split_and!.
  - split; reflexivity.
  - exact pools_ok_empty.
  - reflexivity.
  - split; [repeat split; by vm_compute|]. split; [reflexivity|].
    right. split; [reflexivity|]. by vm_compute.
  - reflexivity.
  - exists W', sc', m', c'. split; [exact Hp|]. split; [exact Hk|]. split; [exact Hv|].
    split; [by rewrite Hd|]. split; [exact Hc|]. split; [by rewrite Ho|].
    split; [exact Hi|]. split; [exact Hq|exact Hcl].
Defined.

Lemma connect_authenticates_witness :
  ∃ W' sc' c',
    @connect memcached
      (Dialed (conn_with (r_frame auth_mechs ++ r_frame auth_done ++ []))) set_world sc_user =
      Ret (None, W', sc') ∧
    conn sc' = Some c' ∧
    outgoing c' =
      [] ++ @frame memcached (@auth_list_msg memcached) [] 0 ++
      @frame memcached (@auth_plain_msg memcached "user" "secret") [] 1 ∧
    incoming c' = [] ∧ opq sc' = 2 ∧ closes sc' = 0%nat.
Proof.
  destruct (@connect_authenticates memcached set_world sc_user
              (conn_with (r_frame auth_mechs ++ r_frame auth_done ++ []))
              auth_mechs auth_done [] memcached_newError_ok)
    as (W' & sc' & c' & Hc & Hs & _ & Ho & Hi & Hq & Hcl & _).
  - left. discriminate.
  - reflexivity.
  - reflexivity.
  - exact pools_ok_empty.
  - repeat split; by vm_compute.
  - reflexivity.
  - reflexivity.
  - repeat split; by vm_compute.
  - reflexivity.
  - reflexivity.
  - exists W', sc', c'. split; [exact Hc|]. split; [exact Hs|]. split; [exact Ho|].
    split; [exact Hi|]. split; [exact Hq|exact Hcl].
Defined.

Lemma connect_not_tcp_witness :
  ∃ e,
    @connect memcached (Dialed unix_conn) set_world (newServerConn "tcp" "" "") =
      Ret (Some e, set_world, set_conn (newServerConn "tcp" "" "") unix_conn) ∧
    Status e = 65527 ∧
    ∃ why, @perform memcached (DialError "refused") set_world
             (set_conn (newServerConn "tcp" "" "") unix_conn) set_msg = Panic why.
Proof.
  destruct (@connect_not_tcp memcached set_world (newServerConn "tcp" "" "") unix_conn
              eq_refl eq_refl) as (e & Hc & He & _ & _ & _ & Hp).
  exists e. split; [exact Hc|]. split; [exact He|].
  apply (Hp eq_refl (DialError "refused") set_msg).
Defined.

(** A write fails; the next request finds no server, the one after is
    answered on a new connection. *)
Lemma perform_after_teardown_witness :
  ∃ e W1 sc1 m1,
    @sendRecv memcached set_world sc_broken set_msg = Ret (Some e, W1, sc1, m1) ∧
    disconnected sc1 ∧ closes sc1 = 1%nat ∧ opq sc1 = 1 ∧
    @perform memcached (DialError "refused") W1 sc1 set_msg =
      Ret (@net_error memcached "refused", W1, sc1, set_msg) ∧
    ∃ W' sc' m' c',
      @perform memcached (Dialed (conn_with (r_frame stored ++ []))) W1 sc1 set_msg =
        Ret (None, W', sc', m') ∧
      conn sc' = Some c' ∧ incoming c' = [] ∧ closes sc' = 1%nat.
Proof.
  assert (∃ e W1 sc1 m1,
            @sendRecv memcached set_world sc_broken set_msg = Ret (Some e, W1, sc1, m1) ∧
            Status e = 65527 ∧ arrays W1 = arrays set_world ∧ arena W1 = no_pools ∧
            iextras m1 = iextras set_msg ∧ oextras m1 = oextras set_msg)
    as (e & W1 & sc1 & m1 & Hsr & He & Ha & HP & _)
    by (eexists _, _, _, _; split; [vm_compute; reflexivity|by split_and!]).
  destruct (@perform_after_teardown memcached set_world sc_broken set_msg e W1 sc1 m1
              memcached_wrapError memcached_newError_ok Hsr He)
    as (Hd & Hcl & Hq & Hdial & Hre).
  exists e, W1, sc1, m1. split; [exact Hsr|]. split; [exact Hd|]. split; [exact Hcl|].
  split; [exact Hq|]. split; [apply Hdial|].
  destruct (Hre (conn_with (r_frame stored ++ [])) set_msg stored [])
    as (W' & sc' & m' & c' & Hp & _ & _ & Hc & _ & Hi & Hcl').
  - reflexivity.
  - reflexivity.
  - reflexivity.
  - split; reflexivity.
  - rewrite HP. exact pools_ok_empty.
  - rewrite Ha. reflexivity.
  - rewrite Ha. split; [repeat split; by vm_compute|]. split; [reflexivity|]. by left.
  - reflexivity.
  - exists W', sc', m', c'. split; [exact Hp|]. split; [exact Hc|]. split; [exact Hi|exact Hcl'].
Defined.

Lemma performStats_never_panics_witness :
  ∃ stats err W' sc' m',
    @performStats memcached
      (Dialed (conn_with (frames [stat_pid; stat_uptime; stat_end]))) set_world
      (newServerConn "tcp" "" "") stat_msg = Some (Ret (stats, err, W', sc', m')) ∧
    consistent sc' ∧ pools_ok (arena W').
Proof.
  destruct (@performStats memcached
              (Dialed (conn_with (frames [stat_pid; stat_uptime; stat_end]))) set_world
              (newServerConn "tcp" "" "") stat_msg) as [r|] eqn:Hr;
    [|by vm_compute in Hr].
  destruct (@performStats_never_panics memcached
              (Dialed (conn_with (frames [stat_pid; stat_uptime; stat_end]))) set_world
              (newServerConn "tcp" "" "") stat_msg r memcached_wrapError)
    as (stats & err & W' & sc' & m' & Hp & Hc & _ & _ & _ & _ & HP & _).
  - by vm_compute.
  - left. split; reflexivity.
  - reflexivity.
  - exact pools_ok_empty.
  - reflexivity.
  - reflexivity.
  - exact Hr.
  - exists stats, err, W', sc', m'. split; [by rewrite Hp|]. split; [exact Hc|exact HP].
Defined.

(** Three entries still to be received: the map gets at most as many, and
    three rounds do not end the loop. *)
Lemma sendRecvStats_rounds_witness :
  (∃ stats err W' sc' m',
     @sendRecvStats memcached set_world
       (sc_with (frames [stat_pid; stat_uptime; stat_end])) stat_msg =
       Some (Ret (Some stats, err, W', sc', m')) ∧
     (24 * size stats ≤ length (frames [stat_pid; stat_uptime; stat_end]))%nat) ∧
  @recv_stats memcached 3 set_world
    (sc_with (frames [stat_pid; stat_uptime; stat_pid] ++ [])) stat_msg ∅ = None.
Proof.
  split.
  - assert (∃ stats err W' sc' m',
              @sendRecvStats memcached set_world
                (sc_with (frames [stat_pid; stat_uptime; stat_end])) stat_msg =
                Some (Ret (Some stats, err, W', sc', m')))
      as (stats & err & W' & sc' & m' & Hs)
      by (eexists _, _, _, _, _; vm_compute; reflexivity).
    exists stats, err, W', sc', m'. split; [exact Hs|].
    apply (proj1 (proj2 (@sendRecvStats_rounds memcached set_world
                    (sc_with (frames [stat_pid; stat_uptime; stat_end])) stat_msg))
             stats err W' sc' m' (conn_with (frames [stat_pid; stat_uptime; stat_end]))
             Hs eq_refl).
  - apply (proj2 (proj2 (@sendRecvStats_rounds memcached set_world
                    (sc_with (frames [stat_pid; stat_uptime; stat_pid] ++ [])) stat_msg))
             [stat_pid; stat_uptime; stat_pid]
             (conn_with (frames [stat_pid; stat_uptime; stat_pid] ++ [])) new_bufrw [] ∅
             memcached_newError_ok eq_refl eq_refl pools_ok_empty).
    + repeat constructor; by vm_compute.
    + repeat constructor; discriminate.
    + reflexivity.
Defined.

(** ** Destinations that cannot take the extras *)

Section Rejects.
Context `{Protocol}.

(** X21. A well-framed response with status 0 that carries extras is
    refused when destinations none of which is a nil pointer cannot take
    them: if some element of [oextras] is not a pointer to an 8/16/32/64-bit
    unsigned integer (a value, the nil interface, a pointer of another
    type), or if the destinations need more bytes together than the extras
    segment has, [recv] returns a network-class error, leaves the key and
    the value of the message as they were, stores the header fields, takes
    exactly the frame off the stream and gives the buffer back.  With X6
    this makes the condition exact for such destinations.  (A nil pointer
    among the destinations is another matter: [recv] writes through it as
    soon as the extras segment has room for it.) *)
Theorem recv_rejects_destinations W sc m c w r rest :
  let oex := elems (arrays W) (oextras m) in
  conn sc = Some c → rw sc = Some w → pools_ok (arena W) →
  r_fits r → r_status r = 0 → r_extras r ≠ [] →
  no_nil_dests oex →
  forallb is_dest oex = false ∨ Z.of_nat (length (r_extras r)) < extras_width oex →
  incoming c = r_frame r ++ rest →
  ¬ accepts oex r ∧
  ∃ x W' sc' c',
    recv W sc m =
      Ret (net_error x, W', sc',
           mkMsg (r_parsed r) (iextras m) (oextras m) (key m) (val m)) ∧
    arrays W' = arrays W ∧ pools_ok (arena W') ∧
    conn sc' = Some c' ∧ incoming c' = rest ∧ closes sc' = closes sc.
Proof.
  intros oex Hc Hw HP Hfit Hs0 Hx Hnn Hbad Hin. split.
  { intros [Hnil|[Hd Hle]]; [done|]. destruct Hbad as [Hb|Hb]; [congruence|lia]. }
  pose proof (parse_r_header r Hfit) as Hp.
  unfold r_frame in Hin. rewrite <- app_assoc in Hin.
  set (hb := encode_header (r_header r)) in *.
  destruct (recv_frame W sc m c w hb (r_body r) rest Hc Hw HP Hin eq_refl)
    as (buf & P' & Hwb & Hbb & Hlen & HP' & Hrecv).
  { by rewrite Hp. }
  fold oex in Hrecv.
  set (m0 := set_hdr m (parse_header hb)) in *.
  assert (0 < Z.of_nat (length (r_extras r))) as Hpos
    by (destruct (r_extras r); [done|simpl; lia]).
  pose proof (decode_extras_run (hdr m0) oex buf (dests W) Hnn Hwb) as Hrun.
  cbn [hdr m0 set_hdr] in Hrun. rewrite Hp in Hrun.
  change (ResvOrStatus (r_parsed r)) with (r_status r) in Hrun.
  change (ExtraLen (r_parsed r)) with (Z.of_nat (length (r_extras r))) in Hrun.
  specialize (Hrun Hs0 Hpos).
  assert (forallb is_dest oex && (extras_width oex <=? Z.of_nat (length (r_extras r)))
          = false) as Hf.
  { destruct Hbad as [-> | Hb]; [done|]. apply andb_false_intro2. by apply Z.leb_gt. }
  rewrite Hf in Hrun. destruct Hrun as (x & buf' & d' & Hde).
  { rewrite Hlen. unfold r_body. rewrite length_app. lia. }
  rewrite <- Hp in Hde. change (parse_header hb) with (hdr m0) in Hde.
  rewrite (decode_body_error _ _ _ _ _ _ _ Hde) in Hrecv. cbn [mbind result_bind] in Hrecv.
  eexists x, _, _, _. split.
  { rewrite Hrecv. unfold m0. rewrite Hp. reflexivity. }
  by split_and!.
Qed.

End Rejects.

(** The response of the receive test, read into a destination list that
    holds a plain value instead of a pointer. *)
Lemma recv_rejects_destinations_witness :
  ∃ x W' sc' c',
    @recv memcached set_world (sc_with (r_frame got_response ++ []))
      (mkMsg zero_header nil_slice (mkSlice (Some 0%nat) 0 2 2) "k" "v") =
      Ret (@net_error memcached x, W', sc',
           mkMsg (r_parsed got_response) nil_slice (mkSlice (Some 0%nat) 0 2 2) "k" "v") ∧
    conn sc' = Some c' ∧ incoming c' = [] ∧ closes sc' = 0%nat.
Proof.
  destruct (@recv_rejects_destinations memcached set_world
              (sc_with (r_frame got_response ++ []))
              (mkMsg zero_header nil_slice (mkSlice (Some 0%nat) 0 2 2) "k" "v")
              (conn_with (r_frame got_response ++ [])) new_bufrw got_response [])
    as (_ & x & W' & sc' & c' & Hr & _ & _ & Hc & Hi & Hcl).
  - reflexivity.
  - reflexivity.
  - exact pools_ok_empty.
  - repeat split; by vm_compute.
  - reflexivity.
  - discriminate.
  - reflexivity.
  - left. reflexivity.
  - reflexivity.
  - exists x, W', sc', c'. split; [exact Hr|]. split; [exact Hc|]. split; [exact Hi|exact Hcl].
Defined.

(** ** The original pair allocates *)

Section OriginalMore.
Local Open Scope nat_scope.
Variable grow : nat → nat.

(** The loop as in [append_range_spec], with the place of the result: an
    array allocated after [σ0], or no array at all when nothing was
    appended to nil. *)
Lemma append_range_newer σ0 src :
  wf_slice σ0 src → ∀ n i ext dst,
  i + n = sl_len src →
  wf_slice (σ0 ++ ext) dst → newer σ0 dst → sl_len dst = i →
  elems (σ0 ++ ext) dst = take i (elems σ0 src) →
  ∃ ext' dst',
    Original.append_range grow (σ0 ++ ext) src i n dst = (σ0 ++ ext', dst') ∧
    wf_slice (σ0 ++ ext') dst' ∧ newer σ0 dst' ∧
    elems (σ0 ++ ext') dst' = elems σ0 src ∧ sl_len dst' = sl_len src.
Proof.
  intros Hs. pose proof (length_elems _ _ Hs) as Hls.
  induction n as [|n IH]; intros i ext dst Hin Hw Hn Hl He.
  - exists ext, dst. split; [done|]. split_and!; try done; [|lia].
    rewrite He. apply take_ge. lia.
  - cbn [Original.append_range]. cbv zeta. rewrite elems_app by done.
    destruct (lookup_lt_is_Some_2 (elems σ0 src) i) as [x Hx]; [lia|].
    rewrite Hx. cbn [default]. change (id x) with x.
    destruct (append_slice_spec grow σ0 ext dst x Hw Hn) as (ext1 & dst1 & -> & Hw1 & Hn1 & He1 & Hl1).
    apply (IH (S i) ext1 dst1); try done; try lia.
    rewrite He1, He. symmetry. by apply take_S_r.
Qed.

(** A non-empty slice in arrays allocated after [σ0] shows that something
    was allocated. *)
Lemma newer_allocated σ0 ext s :
  wf_slice (σ0 ++ ext) s → newer σ0 s → 0 < sl_len s → ext ≠ [].
Proof.
  intros [Hl Hw] Hn Hpos ->. rewrite app_nil_r in Hw.
  destruct (sl_arr s) as [a|] eqn:Ha; [|lia].
  specialize (Hn a Ha). lia.
Qed.

Lemma newer_sep σ0 s t : newer σ0 s → wf_slice σ0 t → sep s t.
Proof.
  intros Hn [_ Ht] a Ha Hta. rewrite Hta in Ht. specialize (Hn a Ha). lia.
Qed.

(** X22. The original [backupMsg] builds the snapshot in arrays of its own:
    whatever the slot held, the new store is the old one with arrays added
    behind it, so every slice of the old store holds what it held; the
    slot's two slices lie in the added arrays, apart from every old slice
    and holding the extras of the message; and something is allocated
    whenever the message has an extra or a destination.  (The optimised
    [backupMsg] allocates nothing once the slot has the capacity.) *)
Theorem original_backupMsg_fresh σ m b :
  wf_msg σ m →
  ∃ ext b',
    Original.backupMsg grow σ m b = (σ ++ ext, b') ∧
    hdr b' = hdr m ∧ key b' = key m ∧ val b' = val m ∧
    elems (σ ++ ext) (iextras b') = elems σ (iextras m) ∧
    elems (σ ++ ext) (oextras b') = elems σ (oextras m) ∧
    (∀ t, wf_slice σ t →
          elems (σ ++ ext) t = elems σ t ∧ sep (iextras b') t ∧ sep (oextras b') t) ∧
    (0 < sl_len (iextras m) + sl_len (oextras m) → ext ≠ []).
Proof.
  intros [Hmi Hmo]. unfold Original.backupMsg. rewrite copy_header_eq.
  assert (∀ τ : store, wf_slice (τ ++ []) nil_slice) as Hnil
    by (intros τ; split; simpl; lia).
  assert (∀ τ : store, newer τ nil_slice) as Hnew by (intros τ a Ha; done).
  destruct (append_range_newer σ (iextras m) Hmi (sl_len (iextras m)) 0 [] nil_slice
              eq_refl (Hnil σ) (Hnew σ) eq_refl eq_refl)
    as (ext1 & bi & Hr1 & Hw1 & Hn1 & He1 & Hl1).
  rewrite app_nil_r in Hr1. rewrite Hr1.
  pose proof (wf_slice_app σ ext1 _ Hmo) as Hmo1.
  destruct (append_range_newer (σ ++ ext1) (oextras m) Hmo1 (sl_len (oextras m)) 0 [] nil_slice
              eq_refl (Hnil _) (Hnew _) eq_refl eq_refl)
    as (ext2 & bo & Hr2 & Hw2 & Hn2 & He2 & Hl2).
  rewrite app_nil_r in Hr2. rewrite Hr2.
  exists (ext1 ++ ext2), (mkMsg (hdr m) bi bo (key m) (val m)).
  rewrite app_assoc. split; [done|]. cbn [hdr key val iextras oextras].
  assert (newer σ bo) as Hn2'.
  { intros a Ha. specialize (Hn2 a Ha). rewrite length_app in Hn2. lia. }
  split_and!; try done.
  - rewrite elems_app by done. done.
  - rewrite He2. by apply elems_app.
  - intros t Ht. split_and!.
    + rewrite <- app_assoc. by apply elems_app.
    + by apply (newer_sep σ).
    + by apply (newer_sep σ).
  - intros Hpos Hz. apply app_eq_nil in Hz as [-> ->].
    destruct (decide (0 < sl_len (iextras m))) as [Hi|Hi].
    + apply (newer_allocated σ [] bi); [done|done|lia|done].
    + apply (newer_allocated (σ ++ []) [] bo); [done|done|lia|done].
Qed.

End OriginalMore.

Lemma original_backupMsg_fresh_witness :
  ∃ ext b',
    Original.backupMsg double (arrays set_world) set_msg zero_msg =
      (arrays set_world ++ ext, b') ∧
    elems (arrays set_world ++ ext) (iextras b') = [U32 3735928559; U32 3600] ∧
    elems (arrays set_world ++ ext) (oextras b') = [PU32 0%nat; PU32 1%nat] ∧
    ext ≠ [].
Proof.
  destruct (original_backupMsg_fresh double (arrays set_world) set_msg zero_msg)
    as (ext & b' & Hb & _ & _ & _ & Hi & Ho & _ & Ha).
  - repeat split; simpl; lia.
  - exists ext, b'. split; [exact Hb|]. split; [exact Hi|]. split; [exact Ho|].
    apply Ha. simpl. lia.
Defined.

(** ** Socket accounting *)

Section Accounting.
Context `{Protocol}.
Local Open Scope nat_scope.

Lemma held_connected sc : connected sc → held sc = 1.
Proof. intros [[c Hc] _]. unfold held. by rewrite Hc. Qed.

Lemma close_conn_account sc :
  held (close_conn sc) = 0 ∧ closes (close_conn sc) = held sc + closes sc.
Proof. unfold close_conn, held. destruct (conn sc) eqn:Hc; cbn; by rewrite ?Hc. Qed.

Lemma resetConn_account e sc :
  held (resetConn e sc) + closes (resetConn e sc) = held sc + closes sc.
Proof.
  destruct (resetConn_cases e sc) as [-> | ->]; [|done].
  destruct (close_conn_account sc) as [-> ->]. done.
Qed.

Lemma sendRecv_account W sc m err W' sc' m' :
  sendRecv W sc m = Ret (err, W', sc', m') →
  held sc' + closes sc' = held sc + closes sc.
Proof.
  unfold sendRecv.
  destruct (send W sc m) as [[[[e|] sc1] m1]|] eqn:Hs; cbn [mbind result_bind]; [| |done];
    destruct (send_keeps _ _ _ _ _ _ Hs) as (Hc & Hc1 & Hcl1 & _);
    pose proof (held_connected _ Hc) as Hh; pose proof (held_connected _ Hc1) as Hh1.
  - intros [= _ _ <- _]. rewrite resetConn_account. lia.
  - destruct (recv W sc1 m1) as [[[[[e|] W2] sc2] m2]|] eqn:Hr; cbn [mbind result_bind];
      [| |done];
      destruct (recv_keeps _ _ _ _ _ _ _ Hr) as (_ & Hc2 & Hcl2 & _);
      pose proof (held_connected _ Hc2) as Hh2; intros [= _ _ <- _].
    + rewrite resetConn_account. lia.
    + lia.
Qed.

Lemma auth_account W sc err W' sc' :
  auth W sc = Ret (err, W', sc') → held sc' + closes sc' = held sc + closes sc.
Proof.
  unfold auth. destruct (_ && _); [by intros [= _ _ <-]|].
  unfold authList.
  destruct (sendRecv W sc _) as [[[[err1 W1] sc1] m1]|] eqn:Hl; cbn [mbind result_bind]; [|done].
  pose proof (sendRecv_account _ _ _ _ _ _ _ Hl) as H1.
  destruct err1 as [e1|]; [by intros [= _ _ <-]|].
  destruct (contains "PLAIN" (val m1)); [|by intros [= _ _ <-]].
  unfold authPlain.
  destruct (sendRecv W1 sc1 _) as [[[[err2 W2] sc2] m2]|] eqn:Hp; cbn [mbind result_bind]; [|done].
  pose proof (sendRecv_account _ _ _ _ _ _ _ Hp) as H2.
  intros [= _ _ <-]. lia.
Qed.

Lemma connect_account d W sc err W' sc' :
  conn sc = None → connect d W sc = Ret (err, W', sc') →
  held sc' + closes sc' = closes sc + dialled sc d.
Proof.
  intros Hc. unfold dialled. rewrite Hc. destruct d as [e|c]; cbn [connect].
  { intros [= _ _ <-]. unfold held. rewrite Hc. lia. }
  destruct (_ && _).
  { intros [= _ _ <-]. cbn. lia. }
  destruct (auth W _) as [[[err1 W1] sc1]|] eqn:Ha; cbn [mbind result_bind]; [|done].
  apply auth_account in Ha. cbn [held closes conn set_rw set_conn] in Ha.
  destruct err1 as [e|]; [|intros [= _ _ <-]; lia].
  destruct (negb _); intros [= _ _ <-]; [|lia].
  destruct (close_conn_account sc1) as [-> ->]. lia.
Qed.

Lemma recv_stats_account fuel : ∀ W sc m stats stats' err W' sc' m',
  recv_stats fuel W sc m stats = Some (Ret (stats', err, W', sc', m')) →
  held sc' + closes sc' = held sc + closes sc.
Proof.
  induction fuel as [|fuel IH]; intros W sc m stats stats' err W' sc' m' Hr; [done|].
  cbn [recv_stats] in Hr.
  destruct (recv W sc m) as [[[[[e|] W1] sc1] m1]|] eqn:Hrecv; [| |done];
    destruct (recv_keeps _ _ _ _ _ _ _ Hrecv) as (Hc & Hc1 & Hcl1 & _);
    pose proof (held_connected _ Hc) as Hh; pose proof (held_connected _ Hc1) as Hh1.
  - injection Hr as _ _ _ <- _. rewrite resetConn_account. lia.
  - destruct (KeyLen (hdr m1) =? 0)%Z.
    + injection Hr as _ _ _ <- _. lia.
    + apply IH in Hr. lia.
Qed.

Lemma sendRecvStats_account W sc m stats err W' sc' m' :
  sendRecvStats W sc m = Some (Ret (stats, err, W', sc', m')) →
  held sc' + closes sc' = held sc + closes sc.
Proof.
  unfold sendRecvStats.
  destruct (send W sc m) as [[[[e|] sc1] m1]|] eqn:Hs; [| |done];
    destruct (send_keeps _ _ _ _ _ _ Hs) as (Hc & Hc1 & Hcl1 & _);
    pose proof (held_connected _ Hc) as Hh; pose proof (held_connected _ Hc1) as Hh1.
  - intros [= _ _ _ <- _]. rewrite resetConn_account. lia.
  - destruct (recv_stats _ W sc1 m1 ∅) as [[[[[[s e] W1] sc2] m2]|]|] eqn:Hr; try done.
    apply recv_stats_account in Hr. intros [= _ _ _ <- _]. lia.
Qed.

(** X23. No socket is lost or closed twice.  For every call of [perform],
    [performStats] and [quit] that returns, the sockets held afterwards plus
    the sockets closed so far are the sockets held before plus those closed
    before plus the one the call may have dialled: each socket the dialler
    handed out is still held in [conn] or has been closed exactly once.
    After [quit] none is held. *)
Theorem sockets_accounted d W sc m :
  (∀ err W' sc' m',
     perform d W sc m = Ret (err, W', sc', m') →
     held sc' + closes sc' = held sc + closes sc + dialled sc d) ∧
  (∀ stats err W' sc' m',
     performStats d W sc m = Some (Ret (stats, err, W', sc', m')) →
     held sc' + closes sc' = held sc + closes sc + dialled sc d) ∧
  (∀ W' sc' m',
     quit W sc m = Ret (W', sc', m') →
     held sc' = 0 ∧ closes sc' = held sc + closes sc).
Proof.
  assert (∀ c, conn sc = Some c → held sc = 1 ∧ dialled sc d = 0) as Hup
    by (intros c Hc; unfold held, dialled; by rewrite Hc).
  assert (conn sc = None → held sc = 0) as Hdown
    by (intros Hc; unfold held; by rewrite Hc).
  split_and!.
  - intros err W' sc' m'. unfold perform. destruct (conn sc) as [c|] eqn:Hc.
    { intros Hr. apply sendRecv_account in Hr. destruct (Hup c eq_refl). lia. }
    destruct (connect d W sc) as [[[[e|] W1] sc1]|] eqn:Hcn; cbn [mbind result_bind]; [| |done];
      apply (connect_account _ _ _ _ _ _ Hc) in Hcn; specialize (Hdown eq_refl).
    + intros [= _ _ <- _]. lia.
    + intros Hr. apply sendRecv_account in Hr. lia.
  - intros stats err W' sc' m'. unfold performStats. destruct (conn sc) as [c|] eqn:Hc.
    { intros Hr. apply sendRecvStats_account in Hr. destruct (Hup c eq_refl). lia. }
    destruct (connect d W sc) as [[[[e|] W1] sc1]|] eqn:Hcn; [| |done];
      apply (connect_account _ _ _ _ _ _ Hc) in Hcn; specialize (Hdown eq_refl).
    + intros [= _ _ _ <- _]. lia.
    + intros Hr. apply sendRecvStats_account in Hr. lia.
  - intros W' sc' m'. unfold quit. destruct (conn sc) as [c|] eqn:Hc.
    + destruct (sendRecv W sc m) as [[[[err W1] sc1] m1]|] eqn:Hr; cbn [mbind result_bind];
        [|done].
      apply sendRecv_account in Hr. intros [= _ <- _].
      destruct (close_conn_account sc1) as [-> ->]. split; [done|lia].
    + intros [= _ <- _]. specialize (Hdown eq_refl). split; [done|lia].
Qed.

End Accounting.

(** A fresh connection is dialled, exchanges, and is closed by [quit]. *)
Lemma sockets_accounted_witness :
  ∃ err W1 sc1 m1 W2 sc2 m2,
    @perform memcached (Dialed (conn_with (r_frame stored ++ r_frame stored)))
      set_world (newServerConn "tcp" "" "") set_msg = Ret (err, W1, sc1, m1) ∧
    (held sc1 + closes sc1 = 1)%nat ∧
    @quit memcached W1 sc1 m1 = Ret (W2, sc2, m2) ∧
    held sc2 = 0%nat ∧ closes sc2 = 1%nat.
Proof.
  assert (∃ err W1 sc1 m1 W2 sc2 m2,
    @perform memcached (Dialed (conn_with (r_frame stored ++ r_frame stored)))
      set_world (newServerConn "tcp" "" "") set_msg = Ret (err, W1, sc1, m1) ∧
    @quit memcached W1 sc1 m1 = Ret (W2, sc2, m2))
    as (err & W1 & sc1 & m1 & W2 & sc2 & m2 & Hp & Hq)
    by (eexists _, _, _, _, _, _, _; split; [vm_compute; reflexivity|vm_compute; reflexivity]).
  pose proof (proj1 (@sockets_accounted memcached
                       (Dialed (conn_with (r_frame stored ++ r_frame stored)))
                       set_world (newServerConn "tcp" "" "") set_msg) _ _ _ _ Hp) as H1.
  pose proof (proj2 (proj2 (@sockets_accounted memcached (DialError "") W1 sc1 m1))
                _ _ _ Hq) as [H2 H3].
  exists err, W1, sc1, m1, W2, sc2, m2.
  split; [exact Hp|]. split; [exact H1|]. split; [exact Hq|]. split; [exact H2|].
  rewrite H3. exact H1.
Defined.
